(** * gif2png: the frame compositor of main.go

    A shallow embedding of [gifFrameToImage] and [drawFrame] (main.go), together
    with the part of Go's [image], [image/color] and [image/draw] packages
    they call, and the properties of the compositor stated in the
    specification.

    Conventions.
    - Go's [int] is [Z]; [uint8] is [Byte.byte]; [uint32] arithmetic is
      written on [Z] with its wrap-around ([wrap32]) spelled out.
    - A run-time panic (index out of range, negative raster size) is
      [None]; a panic aborts the whole program, so a partially
      updated canvas is never observed.
    - An [*image.RGBA] made by [image.NewRGBA] has [Stride = 4 * Dx]; its
      [Pix] is kept here grouped by pixel (one [color.RGBA] per four bytes),
      in the same row-major order. *)

From Stdlib Require Import ZArith Lia.
From Stdlib Require DecimalN.
From Stdlib.Strings Require Import Byte.
From stdpp Require Import prelude.

Open Scope Z_scope.

#[global] Instance byte_eq_dec : EqDecision byte := Byte.byte_eq_dec.

(** ** Machine integers and slices *)

Definition uint32 (b : byte) : Z := Z.of_N (Byte.to_N b).

Definition wrap32 (z : Z) : Z := z mod 2 ^ 32.

Definition uint8 (z : Z) : byte :=
  default x00 (Byte.of_N (Z.to_N (z mod 256))).

(** Go's slice indexing [l[i]]: a negative or too large index panics. *)
Definition index {A : Type} (l : list A) (i : Z) : option A :=
  if i <? 0 then None else l !! Z.to_nat i.

(** ** Package image/color *)

Module color.

Module RGBA.
(** [color.RGBA]: alpha-premultiplied 8-bit channels. *)
Record t : Type := mk { R : byte; G : byte; B : byte; A : byte }.

(** The method [RGBA()]: each channel widened to 16 bits by
    [r |= r << 8]. *)
Definition widen (b : byte) : Z :=
  let r := uint32 b in Z.lor r (wrap32 (Z.shiftl r 8)).

Definition RGBA (c : t) : Z * Z * Z * Z :=
  (widen (R c), widen (G c), widen (B c), widen (A c)).

Definition eqb (c d : t) : bool :=
  Byte.eqb (R c) (R d) && Byte.eqb (G c) (G d) &&
  Byte.eqb (B c) (B d) && Byte.eqb (A c) (A d).
End RGBA.

(** [color.RGBA{}], which is also what [color.Transparent] converts to. *)
Definition Transparent : RGBA.t := RGBA.mk x00 x00 x00 x00.

End color.

(** ** Package image *)

Module image.

Record Point : Type := mkPoint { X : Z; Y : Z }.

Record Rectangle : Type := mkRect { Min : Point; Max : Point }.

Definition Rect (x0 y0 x1 y1 : Z) : Rectangle :=
  mkRect (mkPoint (Z.min x0 x1) (Z.min y0 y1))
         (mkPoint (Z.max x0 x1) (Z.max y0 y1)).

Definition ZP : Point := mkPoint 0 0.
Definition ZR : Rectangle := mkRect ZP ZP.

Definition PtAdd (p q : Point) : Point := mkPoint (X p + X q) (Y p + Y q).
Definition PtSub (p q : Point) : Point := mkPoint (X p - X q) (Y p - Y q).

(** [p.In(r)] *)
Definition PtIn (p : Point) (r : Rectangle) : bool :=
  (X (Min r) <=? X p) && (X p <? X (Max r)) &&
  (Y (Min r) <=? Y p) && (Y p <? Y (Max r)).

Definition Dx (r : Rectangle) : Z := X (Max r) - X (Min r).
Definition Dy (r : Rectangle) : Z := Y (Max r) - Y (Min r).

Definition Empty (r : Rectangle) : bool :=
  (X (Max r) <=? X (Min r)) || (Y (Max r) <=? Y (Min r)).

Definition RectAdd (r : Rectangle) (p : Point) : Rectangle :=
  mkRect (PtAdd (Min r) p) (PtAdd (Max r) p).

Definition Intersect (r s : Rectangle) : Rectangle :=
  let x0 := if X (Min r) <? X (Min s) then X (Min s) else X (Min r) in
  let y0 := if Y (Min r) <? Y (Min s) then Y (Min s) else Y (Min r) in
  let x1 := if X (Max s) <? X (Max r) then X (Max s) else X (Max r) in
  let y1 := if Y (Max s) <? Y (Max r) then Y (Max s) else Y (Max r) in
  let r' := mkRect (mkPoint x0 y0) (mkPoint x1 y1) in
  if Empty r' then ZR else r'.

(** The points of a rectangle, row by row. *)
Definition rectPoints (r : Rectangle) : list Point :=
  y ← seqZ (Y (Min r)) (Dy r);
  x ← seqZ (X (Min r)) (Dx r);
  [mkPoint x y].

(** [*image.Paletted] *)
Module Paletted.
Record t : Type := mk {
  Pix : list byte;
  Stride : Z;
  Rect : Rectangle;
  Palette : list color.RGBA.t
}.

Definition Bounds (p : t) : Rectangle := Rect p.

Definition PixOffset (p : t) (x y : Z) : Z :=
  (y - Y (Min (Rect p))) * Stride p + (x - X (Min (Rect p))) * 1.

(** [p.RGBA64At(x, y)], the read [drawRGBA] makes of a source that is an
    [image.RGBA64Image]: the zero colour for an empty palette, palette
    entry 0 outside the rectangle, else the entry the pixel names. The
    colour is returned as the palette holds it; its 16-bit channels are
    the widening [RGBA()] of it, taken in [draw.pixelRGBA]. *)
Definition RGBA64At (p : t) (q : Point) : option color.RGBA.t :=
  match Palette p with
  | [] => Some color.Transparent
  | c0 :: _ =>
      if negb (PtIn q (Rect p)) then Some c0
      else
        i ← index (Pix p) (PixOffset p (X q) (Y q));
        index (Palette p) (uint32 i)
  end.
End Paletted.

(** [*image.RGBA] *)
Module RGBA.
Record t : Type := mk {
  Pix : list color.RGBA.t;
  Rect : Rectangle
}.

Definition Bounds (p : t) : Rectangle := Rect p.

(** In pixels: Go's offset divided by four. *)
Definition PixOffset (p : t) (x y : Z) : Z :=
  (y - Y (Min (Rect p))) * Dx (Rect p) + (x - X (Min (Rect p))).

Definition RGBAAt (p : t) (q : Point) : color.RGBA.t :=
  if negb (PtIn q (Rect p)) then color.Transparent
  else default color.Transparent
         (Pix p !! Z.to_nat (PixOffset p (X q) (Y q))).

(** The point stored at index [k] of [Pix]. *)
Definition pointAt (r : Rectangle) (k : Z) : Point :=
  mkPoint (X (Min r) + k mod Dx r) (Y (Min r) + k / Dx r).
End RGBA.

(** [image.NewRGBA(r)]: panics on a negative width or height. *)
Definition NewRGBA (r : Rectangle) : option RGBA.t :=
  if (Dx r <? 0) || (Dy r <? 0) then None
  else Some (RGBA.mk (replicate (Z.to_nat (Dx r * Dy r)) color.Transparent) r).

(** [*image.Uniform] *)
Module Uniform.
Record t : Type := mk { C : color.RGBA.t }.

Definition Bounds (_ : t) : Rectangle :=
  mkRect (mkPoint (-1000000000) (-1000000000))
         (mkPoint 1000000000 1000000000).
End Uniform.

(** [image.Transparent] *)
Definition Transparent : Uniform.t := Uniform.mk color.Transparent.

(** The [image.Image] values that reach [draw.Draw] in this program. *)
Inductive Image : Type :=
  | OfPaletted (p : Paletted.t)
  | OfRGBA (p : RGBA.t)
  | OfUniform (p : Uniform.t).

Definition Bounds (i : Image) : Rectangle :=
  match i with
  | OfPaletted p => Paletted.Bounds p
  | OfRGBA p => RGBA.Bounds p
  | OfUniform p => Uniform.Bounds p
  end.

End image.

Import image.

(** ** Package image/draw

    [draw.Draw] onto an [*image.RGBA], as the standard library of Go 1.18
    and later computes it: [clip], then the routine chosen by the type of
    the source and the operator. *)

Module draw.

Inductive Op : Type := Over | Src.

Definition m : Z := 65535.

(** [clip]: the destination rectangle cut to both images, the source
    point moved along. *)
Definition clip (dst : RGBA.t) (r : Rectangle) (src : Image) (sp : Point)
  : Rectangle * Point :=
  let orig := Min r in
  let r := Intersect r (RGBA.Bounds dst) in
  let r := Intersect r (RectAdd (Bounds src) (PtSub orig sp)) in
  let dx := X (Min r) - X orig in
  let dy := Y (Min r) - Y orig in
  if (dx =? 0) && (dy =? 0) then (r, sp)
  else (r, mkPoint (X sp + dx) (Y sp + dy)).

(** The source point read for destination point [q]. *)
Definition srcPoint (r : Rectangle) (sp q : Point) : Point :=
  mkPoint (X sp + (X q - X (Min r))) (Y sp + (Y q - Y (Min r))).

(** The nested [y]/[x] loops of the drawing routines: every pixel of
    [dst] that lies in [r] is replaced by [f] of its point and old
    value. *)
Definition mapRect (dst : RGBA.t) (r : Rectangle)
    (f : Point → color.RGBA.t → color.RGBA.t) : RGBA.t :=
  RGBA.mk
    (imap (λ k old,
             let q := RGBA.pointAt (RGBA.Rect dst) (Z.of_nat k) in
             if PtIn q r then f q old else old)
          (RGBA.Pix dst))
    (RGBA.Rect dst).

(** One pixel of [drawRGBA] with a nil mask. *)
Definition pixelRGBA (op : Op) (d s : color.RGBA.t) : color.RGBA.t :=
  let '(sr, sg, sb, sa) := color.RGBA.RGBA s in
  let ma := m in
  match op with
  | Over =>
      let a := wrap32 (wrap32 (m - wrap32 (sa * ma) / m) * 257) in
      let ch (d0 : byte) (s0 : Z) : byte :=
        uint8 (Z.shiftr (wrap32 (wrap32 (uint32 d0 * a) + wrap32 (s0 * ma)) / m) 8) in
      color.RGBA.mk (ch (color.RGBA.R d) sr) (ch (color.RGBA.G d) sg)
                    (ch (color.RGBA.B d) sb) (ch (color.RGBA.A d) sa)
  | Src =>
      let ch (s0 : Z) : byte := uint8 (Z.shiftr (wrap32 (s0 * ma) / m) 8) in
      color.RGBA.mk (ch sr) (ch sg) (ch sb) (ch sa)
  end.

(** [drawRGBA] from a paletted source: panics when a source pixel cannot
    be read. *)
Definition drawRGBA (dst : RGBA.t) (r : Rectangle) (src : Paletted.t)
    (sp : Point) (op : Op) : option RGBA.t :=
  if forallb (λ q, bool_decide (is_Some (Paletted.RGBA64At src (srcPoint r sp q))))
             (rectPoints r)
  then Some (mapRect dst r (λ q old,
               pixelRGBA op old
                 (default color.Transparent (Paletted.RGBA64At src (srcPoint r sp q)))))
  else None.

(** One pixel of [drawCopyOver]. *)
Definition pixelCopyOver (d s : color.RGBA.t) : color.RGBA.t :=
  let sr := wrap32 (uint32 (color.RGBA.R s) * 257) in
  let sg := wrap32 (uint32 (color.RGBA.G s) * 257) in
  let sb := wrap32 (uint32 (color.RGBA.B s) * 257) in
  let sa := wrap32 (uint32 (color.RGBA.A s) * 257) in
  let a := wrap32 (wrap32 (m - sa) * 257) in
  let ch (d0 : byte) (s0 : Z) : byte :=
    uint8 (Z.shiftr (wrap32 (wrap32 (uint32 d0 * a) / m + s0)) 8) in
  color.RGBA.mk (ch (color.RGBA.R d) sr) (ch (color.RGBA.G d) sg)
                (ch (color.RGBA.B d) sb) (ch (color.RGBA.A d) sa).

Definition drawCopyOver (dst : RGBA.t) (r : Rectangle) (src : RGBA.t)
    (sp : Point) : RGBA.t :=
  mapRect dst r (λ q old, pixelCopyOver old (RGBA.RGBAAt src (srcPoint r sp q))).

Definition drawCopySrc (dst : RGBA.t) (r : Rectangle) (src : RGBA.t)
    (sp : Point) : RGBA.t :=
  mapRect dst r (λ q _, RGBA.RGBAAt src (srcPoint r sp q)).

(** [drawFillSrc]: every pixel of [r] becomes the colour's high bytes. *)
Definition drawFillSrc (dst : RGBA.t) (r : Rectangle) (c : Z * Z * Z * Z)
  : RGBA.t :=
  let '(sr, sg, sb, sa) := c in
  let px := color.RGBA.mk (uint8 (Z.shiftr sr 8)) (uint8 (Z.shiftr sg 8))
                          (uint8 (Z.shiftr sb 8)) (uint8 (Z.shiftr sa 8)) in
  mapRect dst r (λ _ _, px).

Definition drawFillOver (dst : RGBA.t) (r : Rectangle) (c : Z * Z * Z * Z)
  : RGBA.t :=
  let '(sr, sg, sb, sa) := c in
  let a := wrap32 (wrap32 (m - sa) * 257) in
  let ch (d0 : byte) (s0 : Z) : byte :=
    uint8 (Z.shiftr (wrap32 (wrap32 (uint32 d0 * a) / m + s0)) 8) in
  mapRect dst r (λ _ d,
    color.RGBA.mk (ch (color.RGBA.R d) sr) (ch (color.RGBA.G d) sg)
                  (ch (color.RGBA.B d) sb) (ch (color.RGBA.A d) sa)).

(** [draw.Draw(dst, r, src, sp, op)] for an [*image.RGBA] destination:
    [DrawMask] with a nil mask, with its choice of routine by source
    type. *)
Definition Draw (dst : RGBA.t) (r : Rectangle) (src : Image) (sp : Point)
    (op : Op) : option RGBA.t :=
  let '(r, sp) := clip dst r src sp in
  if Empty r then Some dst
  else
    match src, op with
    | OfUniform u, Over =>
        let c := color.RGBA.RGBA (Uniform.C u) in
        if c.2 =? 65535 then Some (drawFillSrc dst r c)
        else Some (drawFillOver dst r c)
    | OfUniform u, Src => Some (drawFillSrc dst r (color.RGBA.RGBA (Uniform.C u)))
    | OfRGBA s, Over => Some (drawCopyOver dst r s sp)
    | OfRGBA s, Src => Some (drawCopySrc dst r s sp)
    | OfPaletted p, _ => drawRGBA dst r p sp op
    end.

End draw.

(** ** Package image/gif: the fields of [gif.GIF] that main.go reads *)

Module gif.

Record GIF : Type := mk {
  Image : list Paletted.t;
  Disposal : list byte
}.

End gif.

(** ** main.go *)

(** GIF disposal methods *)
Definition disposalNone : byte := x01.
Definition disposalBackground : byte := x02.
Definition disposalPrevious : byte := x03.

(** [drawFrame] (main.go, lines 76-78) *)
Definition drawFrame (dst : RGBA.t) (src : Paletted.t) (bounds : Rectangle)
  : option RGBA.t :=
  draw.Draw dst bounds (OfPaletted src) (Min bounds) draw.Over.

(** The disposal code the loop reads at index [i] (lines 43-46): zero
    unless [i < len(gif.Disposal)]. The loop index is never negative. *)
Definition disposalAt (g : gif.GIF) (i : Z) : byte :=
  if i <? Z.of_nat (length (gif.Disposal g))
  then default x00 (gif.Disposal g !! Z.to_nat i)
  else x00.

(** The body of the [for] loop of [gifFrameToImage] (lines 43-69) at index
    [i], as a transformer of the canvas [img]; [gif.Image[i]] is fetched
    where each branch of the [switch] uses it. *)
Definition loopBody (g : gif.GIF) (bounds : Rectangle) (i : Z) (img : RGBA.t)
  : option RGBA.t :=
  let disposal := disposalAt g i in
  if Byte.eqb disposal disposalNone then
    fi ← index (gif.Image g) i;
    drawFrame img fi bounds
  else if Byte.eqb disposal disposalBackground then
    img ← draw.Draw img bounds (OfUniform image.Transparent) ZP draw.Src;
    fi ← index (gif.Image g) i;
    drawFrame img fi bounds
  else if Byte.eqb disposal disposalPrevious then
    if 0 <? i then
      temp ← NewRGBA bounds;
      temp ← draw.Draw temp bounds (OfRGBA img) (Min bounds) draw.Over;
      fi ← index (gif.Image g) i;
      img ← drawFrame img fi bounds;
      draw.Draw img bounds (OfRGBA temp) (Min bounds) draw.Over
    else
      fi ← index (gif.Image g) i;
      drawFrame img fi bounds
  else
    fi ← index (gif.Image g) i;
    drawFrame img fi bounds.

(** [for i := ...; i <= frame; i++] with [n] iterations left. *)
Fixpoint forLoop (g : gif.GIF) (bounds : Rectangle) (n : nat) (i : Z)
    (img : RGBA.t) : option RGBA.t :=
  match n with
  | O => Some img
  | S n' =>
      img ← loopBody g bounds i img;
      forLoop g bounds n' (i + 1) img
  end.

(** [gifFrameToImage] (main.go, lines 31-73) *)
Definition gifFrameToImage (g : gif.GIF) (frame : Z) : option RGBA.t :=
  f ← index (gif.Image g) frame;
  let bounds := Paletted.Bounds f in
  img ← NewRGBA bounds;
  if frame =? 0 then
    drawFrame img f bounds
  else
    forLoop g bounds (Z.to_nat (frame + 1)) 0 img.

(** ** Sample animations *)

Module Samples.

Definition red : color.RGBA.t := color.RGBA.mk xff x00 x00 xff.
Definition blue : color.RGBA.t := color.RGBA.mk x00 x00 xff xff.
Definition clear : color.RGBA.t := color.Transparent.

Definition unit : Rectangle := image.Rect 0 0 1 1.

(** A 1x1 frame whose pixel is palette entry [i] of {red, blue, clear}. *)
Definition dot (i : byte) : Paletted.t :=
  Paletted.mk [i] 1 unit [red; blue; clear].

(** A 2x1 frame with palette entries [a] and [b] at (0,0) and (1,0). *)
Definition strip (a b : byte) : Paletted.t :=
  Paletted.mk [a; b] 2 (image.Rect 0 0 2 1) [red; blue; clear].

(** The scenario of the specification: pixels [0,1,0], disposals
    [None, RestoreBackground, None]. *)
Definition scenario : gif.GIF :=
  gif.mk [dot x00; dot x01; dot x00] [x01; x02; x01].

(** The same frames with RestorePrevious on the last one. *)
Definition scenario' : gif.GIF :=
  gif.mk [dot x00; dot x01; dot x00] [x01; x02; x03].

(** Opaque red with RestoreBackground, then a transparent pixel. *)
Definition stale : gif.GIF := gif.mk [dot x00; dot x02] [x02; x01].

(** Opaque red, then a transparent pixel with RestoreBackground. *)
Definition cleared : gif.GIF := gif.mk [dot x00; dot x02] [x01; x02].

(** (clear, red), then (blue, clear) with RestorePrevious, then a
    transparent frame. *)
Definition leak : gif.GIF :=
  gif.mk [strip x02 x00; strip x01 x02; strip x02 x02] [x01; x03; x01].

(** (clear, red), then (blue, blue) with RestorePrevious. *)
Definition previous : gif.GIF :=
  gif.mk [strip x02 x00; strip x01 x01] [x01; x03].

(** The canvas after frame 0 of [previous]. *)
Definition previousCanvas : RGBA.t :=
  RGBA.mk [clear; red] (image.Rect 0 0 2 1).

(** A red canvas of one pixel. *)
Definition redCanvas : RGBA.t := RGBA.mk [red] unit.


(** Two frames, one disposal entry. *)
Definition short : gif.GIF := gif.mk [dot x00; dot x02] [x02].

(** A 2x1 frame followed by a 1x1 target, no disposal entries. *)
Definition mixed : gif.GIF := gif.mk [strip x00 x01; dot x02] [].

(** Opaque red with RestoreBackground, then opaque blue. *)
Definition covered : gif.GIF := gif.mk [dot x00; dot x01] [x02; x01].

End Samples.

(** ** Well-formed rasters *)

(** A frame as [gif.DecodeAll] yields it: 16-bit width and height, and
    every pixel of its rectangle readable (the pixel buffer covers the
    rectangle, every index is inside the palette). *)
Definition wellFormed (f : Paletted.t) : bool :=
  (0 <=? Dx (Paletted.Rect f)) && (Dx (Paletted.Rect f) <=? 65535) &&
  (0 <=? Dy (Paletted.Rect f)) && (Dy (Paletted.Rect f) <=? 65535) &&
  forallb (λ q, bool_decide (is_Some (Paletted.RGBA64At f q)))
          (rectPoints (Paletted.Rect f)).

(** A canvas as [image.NewRGBA] allocates it: one pixel per point. *)
Definition canvas (bounds : Rectangle) (img : RGBA.t) : Prop :=
  RGBA.Rect img = bounds ∧ 0 <= Dx bounds ∧ 0 <= Dy bounds ∧
  Z.of_nat (length (RGBA.Pix img)) = Dx bounds * Dy bounds.

(** The colour of frame [f] at [q]; transparent where it cannot be read. *)
Definition colorAt (f : Paletted.t) (q : Point) : color.RGBA.t :=
  default color.Transparent (Paletted.RGBA64At f q).

(** A canvas rewritten pixel by pixel: the pixel at point [q] becomes
    [F q] of its old value. *)
Definition pointwise (F : Point → color.RGBA.t → color.RGBA.t) (img : RGBA.t)
  : RGBA.t :=
  RGBA.mk (imap (λ k old, F (RGBA.pointAt (RGBA.Rect img) (Z.of_nat k)) old)
                (RGBA.Pix img))
          (RGBA.Rect img).

(** Frame [f] laid over one canvas pixel, source-over, at its own
    absolute position. *)
Definition overFrame (f : Paletted.t) (q : Point) (old : color.RGBA.t)
  : color.RGBA.t :=
  if PtIn q (Paletted.Rect f) then draw.pixelRGBA draw.Over old (colorAt f q)
  else old.

(** One pixel of an iteration of the loop with disposal code [d] at index
    [i]: what lines 48-69 leave at point [q] of a canvas holding [old]. *)
Definition stepPixel (d : byte) (i : Z) (fi : Paletted.t) (q : Point)
    (old : color.RGBA.t) : color.RGBA.t :=
  if Byte.eqb d disposalNone then overFrame fi q old
  else if Byte.eqb d disposalBackground then overFrame fi q color.Transparent
  else if Byte.eqb d disposalPrevious then
    if 0 <? i then draw.pixelCopyOver (overFrame fi q old) old
    else overFrame fi q old
  else overFrame fi q old.

(** Every pixel of the frame's rectangle is opaque. *)
Definition fullyOpaque (f : Paletted.t) : bool :=
  forallb (λ q, Byte.eqb (color.RGBA.A (colorAt f q)) xff)
          (rectPoints (Paletted.Rect f)).

(** The disposal list padded with [disposalNone] to the number of frames. *)
Definition padDisposal (g : gif.GIF) : gif.GIF :=
  gif.mk (gif.Image g)
         (gif.Disposal g ++
          replicate (length (gif.Image g) - length (gif.Disposal g)) disposalNone).

(** ** The compositor over an explicit heap

    [gifFrameToImage] once more, now with Go's pointers: an
    [*image.Paletted] and an [*image.RGBA] are addresses into a heap, the
    animation holds addresses of its frames, [image.NewRGBA] allocates and
    [draw.Draw] writes to the destination address. This is the version in
    which reading and writing of shared rasters can be told apart. *)

Module Store.

Record heap : Type := mkHeap {
  paletted : list Paletted.t;
  rgba : list RGBA.t
}.

(** Computations that read and write the heap and may panic. *)
Definition M (A : Type) : Type := heap → option (A * heap).

Definition ret {A : Type} (a : A) : M A := λ h, Some (a, h).

Definition bind {A B : Type} (c : M A) (k : A → M B) : M B :=
  λ h, match c h with
       | Some (a, h') => k a h'
       | None => None
       end.

Definition lift {A : Type} (o : option A) : M A :=
  λ h, match o with Some a => Some (a, h) | None => None end.

Notation "'let*' x ':=' c 'in' k" := (bind c (λ x, k))
  (at level 10, x name, c at level 100, k at level 200).

(** The [image.Image] arguments of [draw.Draw], by address. *)
Inductive ref : Type :=
  | ToPaletted (p : nat)
  | ToRGBA (p : nat)
  | ToUniform (u : Uniform.t).

Definition load (src : ref) : M Image :=
  λ h, match src with
       | ToPaletted p => f ← paletted h !! p; Some (OfPaletted f, h)
       | ToRGBA p => s ← rgba h !! p; Some (OfRGBA s, h)
       | ToUniform u => Some (OfUniform u, h)
       end.

(** [p.Bounds()] through an [*image.Paletted]. *)
Definition BoundsAt (p : nat) : M Rectangle :=
  λ h, f ← paletted h !! p; Some (Paletted.Bounds f, h).

(** [image.NewRGBA]: a new raster at a fresh address. *)
Definition NewRGBA (r : Rectangle) : M nat :=
  λ h, img ← image.NewRGBA r;
       Some (length (rgba h), mkHeap (paletted h) (rgba h ++ [img])).

(** [draw.Draw]: the raster at [dst] is overwritten with the result. *)
Definition Draw (dst : nat) (r : Rectangle) (src : ref) (sp : Point)
    (op : draw.Op) : M unit :=
  λ h, d ← rgba h !! dst;
       '(s, _) ← load src h;
       d' ← draw.Draw d r s sp op;
       Some (tt, mkHeap (paletted h) (<[dst := d']> (rgba h))).

(** [gif.GIF] with its [[]*image.Paletted]. *)
Record GIF : Type := mk {
  Image : list nat;
  Disposal : list byte
}.

Definition disposalAt (g : GIF) (i : Z) : byte :=
  if i <? Z.of_nat (length (Disposal g))
  then default x00 (Disposal g !! Z.to_nat i)
  else x00.

Definition drawFrame (dst : nat) (src : nat) (bounds : Rectangle) : M unit :=
  Draw dst bounds (ToPaletted src) (Min bounds) draw.Over.

Definition loopBody (g : GIF) (bounds : Rectangle) (i : Z) (img : nat)
  : M unit :=
  let disposal := disposalAt g i in
  if Byte.eqb disposal disposalNone then
    let* fi := lift (index (Image g) i) in
    drawFrame img fi bounds
  else if Byte.eqb disposal disposalBackground then
    let* _ := Draw img bounds (ToUniform image.Transparent) ZP draw.Src in
    let* fi := lift (index (Image g) i) in
    drawFrame img fi bounds
  else if Byte.eqb disposal disposalPrevious then
    if 0 <? i then
      let* temp := NewRGBA bounds in
      let* _ := Draw temp bounds (ToRGBA img) (Min bounds) draw.Over in
      let* fi := lift (index (Image g) i) in
      let* _ := drawFrame img fi bounds in
      Draw img bounds (ToRGBA temp) (Min bounds) draw.Over
    else
      let* fi := lift (index (Image g) i) in
      drawFrame img fi bounds
  else
    let* fi := lift (index (Image g) i) in
    drawFrame img fi bounds.

Fixpoint forLoop (g : GIF) (bounds : Rectangle) (n : nat) (i : Z)
    (img : nat) : M unit :=
  match n with
  | O => ret tt
  | S n' =>
      let* _ := loopBody g bounds i img in
      forLoop g bounds n' (i + 1) img
  end.

Definition gifFrameToImage (g : GIF) (frame : Z) : M nat :=
  let* f := lift (index (Image g) frame) in
  let* bounds := BoundsAt f in
  let* img := NewRGBA bounds in
  if frame =? 0 then
    let* _ := drawFrame img f bounds in
    ret img
  else
    let* _ := forLoop g bounds (Z.to_nat (frame + 1)) 0 img in
    ret img.

(** The animation a heap animation stands for: every frame address
    resolved. *)
Definition resolves (h : heap) (g : GIF) (gp : gif.GIF) : Prop :=
  Forall2 (λ p f, paletted h !! p = Some f) (Image g) (gif.Image gp) ∧
  gif.Disposal gp = Disposal g.

(** The scenario of the specification, laid out in a heap that already
    holds an unrelated raster. *)
Definition scenarioHeap : heap :=
  mkHeap [Samples.dot x00; Samples.dot x01]
         [RGBA.mk [Samples.blue] Samples.unit].

Definition scenario : GIF := mk [0%nat; 1%nat; 0%nat] [x01; x02; x03].

End Store.

(** What one run leaves in the heap: the frames as they were, the rasters
    below [n] as they were, raster [n] holding [c]. *)
Definition leaves (h h' : Store.heap) (n : nat) (c : RGBA.t) : Prop :=
  Store.paletted h' = Store.paletted h ∧
  Store.rgba h' !! n = Some c ∧
  take n (Store.rgba h') = take n (Store.rgba h) ∧
  (length (Store.rgba h) <= length (Store.rgba h'))%nat.

(** A heap computation started in [h] follows a pure one: it panics when
    the pure one does, and otherwise leaves the pure result at [n]. *)
Definition follows {A : Type} (run : option (A * Store.heap))
    (pure : option RGBA.t) (h : Store.heap) (n : nat) : Prop :=
  match pure with
  | Some c' => ∃ a h', run = Some (a, h') ∧ leaves h h' n c'
  | None => run = None
  end.

(** ** Proof automation *)

(** Boolean comparisons on [Z] as propositions. *)
Ltac zbool :=
  rewrite ?andb_true_iff, ?orb_true_iff, ?negb_true_iff, ?andb_false_iff,
    ?orb_false_iff, ?Z.leb_le, ?Z.ltb_lt, ?Z.eqb_eq, ?Z.leb_gt, ?Z.ltb_ge,
    ?Z.eqb_neq in *.

(** Closed side conditions on the sample rasters. *)
Ltac concrete :=
  unfold canvas; repeat split;
  first [reflexivity | cbn; lia | vm_compute; congruence].

(** A colour a decoded GIF palette holds: opaque, or the zero colour of the
    transparent index. *)
Definition binary (c : color.RGBA.t) : bool :=
  color.RGBA.eqb c color.Transparent || Byte.eqb (color.RGBA.A c) xff.

Definition binaryPalette (f : Paletted.t) : bool :=
  forallb binary (Paletted.Palette f).

(** ** Package path/filepath, on Unix: one separator, no volume names *)

Module filepath.

Definition Separator : byte := "/"%byte.

Definition IsPathSeparator (c : byte) : bool := Byte.eqb c Separator.

(** The loop of [Ext],
    [for i := len(path)-1; i >= 0 && !IsPathSeparator(path[i]); i--],
    entered with [i = n - 1]. *)
Fixpoint extLoop (path : list byte) (n : nat) : list byte :=
  match n with
  | O => []
  | S i =>
      match path !! i with
      | Some c =>
          if IsPathSeparator c then []
          else if Byte.eqb c "."%byte then drop i path
          else extLoop path i
      | None => []
      end
  end.

Definition Ext (path : list byte) : list byte := extLoop path (length path).

(** The first loop of [Base],
    [for len(path) > 0 && IsPathSeparator(path[len(path)-1])], with
    [path] cut to its first [n] bytes. *)
Fixpoint stripLoop (path : list byte) (n : nat) : list byte :=
  match n with
  | O => []
  | S i =>
      match path !! i with
      | Some c => if IsPathSeparator c then stripLoop path i else take (S i) path
      | None => take (S i) path
      end
  end.

(** The second loop of [Base],
    [for i >= 0 && !IsPathSeparator(path[i]) { i-- }], entered with
    [i = n - 1], and the slice [path[i+1:]] taken when [i >= 0]. *)
Fixpoint lastLoop (path : list byte) (n : nat) : list byte :=
  match n with
  | O => path
  | S i =>
      match path !! i with
      | Some c => if IsPathSeparator c then drop (S i) path else lastLoop path i
      | None => path
      end
  end.

Definition VolumeName (path : list byte) : list byte := [].

Definition Base (path : list byte) : list byte :=
  if bool_decide (path = []) then ["."%byte]
  else
    let path := stripLoop path (length path) in
    let path := drop (length (VolumeName path)) path in
    let path := lastLoop path (length path) in
    if bool_decide (path = []) then [Separator] else path.

End filepath.

(** ** Package fmt: the verbs of main.go *)

Module fmt.

Fixpoint digits (d : Decimal.uint) : list byte :=
  match d with
  | Decimal.Nil => []
  | Decimal.D0 d => "0"%byte :: digits d
  | Decimal.D1 d => "1"%byte :: digits d
  | Decimal.D2 d => "2"%byte :: digits d
  | Decimal.D3 d => "3"%byte :: digits d
  | Decimal.D4 d => "4"%byte :: digits d
  | Decimal.D5 d => "5"%byte :: digits d
  | Decimal.D6 d => "6"%byte :: digits d
  | Decimal.D7 d => "7"%byte :: digits d
  | Decimal.D8 d => "8"%byte :: digits d
  | Decimal.D9 d => "9"%byte :: digits d
  end.

(** A non-negative integer in decimal. *)
Definition decimal (n : N) : list byte := digits (N.to_uint n).

(** The verb [%03d]: zeros up to width 3, the sign counted in the
    width. *)
Definition d03 (i : Z) : list byte :=
  let negative := i <? 0 in
  let ds := decimal (Z.abs_N i) in
  let prec := if negative then 2%nat else 3%nat in
  let padded := replicate (prec - length ds) "0"%byte ++ ds in
  if negative then "-"%byte :: padded else padded.

(** Reading decimal digits back. *)
Fixpoint undigits (l : list byte) : option Decimal.uint :=
  match l with
  | [] => Some Decimal.Nil
  | c :: l =>
      d ← undigits l;
      if Byte.eqb c "0" then Some (Decimal.D0 d)
      else if Byte.eqb c "1" then Some (Decimal.D1 d)
      else if Byte.eqb c "2" then Some (Decimal.D2 d)
      else if Byte.eqb c "3" then Some (Decimal.D3 d)
      else if Byte.eqb c "4" then Some (Decimal.D4 d)
      else if Byte.eqb c "5" then Some (Decimal.D5 d)
      else if Byte.eqb c "6" then Some (Decimal.D6 d)
      else if Byte.eqb c "7" then Some (Decimal.D7 d)
      else if Byte.eqb c "8" then Some (Decimal.D8 d)
      else if Byte.eqb c "9" then Some (Decimal.D9 d)
      else None
  end.

Definition atoi (l : list byte) : option N := N.of_uint <$> undigits l.

End fmt.

(** ** main.go: [main] *)

Inductive OutputFormat : Type := FormatPNG | FormatJPG.

(** The command line after [flag.Parse]. *)
Record Flags : Type := mkFlags {
  inputFile : list byte;
  outputDir : list byte;
  format : list byte;
  quality : Z
}.

Definition File : Type := nat.

(** The collaborators of [main]: the file system, the GIF decoder, the
    encoders and [filepath.Join], each a function of a world [W] it may
    change; [None] and [false] are a returned error. *)
Record Env (W : Type) : Type := mkEnv {
  os_Open : list byte → W → option File * W;
  gif_DecodeAll : File → W → option gif.GIF * W;
  os_MkdirAll : list byte → W → bool * W;
  filepath_Join : list byte → list byte → list byte;
  os_Create : list byte → W → option File * W;
  png_Encode : File → RGBA.t → W → bool * W;
  jpeg_Encode : File → RGBA.t → Z → W → bool * W;
  File_Close : File → W → W
}.

Arguments os_Open {W}.
Arguments gif_DecodeAll {W}.
Arguments os_MkdirAll {W}.
Arguments filepath_Join {W}.
Arguments os_Create {W}.
Arguments png_Encode {W}.
Arguments jpeg_Encode {W}.
Arguments File_Close {W}.

(** What [main] does to the outside, in order. *)
Inductive Event : Type :=
  | PrintUsage
  | FatalUnsupportedFormat (format : list byte)
  | FatalQuality
  | CallOpen (path : list byte) (ok : bool)
  | FatalOpen
  | CallDecodeAll (file : File) (ok : bool)
  | FatalDecode
  | CallMkdirAll (dir : list byte) (ok : bool)
  | FatalMkdir
  | CallCreate (path : list byte) (file : option File)
  | LogCreateError (name : list byte)
  | CallEncodePNG (file : File) (img : RGBA.t) (ok : bool)
  | CallEncodeJPEG (file : File) (img : RGBA.t) (quality : Z) (ok : bool)
  | LogEncodeError (i : Z)
  | CallCloseOutput (file : File)
  | PrintSaved (i : Z) (name : list byte)
  | PrintDone (n : Z)
  | CallCloseInput (file : File).

(** How the process ends: [main] returns, [log.Fatal] exits with status 1,
    or a panic unwinds. *)
Inductive Exit : Type := Returned | Exit1 | Panicked.

(** The [switch *format] of lines 97-104; [None] is the default branch. *)
Definition selectFormat (format : list byte) : option OutputFormat :=
  if bool_decide (format = ["j"; "p"; "g"]%byte) ||
     bool_decide (format = ["j"; "p"; "e"; "g"]%byte) then Some FormatJPG
  else if bool_decide (format = ["p"; "n"; "g"]%byte) then Some FormatPNG
  else None.

(** The slice expression [s[:hi]]. *)
Definition sliceTo (s : list byte) (hi : Z) : option (list byte) :=
  if (hi <? 0) || (Z.of_nat (length s) <? hi) then None
  else Some (take (Z.to_nat hi) s).

(** Lines 131-132. *)
Definition baseFileName (inputFile : list byte) : option (list byte) :=
  let baseFileName := filepath.Base inputFile in
  sliceTo baseFileName
    (Z.of_nat (length baseFileName) -
     Z.of_nat (length (filepath.Ext baseFileName))).

(** Lines 140-143. *)
Definition extOf (outputFormat : OutputFormat) : list byte :=
  match outputFormat with
  | FormatJPG => [".";"j";"p";"g"]%byte
  | FormatPNG => [".";"p";"n";"g"]%byte
  end.

(** [fmt.Sprintf("%s_frame_%03d%s", baseFileName, i, ext)] *)
Definition outFileName (baseFileName : list byte) (i : Z) (ext : list byte)
  : list byte :=
  baseFileName ++ ["_";"f";"r";"a";"m";"e";"_"]%byte ++ fmt.d03 i ++ ext.

(** One iteration of the loop of lines 135-170; [None] is a panic of
    [gifFrameToImage]. *)
Definition frameStep {W : Type} (E : Env W) (fl : Flags)
    (outputFormat : OutputFormat) (baseFileName : list byte)
    (gifImg : gif.GIF) (i : Z) (w : W) : option (W * list Event) :=
  frameImg ← gifFrameToImage gifImg i;
  let ext := extOf outputFormat in
  let outFileName := outFileName baseFileName i ext in
  let outPath := filepath_Join E (outputDir fl) outFileName in
  match os_Create E outPath w with
  | (None, w) =>
      Some (w, [CallCreate outPath None; LogCreateError outFileName])
  | (Some outFile, w) =>
      let '(ok, w, call) :=
        match outputFormat with
        | FormatPNG =>
            let '(ok, w) := png_Encode E outFile frameImg w in
            (ok, w, CallEncodePNG outFile frameImg ok)
        | FormatJPG =>
            let '(ok, w) := jpeg_Encode E outFile frameImg (quality fl) w in
            (ok, w, CallEncodeJPEG outFile frameImg (quality fl) ok)
        end in
      if ok then
        Some (File_Close E outFile w,
              [CallCreate outPath (Some outFile); call;
               CallCloseOutput outFile; PrintSaved i outFileName])
      else
        Some (File_Close E outFile w,
              [CallCreate outPath (Some outFile); call;
               LogEncodeError i; CallCloseOutput outFile])
  end.

(** [for i := ...; i < len(gifImg.Image); i++] with [n] iterations left;
    the flag tells whether the loop ran to its end. *)
Fixpoint frameLoop {W : Type} (E : Env W) (fl : Flags)
    (outputFormat : OutputFormat) (baseFileName : list byte)
    (gifImg : gif.GIF) (n : nat) (i : Z) (w : W) : bool * W * list Event :=
  match n with
  | O => (true, w, [])
  | S n' =>
      match frameStep E fl outputFormat baseFileName gifImg i w with
      | None => (false, w, [])
      | Some (w, evs) =>
          let '(done, w, rest) :=
            frameLoop E fl outputFormat baseFileName gifImg n' (i + 1) w in
          (done, w, evs ++ rest)
      end
  end.

(** [main] (lines 80-173), from the parsed flags. The deferred close of
    the input file runs when [main] returns or panics, not when
    [log.Fatal] exits. *)
Definition main {W : Type} (E : Env W) (fl : Flags) (w : W)
  : Exit * W * list Event :=
  if bool_decide (inputFile fl = []) || bool_decide (outputDir fl = []) then
    (Returned, w, [PrintUsage])
  else
    match selectFormat (format fl) with
    | None => (Exit1, w, [FatalUnsupportedFormat (format fl)])
    | Some outputFormat =>
        if match outputFormat with FormatJPG => true | FormatPNG => false end
           && ((quality fl <? 1) || (100 <? quality fl))
        then (Exit1, w, [FatalQuality])
        else
          match os_Open E (inputFile fl) w with
          | (None, w) => (Exit1, w, [CallOpen (inputFile fl) false; FatalOpen])
          | (Some file, w) =>
              let opened := [CallOpen (inputFile fl) true] in
              match gif_DecodeAll E file w with
              | (None, w) =>
                  (Exit1, w, opened ++ [CallDecodeAll file false; FatalDecode])
              | (Some gifImg, w) =>
                  let decoded := opened ++ [CallDecodeAll file true] in
                  match os_MkdirAll E (outputDir fl) w with
                  | (false, w) =>
                      (Exit1, w,
                       decoded ++ [CallMkdirAll (outputDir fl) false; FatalMkdir])
                  | (true, w) =>
                      let setup := decoded ++ [CallMkdirAll (outputDir fl) true] in
                      match baseFileName (inputFile fl) with
                      | None =>
                          (Panicked, File_Close E file w,
                           setup ++ [CallCloseInput file])
                      | Some baseFileName =>
                          let n := length (gif.Image gifImg) in
                          let '(done, w, evs) :=
                            frameLoop E fl outputFormat baseFileName gifImg n 0 w in
                          if done then
                            (Returned, File_Close E file w,
                             setup ++ evs ++
                             [PrintDone (Z.of_nat n); CallCloseInput file])
                          else
                            (Panicked, File_Close E file w,
                             setup ++ evs ++ [CallCloseInput file])
                      end
                  end
              end
          end
    end.

(** Every output file is closed before the next one is created and before
    the run ends, and an encoder only ever writes to the file that is
    open; [cur] is the output file open so far. *)
Fixpoint bracketed (cur : option File) (tr : list Event) : bool :=
  match tr with
  | [] => bool_decide (cur = None)
  | CallCreate _ (Some f) :: tr => bool_decide (cur = None) && bracketed (Some f) tr
  | CallEncodePNG f _ _ :: tr => bool_decide (cur = Some f) && bracketed cur tr
  | CallEncodeJPEG f _ _ _ :: tr => bool_decide (cur = Some f) && bracketed cur tr
  | CallCloseOutput f :: tr => bool_decide (cur = Some f) && bracketed None tr
  | _ :: tr => bracketed cur tr
  end.

(** The paths [os.Create] was called with, in order. *)
Definition createdPaths (tr : list Event) : list (list byte) :=
  omap (λ ev, match ev with CallCreate p _ => Some p | _ => None end) tr.

(** The frames reported as saved, as having failed to be created and as
    having failed to encode. *)
Definition savedFrames (tr : list Event) : list Z :=
  omap (λ ev, match ev with PrintSaved i _ => Some i | _ => None end) tr.

Definition createErrors (tr : list Event) : list (list byte) :=
  omap (λ ev, match ev with LogCreateError name => Some name | _ => None end) tr.

Definition encodeErrors (tr : list Event) : list Z :=
  omap (λ ev, match ev with LogEncodeError i => Some i | _ => None end) tr.

(** The rasters handed to an encoder, in order. *)
Definition encodedImages (tr : list Event) : list RGBA.t :=
  omap (λ ev, match ev with
              | CallEncodePNG _ img _ => Some img
              | CallEncodeJPEG _ img _ _ => Some img
              | _ => None
              end) tr.

(** The run gets past its setup: both paths are given, the format is
    known, a JPEG quality is in range, and the input opens and decodes to
    [gifImg] and the output directory can be made, leaving world [w']. *)
Definition setsUp {W : Type} (E : Env W) (fl : Flags) (w : W)
    (outputFormat : OutputFormat) (file : File) (gifImg : gif.GIF) (w' : W)
  : Prop :=
  inputFile fl ≠ [] ∧ outputDir fl ≠ [] ∧
  selectFormat (format fl) = Some outputFormat ∧
  (outputFormat = FormatJPG → 1 <= quality fl <= 100) ∧
  ∃ w1 w2,
    os_Open E (inputFile fl) w = (Some file, w1) ∧
    gif_DecodeAll E file w1 = (Some gifImg, w2) ∧
    os_MkdirAll E (outputDir fl) w2 = (true, w').

(** The events of the setup when it succeeds. *)
Definition setupEvents (fl : Flags) (file : File) : list Event :=
  [CallOpen (inputFile fl) true; CallDecodeAll file true;
   CallMkdirAll (outputDir fl) true].

(** The path [os.Create] is called with for frame [i]. *)
Definition outPath {W : Type} (E : Env W) (fl : Flags)
    (outputFormat : OutputFormat) (stem : list byte) (i : Z) : list byte :=
  filepath_Join E (outputDir fl) (outFileName stem i (extOf outputFormat)).

(** A world for trying [main]: a counter of [os.Create] calls; the second
    create fails, and so does the encoding into file 12. *)
Module Demo.

Definition env : Env nat :=
  mkEnv nat
    (λ _ w, (Some 3%nat, w))
    (λ _ w, (Some Samples.scenario, w))
    (λ _ w, (true, w))
    (λ d n, d ++ ["/"%byte] ++ n)
    (λ _ w, (if (w =? 1)%nat then None else Some (10 + w)%nat, S w))
    (λ f _ w, (negb (f =? 12)%nat, w))
    (λ f _ _ w, (negb (f =? 12)%nat, w))
    (λ _ w, w).

(** [-input a/b.gif -output out] with the default format and quality. *)
Definition flags : Flags :=
  mkFlags ["a";"/";"b";".";"g";"i";"f"]%byte ["o";"u";"t"]%byte
          ["p";"n";"g"]%byte 90.

(** The same with [-format jpg]. *)
Definition jpg : Flags :=
  mkFlags ["a";"/";"b";".";"g";"i";"f"]%byte ["o";"u";"t"]%byte
          ["j";"p";"g"]%byte 90.

(** The input opens and does not decode. *)
Definition undecodable : Env nat :=
  mkEnv nat
    (λ _ w, (Some 3%nat, w))
    (λ _ w, (None, w))
    (λ _ w, (true, w))
    (λ d n, d ++ ["/"%byte] ++ n)
    (λ _ w, (Some (10 + w)%nat, S w))
    (λ _ _ w, (true, w))
    (λ _ _ _ w, (true, w))
    (λ _ w, w).


End Demo.

(** One pixel through [n] iterations of the loop of lines 42-70, from
    index [i]: the colour at point [q] of a canvas that held [c] there. *)
Fixpoint pixelLoop (g : gif.GIF) (q : Point) (n : nat) (i : Z)
    (c : color.RGBA.t) : color.RGBA.t :=
  match n with
  | O => c
  | S n =>
      match index (gif.Image g) i with
      | Some fi => pixelLoop g q n (i + 1) (stepPixel (disposalAt g i) i fi q c)
      | None => c
      end
  end.

(** Frame [f1], drawn at index 1 with disposal code [d], leaves nothing
    of frame [f0] at point [q]: it clears the canvas first, or, with
    RestorePrevious, has the very colour of [f0] there, or, with any other
    code, is opaque there. *)
Definition hides (d : byte) (f0 f1 : Paletted.t) (q : Point) : Prop :=
  if Byte.eqb d disposalBackground then True
  else if Byte.eqb d disposalPrevious then colorAt f1 q = colorAt f0 q
  else color.RGBA.A (colorAt f1 q) = xff.

(** The per-frame reports of a run, in order: a frame saved, a file not
    created, a frame not encoded. *)
Definition reports (tr : list Event) : list Event :=
  omap (λ ev, match ev with
              | PrintSaved _ _ | LogCreateError _ | LogEncodeError _ => Some ev
              | _ => None
              end) tr.

(** [ev] is a report on frame [i]: by its index, or by its file name. *)
Definition reportsFrame (stem ext : list byte) (i : Z) (ev : Event) : Prop :=
  ev = PrintSaved i (outFileName stem i ext) ∨
  ev = LogCreateError (outFileName stem i ext) ∨
  ev = LogEncodeError i.

(** * Properties *)

(** ** The scenario of the specification *)

Example scenario_0 :
  gifFrameToImage Samples.scenario 0 = Some (RGBA.mk [Samples.red] Samples.unit).
Proof. vm_compute. reflexivity. Qed.

Example scenario_1 :
  gifFrameToImage Samples.scenario 1 = Some (RGBA.mk [Samples.blue] Samples.unit).
Proof. vm_compute. reflexivity. Qed.

Example scenario_2 :
  gifFrameToImage Samples.scenario 2 = Some (RGBA.mk [Samples.red] Samples.unit).
Proof. vm_compute. reflexivity. Qed.


(** ** Bytes and blending *)

Lemma uint32_range (b : byte) : 0 <= uint32 b < 256.
Proof.
  unfold uint32. pose proof (Byte.to_N_bounded b). lia.
Qed.

Lemma uint8_uint32 (b : byte) : uint8 (uint32 b) = b.
Proof.
  unfold uint8, uint32. pose proof (Byte.to_N_bounded b).
  rewrite Z.mod_small by lia. rewrite N2Z.id, Byte.of_to_N. reflexivity.
Qed.

Lemma widen_257 (b : byte) : color.RGBA.widen b = uint32 b * 257.
Proof. destruct b; reflexivity. Qed.

(** A channel drawn with full weight on the source. *)
Lemma channel_source (b : byte) :
  uint8 (Z.shiftr (wrap32 (0 + wrap32 (color.RGBA.widen b * draw.m)) / draw.m) 8) = b.
Proof. destruct b; vm_compute; reflexivity. Qed.

(** A channel drawn under a fully transparent source. *)
Lemma channel_kept (b : byte) :
  uint8 (Z.shiftr (wrap32 (wrap32 (uint32 b * 16842495) + 0) / draw.m) 8) = b.
Proof. destruct b; vm_compute; reflexivity. Qed.

Lemma pixelRGBA_over_empty (s : color.RGBA.t) :
  draw.pixelRGBA draw.Over color.Transparent s = s.
Proof.
  destruct s as [r g b a]. unfold draw.pixelRGBA, color.RGBA.RGBA, color.Transparent.
  cbn [color.RGBA.R color.RGBA.G color.RGBA.B color.RGBA.A].
  change (uint32 x00) with 0. rewrite Z.mul_0_l. change (wrap32 0) with 0.
  rewrite !channel_source. reflexivity.
Qed.

Lemma pixelRGBA_opaque (d s : color.RGBA.t) :
  color.RGBA.A s = xff → draw.pixelRGBA draw.Over d s = s.
Proof.
  destruct s as [r g b a]. cbn [color.RGBA.A]. intros ->.
  unfold draw.pixelRGBA, color.RGBA.RGBA.
  cbn [color.RGBA.R color.RGBA.G color.RGBA.B color.RGBA.A].
  change (wrap32 (wrap32 (draw.m - wrap32 (color.RGBA.widen xff * draw.m) / draw.m) * 257)) with 0.
  rewrite !Z.mul_0_r. change (wrap32 0) with 0.
  rewrite !channel_source. reflexivity.
Qed.

Lemma pixelRGBA_transparent (d : color.RGBA.t) :
  draw.pixelRGBA draw.Over d color.Transparent = d.
Proof.
  destruct d as [r g b a]. unfold draw.pixelRGBA, color.RGBA.RGBA, color.Transparent.
  cbn [color.RGBA.R color.RGBA.G color.RGBA.B color.RGBA.A].
  change (color.RGBA.widen x00) with 0.
  change (wrap32 (wrap32 (draw.m - wrap32 (0 * draw.m) / draw.m) * 257)) with 16842495.
  change (wrap32 (0 * draw.m)) with 0.
  rewrite !channel_kept. reflexivity.
Qed.

Lemma copy_channel_source (b : byte) :
  uint8 (Z.shiftr (wrap32 (0 + wrap32 (uint32 b * 257))) 8) = b.
Proof. destruct b; vm_compute; reflexivity. Qed.

Lemma copy_channel_kept (b : byte) :
  uint8 (Z.shiftr (wrap32 (wrap32 (uint32 b * 16842495) / draw.m + 0)) 8) = b.
Proof. destruct b; vm_compute; reflexivity. Qed.

Lemma pixelCopyOver_over_empty (s : color.RGBA.t) :
  draw.pixelCopyOver color.Transparent s = s.
Proof.
  destruct s as [r g b a]. unfold draw.pixelCopyOver, color.Transparent.
  cbn [color.RGBA.R color.RGBA.G color.RGBA.B color.RGBA.A].
  change (uint32 x00) with 0. rewrite Z.mul_0_l.
  change (wrap32 0 / draw.m) with 0.
  rewrite !copy_channel_source. reflexivity.
Qed.

Lemma pixelCopyOver_opaque (d s : color.RGBA.t) :
  color.RGBA.A s = xff → draw.pixelCopyOver d s = s.
Proof.
  destruct s as [r g b a]. cbn [color.RGBA.A]. intros ->.
  unfold draw.pixelCopyOver.
  cbn [color.RGBA.R color.RGBA.G color.RGBA.B color.RGBA.A].
  change (wrap32 (wrap32 (draw.m - wrap32 (uint32 xff * 257)) * 257)) with 0.
  rewrite !Z.mul_0_r. change (wrap32 0 / draw.m) with 0.
  rewrite !copy_channel_source. reflexivity.
Qed.

Lemma pixelCopyOver_transparent (d : color.RGBA.t) :
  draw.pixelCopyOver d color.Transparent = d.
Proof.
  destruct d as [r g b a]. unfold draw.pixelCopyOver, color.Transparent.
  cbn [color.RGBA.R color.RGBA.G color.RGBA.B color.RGBA.A].
  change (wrap32 (uint32 x00 * 257)) with 0.
  change (wrap32 (wrap32 (draw.m - 0) * 257)) with 16842495.
  rewrite !copy_channel_kept. reflexivity.
Qed.

(** ** Rectangles *)

Lemma PtIn_spec (q : Point) (r : Rectangle) :
  PtIn q r = true ↔
  X (Min r) <= X q < X (Max r) ∧ Y (Min r) <= Y q < Y (Max r).
Proof. unfold PtIn. zbool. lia. Qed.

Lemma PtIn_Intersect (q : Point) (r s : Rectangle) :
  PtIn q (Intersect r s) = PtIn q r && PtIn q s.
Proof.
  apply Bool.eq_iff_eq_true. rewrite andb_true_iff, !PtIn_spec.
  unfold Intersect, Empty.
  destruct r as [[rx0 ry0] [rx1 ry1]], s as [[sx0 sy0] [sx1 sy1]], q as [x y].
  cbn [X Y Min Max].
  repeat case_match; cbn [X Y Min Max ZR ZP]; zbool; lia.
Qed.

Lemma PtIn_Empty (q : Point) (r : Rectangle) :
  Empty r = true → PtIn q r = false.
Proof.
  unfold Empty. intros H. apply Bool.not_true_is_false.
  rewrite PtIn_spec. zbool. lia.
Qed.

Lemma PtIn_RectAdd (q p : Point) (r : Rectangle) :
  PtIn q (RectAdd r p) = PtIn (PtSub q p) r.
Proof.
  apply Bool.eq_iff_eq_true. rewrite !PtIn_spec.
  unfold RectAdd, PtAdd, PtSub. cbn [X Y Min Max]. lia.
Qed.

(** What [clip] computes: the points kept, and the source point of each. *)
Lemma clip_spec (dst : RGBA.t) (r : Rectangle) (src : Image) (sp : Point) :
  ∀ q,
    PtIn q (draw.clip dst r src sp).1 =
      PtIn q r && PtIn q (RGBA.Rect dst) &&
      PtIn (draw.srcPoint r sp q) (Bounds src) ∧
    draw.srcPoint (draw.clip dst r src sp).1 (draw.clip dst r src sp).2 q =
      draw.srcPoint r sp q.
Proof.
  intros q. unfold draw.clip.
  set (r' := Intersect (Intersect r (RGBA.Bounds dst)) _).
  assert (Hin : PtIn q r' = PtIn q r && PtIn q (RGBA.Rect dst) &&
                 PtIn (draw.srcPoint r sp q) (Bounds src)).
  { unfold r'. rewrite !PtIn_Intersect, PtIn_RectAdd. do 2 f_equal.
    unfold draw.srcPoint, PtSub. destruct q, sp, r as [[] ?]. cbn [X Y Min Max].
    f_equal; lia. }
  case_match eqn:Hd; cbn [fst snd]; split; try exact Hin.
  - zbool. unfold draw.srcPoint. f_equal; lia.
  - unfold draw.srcPoint. cbn [X Y]. f_equal; lia.
Qed.

Lemma elem_of_rectPoints (q : Point) (r : Rectangle) :
  q ∈ rectPoints r → PtIn q r = true.
Proof.
  unfold rectPoints. rewrite list_elem_of_bind. intros (y & Hq & Hy).
  apply list_elem_of_bind in Hq as (x & Hq & Hx).
  apply list_elem_of_singleton in Hq as ->.
  apply elem_of_seqZ in Hx, Hy. rewrite PtIn_spec. unfold Dx, Dy in *.
  cbn [X Y]. lia.
Qed.

Lemma rectPoints_complete (q : Point) (r : Rectangle) :
  PtIn q r = true → q ∈ rectPoints r.
Proof.
  rewrite PtIn_spec. intros H. unfold rectPoints.
  apply list_elem_of_bind. exists (Y q). split.
  - apply list_elem_of_bind. exists (X q). split.
    + destruct q. cbn. apply list_elem_of_singleton. reflexivity.
    + apply elem_of_seqZ. unfold Dx. lia.
  - apply elem_of_seqZ. unfold Dy. lia.
Qed.

(** ** Canvases *)

Lemma pointAt_in (r : Rectangle) (k : Z) :
  0 <= Dx r → 0 <= Dy r → 0 <= k < Dx r * Dy r →
  PtIn (RGBA.pointAt r k) r = true.
Proof.
  intros Hx Hy Hk. assert (0 < Dx r) by nia.
  rewrite PtIn_spec. unfold RGBA.pointAt. cbn [X Y].
  pose proof (Z.mod_pos_bound k (Dx r) ltac:(lia)).
  assert (0 <= k / Dx r) by (apply Z.div_pos; lia).
  assert (k / Dx r < Dy r) by (apply Z.div_lt_upper_bound; lia).
  unfold Dx, Dy in *. lia.
Qed.

Lemma pointAt_PixOffset (img : RGBA.t) (q : Point) :
  PtIn q (RGBA.Rect img) = true →
  RGBA.pointAt (RGBA.Rect img) (RGBA.PixOffset img (X q) (Y q)) = q.
Proof.
  rewrite PtIn_spec. intros H. unfold RGBA.pointAt, RGBA.PixOffset.
  set (w := Dx (RGBA.Rect img)).
  assert (Hw : 0 <= X q - X (Min (RGBA.Rect img)) < w) by (unfold w, Dx; lia).
  set (k := (Y q - Y (Min (RGBA.Rect img))) * w + (X q - X (Min (RGBA.Rect img)))).
  assert (Hm : k mod w = X q - X (Min (RGBA.Rect img))).
  { symmetry. apply (Z.mod_unique _ _ (Y q - Y (Min (RGBA.Rect img)))); lia. }
  assert (Hd : k / w = Y q - Y (Min (RGBA.Rect img))).
  { symmetry. apply (Z.div_unique _ _ _ (X q - X (Min (RGBA.Rect img)))); lia. }
  rewrite Hm, Hd. destruct q. cbn [X Y]. f_equal; lia.
Qed.

Lemma PixOffset_range (bounds : Rectangle) (img : RGBA.t) (q : Point) :
  canvas bounds img → PtIn q bounds = true →
  (Z.to_nat (RGBA.PixOffset img (X q) (Y q)) < length (RGBA.Pix img))%nat.
Proof.
  intros (HR & Hx & Hy & Hlen). rewrite PtIn_spec. intros H.
  unfold RGBA.PixOffset. rewrite HR. unfold Dx, Dy in *.
  apply Nat2Z.inj_lt. rewrite Z2Nat.id by nia. nia.
Qed.

Lemma canvas_lookup_in (bounds : Rectangle) (img : RGBA.t) (k : nat) (c : color.RGBA.t) :
  canvas bounds img → RGBA.Pix img !! k = Some c →
  PtIn (RGBA.pointAt (RGBA.Rect img) (Z.of_nat k)) bounds = true.
Proof.
  intros (HR & Hx & Hy & Hlen) Hk. apply lookup_lt_Some in Hk.
  rewrite HR. apply pointAt_in; lia.
Qed.

Lemma canvas_NewRGBA (bounds : Rectangle) (img : RGBA.t) :
  NewRGBA bounds = Some img → canvas bounds img.
Proof.
  unfold NewRGBA. case_match eqn:Hneg; [done|]. intros [= <-].
  zbool. destruct Hneg. unfold canvas. cbn [RGBA.Rect RGBA.Pix].
  rewrite length_replicate, Z2Nat.id by nia. repeat split; lia.
Qed.

Lemma NewRGBA_is_Some (bounds : Rectangle) :
  0 <= Dx bounds → 0 <= Dy bounds → is_Some (NewRGBA bounds).
Proof.
  intros Hx Hy. unfold NewRGBA.
  replace ((Dx bounds <? 0) || (Dy bounds <? 0)) with false; [eauto|].
  symmetry. zbool. lia.
Qed.

Lemma canvas_pointwise (bounds : Rectangle) (img : RGBA.t) F :
  canvas bounds img → canvas bounds (pointwise F img).
Proof.
  unfold canvas, pointwise. cbn. rewrite length_imap. done.
Qed.

(** Two pixel functions that agree on the canvas rewrite it alike. *)
Lemma pointwise_ext (bounds : Rectangle) (img : RGBA.t) F G :
  canvas bounds img →
  (∀ q old, PtIn q bounds = true → F q old = G q old) →
  pointwise F img = pointwise G img.
Proof.
  intros Hc H. unfold pointwise. f_equal. apply imap_ext.
  intros k c Hk. cbn. apply H. eapply canvas_lookup_in; eauto.
Qed.

Lemma pointwise_id (img : RGBA.t) F :
  (∀ k old, RGBA.Pix img !! k = Some old →
            F (RGBA.pointAt (RGBA.Rect img) (Z.of_nat k)) old = old) →
  pointwise F img = img.
Proof.
  intros H. destruct img as [pix r]. unfold pointwise. cbn in *. f_equal.
  apply list_eq. intros k. rewrite list_lookup_imap.
  destruct (pix !! k) eqn:Hk; cbn; [|done]. f_equal. auto.
Qed.

Lemma pointwise_compose (img : RGBA.t) F G :
  pointwise G (pointwise F img) = pointwise (λ q old, G q (F q old)) img.
Proof.
  unfold pointwise. cbn. f_equal. apply list_eq. intros k.
  rewrite !list_lookup_imap. destruct (RGBA.Pix img !! k); done.
Qed.

(** Clearing every pixel gives the canvas [image.NewRGBA] allocates. *)
Lemma pointwise_clear (bounds : Rectangle) (img : RGBA.t) :
  canvas bounds img →
  Some (pointwise (λ _ _, color.Transparent) img) = NewRGBA bounds.
Proof.
  intros (HR & Hx & Hy & Hlen). unfold NewRGBA, pointwise.
  replace ((Dx bounds <? 0) || (Dy bounds <? 0)) with false
    by (symmetry; zbool; lia).
  rewrite HR. do 2 f_equal. apply list_eq. intros k.
  rewrite list_lookup_imap. rewrite <- Hlen, Nat2Z.id.
  destruct (RGBA.Pix img !! k) eqn:Hk; cbn.
  - apply lookup_lt_Some in Hk. symmetry. apply lookup_replicate_2. lia.
  - apply lookup_ge_None in Hk. symmetry. apply lookup_replicate_None. lia.
Qed.

(** Reading a rewritten canvas. *)
Lemma RGBAAt_pointwise (bounds : Rectangle) (img : RGBA.t) F (q : Point) :
  canvas bounds img →
  RGBA.RGBAAt (pointwise F img) q =
    if PtIn q bounds then F q (RGBA.RGBAAt img q) else color.Transparent.
Proof.
  intros Hc. pose proof Hc as (HR & Hx & _).
  unfold RGBA.RGBAAt. cbn [pointwise RGBA.Rect RGBA.Pix].
  change (RGBA.PixOffset (pointwise F img) (X q) (Y q))
    with (RGBA.PixOffset img (X q) (Y q)).
  destruct (PtIn q bounds) eqn:Hq; rewrite HR at 1; rewrite Hq; cbn [negb];
    [|done].
  replace (PtIn q (RGBA.Rect img)) with true by (rewrite HR; done).
  cbn [negb]. rewrite list_lookup_imap.
  pose proof (PixOffset_range _ _ _ Hc Hq) as Hlt.
  apply lookup_lt_is_Some_2 in Hlt as [c Hc'].
  rewrite Hc'. cbn [fmap option_fmap option_map default].
  rewrite Z2Nat.id.
  - rewrite pointAt_PixOffset by (rewrite HR; done). done.
  - apply PtIn_spec in Hq. unfold RGBA.PixOffset.
    rewrite HR. unfold Dx in *. nia.
Qed.

Lemma RGBAAt_lookup (bounds : Rectangle) (img : RGBA.t) (k : nat) (c : color.RGBA.t) :
  canvas bounds img → RGBA.Pix img !! k = Some c →
  RGBA.RGBAAt img (RGBA.pointAt (RGBA.Rect img) (Z.of_nat k)) = c.
Proof.
  intros Hc Hk. pose proof (canvas_lookup_in _ _ _ _ Hc Hk) as Hin.
  destruct Hc as (HR & Hx & Hy & Hlen).
  unfold RGBA.RGBAAt. rewrite <- HR in Hin at 1. rewrite Hin. cbn [negb].
  unfold RGBA.PixOffset, RGBA.pointAt. cbn [X Y].
  apply lookup_lt_Some in Hk as Hlt.
  replace (Z.to_nat _) with k; [rewrite Hk; done|].
  apply Nat2Z.inj. rewrite Z2Nat.id.
  - pose proof (Z.div_mod (Z.of_nat k) (Dx (RGBA.Rect img))).
    assert (Dx (RGBA.Rect img) ≠ 0) by (rewrite HR; nia). lia.
  - assert (0 < Dx (RGBA.Rect img)) by (rewrite HR; nia).
    pose proof (Z.mod_pos_bound (Z.of_nat k) (Dx (RGBA.Rect img)) ltac:(lia)).
    assert (0 <= Z.of_nat k / Dx (RGBA.Rect img)) by (apply Z.div_pos; lia).
    nia.
Qed.

(** ** Drawing *)

Lemma srcPoint_Min (r : Rectangle) (q : Point) :
  draw.srcPoint r (Min r) q = q.
Proof. unfold draw.srcPoint. destruct q. cbn [X Y]. f_equal; lia. Qed.

Lemma mapRect_pointwise (dst : RGBA.t) (r : Rectangle) f :
  draw.mapRect dst r f =
    pointwise (λ q old, if PtIn q r then f q old else old) dst.
Proof. reflexivity. Qed.

Lemma mapRect_Empty (dst : RGBA.t) (r : Rectangle) f :
  Empty r = true → draw.mapRect dst r f = dst.
Proof.
  intros He.
  change (pointwise (λ q old, if PtIn q r then f q old else old) dst = dst).
  apply pointwise_id. intros k old _. rewrite PtIn_Empty by done. done.
Qed.

Lemma Draw_unfold (dst : RGBA.t) (r : Rectangle) (src : Image) (sp : Point)
    (op : draw.Op) :
  draw.Draw dst r src sp op =
    let r' := (draw.clip dst r src sp).1 in
    let sp' := (draw.clip dst r src sp).2 in
    if Empty r' then Some dst
    else
      match src, op with
      | OfUniform u, draw.Over =>
          let c := color.RGBA.RGBA (Uniform.C u) in
          if c.2 =? 65535 then Some (draw.drawFillSrc dst r' c)
          else Some (draw.drawFillOver dst r' c)
      | OfUniform u, draw.Src =>
          Some (draw.drawFillSrc dst r' (color.RGBA.RGBA (Uniform.C u)))
      | OfRGBA s, draw.Over => Some (draw.drawCopyOver dst r' s sp')
      | OfRGBA s, draw.Src => Some (draw.drawCopySrc dst r' s sp')
      | OfPaletted p, _ => draw.drawRGBA dst r' p sp' op
      end.
Proof. unfold draw.Draw. destruct (draw.clip dst r src sp). reflexivity. Qed.

(** The clear of line 53 leaves the canvas as [image.NewRGBA] makes it. *)
Lemma Draw_clear (bounds : Rectangle) (img : RGBA.t) :
  canvas bounds img →
  Dx bounds <= 1000000000 → Dy bounds <= 1000000000 →
  draw.Draw img bounds (OfUniform image.Transparent) ZP draw.Src =
    NewRGBA bounds.
Proof.
  intros Hc Hx Hy. rewrite <- (pointwise_clear _ _ Hc), Draw_unfold. cbn zeta.
  set (r' := (draw.clip img bounds (OfUniform image.Transparent) ZP).1).
  assert (Hr' : ∀ q, PtIn q bounds = true → PtIn q r' = true).
  { intros q Hq. unfold r'.
    rewrite (proj1 (clip_spec img bounds (OfUniform image.Transparent) ZP q)).
    destruct Hc as (-> & _). rewrite Hq. cbn [andb].
    apply PtIn_spec in Hq. apply PtIn_spec.
    unfold draw.srcPoint, Dx, Dy in *. cbn. lia. }
  transitivity (Some (draw.mapRect img r' (λ _ _, color.Transparent))).
  - destruct (Empty r') eqn:He; [|done]. rewrite mapRect_Empty; done.
  - f_equal. rewrite mapRect_pointwise. apply (pointwise_ext bounds); [done|].
    intros q old Hq. rewrite Hr'; done.
Qed.

(** Drawing one canvas over another of the same bounds (lines 59, 63). *)
Lemma Draw_canvas_over (bounds : Rectangle) (img s : RGBA.t) :
  canvas bounds img → canvas bounds s →
  draw.Draw img bounds (OfRGBA s) (Min bounds) draw.Over =
    Some (pointwise (λ q old, draw.pixelCopyOver old (RGBA.RGBAAt s q)) img).
Proof.
  intros Hc Hs. rewrite Draw_unfold. cbn zeta.
  set (r' := (draw.clip img bounds (OfRGBA s) (Min bounds)).1).
  set (sp' := (draw.clip img bounds (OfRGBA s) (Min bounds)).2).
  assert (Hr' : ∀ q, PtIn q bounds = true →
            PtIn q r' = true ∧ draw.srcPoint r' sp' q = q).
  { intros q Hq. unfold r', sp'.
    destruct (clip_spec img bounds (OfRGBA s) (Min bounds) q) as [-> ->].
    rewrite srcPoint_Min. destruct Hc as (-> & _), Hs as (Hs & _).
    cbn [Bounds]. unfold RGBA.Bounds. rewrite Hs, Hq. done. }
  transitivity (Some (draw.drawCopyOver img r' s sp')).
  - destruct (Empty r') eqn:He; [|done].
    unfold draw.drawCopyOver. rewrite mapRect_Empty; done.
  - f_equal. unfold draw.drawCopyOver. rewrite mapRect_pointwise.
    apply (pointwise_ext bounds); [done|].
    intros q old Hq. destruct (Hr' q Hq) as [-> ->]. done.
Qed.

Lemma wellFormed_At (f : Paletted.t) (q : Point) :
  wellFormed f = true → PtIn q (Paletted.Rect f) = true →
  is_Some (Paletted.RGBA64At f q).
Proof.
  unfold wellFormed. rewrite !andb_true_iff. intros (_ & Hall) Hq.
  rewrite forallb_forall in Hall.
  apply rectPoints_complete, list_elem_of_In, Hall in Hq.
  by apply bool_decide_eq_true in Hq.
Qed.

Lemma wellFormed_size (f : Paletted.t) :
  wellFormed f = true →
  0 <= Dx (Paletted.Rect f) <= 65535 ∧ 0 <= Dy (Paletted.Rect f) <= 65535.
Proof. unfold wellFormed. zbool. lia. Qed.

(** What [drawFrame] does to a canvas when it does not panic. *)
Lemma drawFrame_Some (bounds : Rectangle) (img img' : RGBA.t) (f : Paletted.t) :
  canvas bounds img →
  drawFrame img f bounds = Some img' →
  img' = pointwise (overFrame f) img.
Proof.
  intros Hc. unfold drawFrame. rewrite Draw_unfold. cbn zeta.
  set (r' := (draw.clip img bounds (OfPaletted f) (Min bounds)).1).
  set (sp' := (draw.clip img bounds (OfPaletted f) (Min bounds)).2).
  assert (Hr' : ∀ q, PtIn q bounds = true →
            PtIn q r' = PtIn q (Paletted.Rect f) ∧ draw.srcPoint r' sp' q = q).
  { intros q Hq. unfold r', sp'.
    destruct (clip_spec img bounds (OfPaletted f) (Min bounds) q) as [-> ->].
    rewrite srcPoint_Min. destruct Hc as (-> & _). rewrite Hq. done. }
  assert (Heq : draw.mapRect img r' (λ q old,
                  draw.pixelRGBA draw.Over old
                    (default color.Transparent (Paletted.RGBA64At f (draw.srcPoint r' sp' q))))
                = pointwise (overFrame f) img).
  { rewrite mapRect_pointwise. apply (pointwise_ext bounds); [done|].
    intros q old Hq. destruct (Hr' q Hq) as [-> ->]. done. }
  destruct (Empty r') eqn:He.
  - intros [= <-]. rewrite <- Heq, mapRect_Empty; done.
  - unfold draw.drawRGBA. case_match; [|done]. intros [= <-]. done.
Qed.

(** A well-formed frame never makes [drawFrame] panic. *)
Lemma drawFrame_wellFormed (bounds : Rectangle) (img : RGBA.t) (f : Paletted.t) :
  canvas bounds img → wellFormed f = true →
  drawFrame img f bounds = Some (pointwise (overFrame f) img).
Proof.
  intros Hc Hf. destruct (drawFrame img f bounds) as [img'|] eqn:Hd.
  { f_equal. eapply drawFrame_Some; eauto. }
  exfalso. revert Hd. unfold drawFrame. rewrite Draw_unfold. cbn zeta.
  set (r' := (draw.clip img bounds (OfPaletted f) (Min bounds)).1).
  set (sp' := (draw.clip img bounds (OfPaletted f) (Min bounds)).2).
  destruct (Empty r'); [done|]. unfold draw.drawRGBA.
  case_match eqn:Hall; [done|]. intros _.
  apply Bool.not_true_iff_false in Hall. apply Hall.
  apply forallb_forall. intros q Hq%list_elem_of_In%elem_of_rectPoints.
  apply bool_decide_eq_true. unfold r', sp' in *.
  destruct (clip_spec img bounds (OfPaletted f) (Min bounds) q) as [Hin ->].
  rewrite srcPoint_Min in *. rewrite Hq in Hin. symmetry in Hin.
  apply andb_true_iff in Hin as [_ Hin]. by apply wellFormed_At.
Qed.

(** ** The loop body *)

Lemma index_Some {A : Type} (l : list A) (i : Z) (x : A) :
  index l i = Some x ↔ 0 <= i ∧ l !! Z.to_nat i = Some x.
Proof.
  unfold index. destruct (Z.ltb_spec i 0); split.
  - done.
  - lia.
  - auto.
  - tauto.
Qed.

(** The snapshot of line 59 is a full copy of the canvas. *)
Lemma snapshot_copy (bounds : Rectangle) (img : RGBA.t) :
  canvas bounds img →
  (temp ← NewRGBA bounds;
   draw.Draw temp bounds (OfRGBA img) (Min bounds) draw.Over) = Some img.
Proof.
  intros Hc. pose proof Hc as (HR & Hx & Hy & Hlen).
  destruct (NewRGBA_is_Some bounds Hx Hy) as [temp Ht]. rewrite Ht. cbn.
  pose proof (canvas_NewRGBA _ _ Ht) as Hct.
  rewrite (Draw_canvas_over bounds) by done. f_equal.
  unfold NewRGBA in Ht. case_match; [done|]. injection Ht as <-.
  destruct img as [pix r]. unfold pointwise. cbn [RGBA.Pix RGBA.Rect] in *.
  subst r. f_equal. apply list_eq. intros k. rewrite list_lookup_imap.
  destruct (pix !! k) as [c|] eqn:Hk.
  - apply lookup_lt_Some in Hk as Hlt.
    rewrite lookup_replicate_2 by lia. cbn. f_equal.
    rewrite pixelCopyOver_over_empty.
    apply (RGBAAt_lookup bounds (RGBA.mk pix bounds)); done.
  - apply lookup_ge_None in Hk.
    rewrite (proj1 (lookup_replicate_None _ _ _)) by lia. done.
Qed.

Lemma eqb_neq (c d : byte) : c ≠ d → Byte.eqb c d = false.
Proof.
  intros Hne. destruct (Byte.eqb c d) eqn:E; [|done].
  apply Byte.byte_dec_bl in E. done.
Qed.

Lemma pointwise_ext_lookup (img : RGBA.t) F G :
  (∀ k old, RGBA.Pix img !! k = Some old →
     F (RGBA.pointAt (RGBA.Rect img) (Z.of_nat k)) old =
     G (RGBA.pointAt (RGBA.Rect img) (Z.of_nat k)) old) →
  pointwise F img = pointwise G img.
Proof. intros H. unfold pointwise. f_equal. apply imap_ext. exact H. Qed.

Lemma loopBody_plain (g : gif.GIF) (bounds : Rectangle) (i : Z) (img : RGBA.t) :
  disposalAt g i ≠ disposalBackground →
  disposalAt g i ≠ disposalPrevious ∨ i <= 0 →
  loopBody g bounds i img =
    (fi ← index (gif.Image g) i; drawFrame img fi bounds).
Proof.
  intros Hb Hp. unfold loopBody. cbn zeta.
  rewrite (eqb_neq _ _ Hb).
  destruct (Byte.eqb (disposalAt g i) disposalNone); [done|].
  destruct (Byte.eqb (disposalAt g i) disposalPrevious) eqn:E; [|done].
  apply Byte.byte_dec_bl in E. destruct Hp as [Hp|Hp]; [done|].
  replace (0 <? i) with false by (symmetry; zbool; lia). done.
Qed.

Lemma loopBody_background (g : gif.GIF) (bounds : Rectangle) (i : Z)
    (img : RGBA.t) :
  canvas bounds img →
  Dx bounds <= 1000000000 → Dy bounds <= 1000000000 →
  disposalAt g i = disposalBackground →
  loopBody g bounds i img =
    (fi ← index (gif.Image g) i;
     fresh ← NewRGBA bounds;
     drawFrame fresh fi bounds).
Proof.
  intros Hc Hx Hy Hd. unfold loopBody. cbn zeta. rewrite Hd.
  change (Byte.eqb disposalBackground disposalNone) with false.
  change (Byte.eqb disposalBackground disposalBackground) with true.
  cbv iota. rewrite Draw_clear by done.
  destruct (NewRGBA bounds), (index (gif.Image g) i); done.
Qed.

Lemma loopBody_previous (g : gif.GIF) (bounds : Rectangle) (i : Z)
    (img : RGBA.t) :
  canvas bounds img →
  disposalAt g i = disposalPrevious → 0 < i →
  loopBody g bounds i img =
    (fi ← index (gif.Image g) i;
     drawn ← drawFrame img fi bounds;
     draw.Draw drawn bounds (OfRGBA img) (Min bounds) draw.Over).
Proof.
  intros Hc Hd Hi. unfold loopBody. cbn zeta. rewrite Hd.
  change (Byte.eqb disposalPrevious disposalNone) with false.
  change (Byte.eqb disposalPrevious disposalBackground) with false.
  change (Byte.eqb disposalPrevious disposalPrevious) with true.
  cbv iota. replace (0 <? i) with true by (symmetry; zbool; lia).
  pose proof (snapshot_copy _ _ Hc) as Hs.
  destruct (NewRGBA bounds) as [temp|]; [cbn in *|done].
  rewrite Hs. done.
Qed.

(** The loop body, pixel by pixel. *)
Lemma loopBody_Some (g : gif.GIF) (bounds : Rectangle) (i : Z)
    (img img' : RGBA.t) (fi : Paletted.t) :
  canvas bounds img →
  Dx bounds <= 1000000000 → Dy bounds <= 1000000000 →
  index (gif.Image g) i = Some fi →
  loopBody g bounds i img = Some img' →
  img' = pointwise (stepPixel (disposalAt g i) i fi) img.
Proof.
  intros Hc Hx Hy Hfi. unfold stepPixel.
  destruct (Byte.eqb (disposalAt g i) disposalBackground) eqn:Eb.
  { apply Byte.byte_dec_bl in Eb. rewrite loopBody_background, Hfi by done.
    rewrite Eb. cbn. rewrite <- (pointwise_clear _ _ Hc). cbn.
    intros H. eapply drawFrame_Some in H; [|by apply canvas_pointwise].
    rewrite H, pointwise_compose. done. }
  destruct (Byte.eqb (disposalAt g i) disposalPrevious) eqn:Ep.
  { apply Byte.byte_dec_bl in Ep. rewrite Ep. cbn.
    destruct (Z.ltb_spec 0 i).
    - rewrite loopBody_previous, Hfi by done. cbn.
      destruct (drawFrame img fi bounds) as [drawn|] eqn:Hd; [cbn|done].
      apply (drawFrame_Some bounds) in Hd; [|done]. subst drawn.
      rewrite (Draw_canvas_over bounds) by (done || by apply canvas_pointwise).
      intros [= <-]. rewrite pointwise_compose.
      apply pointwise_ext_lookup. intros k old Hk.
      rewrite (RGBAAt_lookup bounds img k old); done.
    - rewrite loopBody_plain, Hfi; [cbn| by rewrite Ep | right; lia].
      by apply drawFrame_Some. }
  apply Byte.eqb_false in Eb, Ep.
  rewrite loopBody_plain, Hfi; [cbn| done | by left].
  intros H. apply (drawFrame_Some bounds) in H; [|done]. subst img'.
  destruct (Byte.eqb (disposalAt g i) disposalNone); done.
Qed.

Lemma loopBody_wellFormed (g : gif.GIF) (bounds : Rectangle) (i : Z)
    (img : RGBA.t) (fi : Paletted.t) :
  canvas bounds img →
  Dx bounds <= 1000000000 → Dy bounds <= 1000000000 →
  index (gif.Image g) i = Some fi →
  wellFormed fi = true →
  loopBody g bounds i img =
    Some (pointwise (stepPixel (disposalAt g i) i fi) img).
Proof.
  intros Hc Hx Hy Hfi Hwf.
  destruct (loopBody g bounds i img) as [img'|] eqn:Hl.
  { f_equal. eapply loopBody_Some; eauto. }
  exfalso. revert Hl.
  destruct (Byte.eqb (disposalAt g i) disposalBackground) eqn:Eb.
  { apply Byte.byte_dec_bl in Eb. rewrite loopBody_background, Hfi by done.
    cbn. rewrite <- (pointwise_clear _ _ Hc). cbn.
    rewrite (drawFrame_wellFormed bounds); [done| |done].
    by apply canvas_pointwise. }
  destruct (Byte.eqb (disposalAt g i) disposalPrevious) eqn:Ep.
  { apply Byte.byte_dec_bl in Ep. destruct (Z.ltb_spec 0 i).
    - rewrite loopBody_previous, Hfi by done. cbn.
      rewrite (drawFrame_wellFormed bounds) by done. cbn.
      rewrite (Draw_canvas_over bounds) by (done || by apply canvas_pointwise).
      done.
    - rewrite loopBody_plain, Hfi; [cbn| by rewrite Ep | right; lia].
      rewrite (drawFrame_wellFormed bounds) by done. done. }
  apply Byte.eqb_false in Eb, Ep.
  rewrite loopBody_plain, Hfi; [cbn| done | by left].
  rewrite (drawFrame_wellFormed bounds) by done. done.
Qed.

(** Drawing never changes the shape of the destination. *)
Lemma Draw_shape (dst dst' : RGBA.t) (r : Rectangle) (src : Image)
    (sp : Point) (op : draw.Op) :
  draw.Draw dst r src sp op = Some dst' →
  RGBA.Rect dst' = RGBA.Rect dst ∧
  length (RGBA.Pix dst') = length (RGBA.Pix dst).
Proof.
  rewrite Draw_unfold. cbn zeta.
  destruct (Empty _); [by intros [= <-]|].
  destruct src as [p|s|u], op; unfold draw.drawRGBA, draw.drawCopyOver,
    draw.drawCopySrc, draw.drawFillSrc, draw.drawFillOver;
    repeat case_match; try done; intros [= <-];
    unfold draw.mapRect; cbn [RGBA.Rect RGBA.Pix]; by rewrite length_imap.
Qed.

Lemma canvas_Draw (bounds : Rectangle) (dst dst' : RGBA.t) (r : Rectangle)
    (src : Image) (sp : Point) (op : draw.Op) :
  canvas bounds dst → draw.Draw dst r src sp op = Some dst' →
  canvas bounds dst'.
Proof.
  intros (HR & Hx & Hy & Hlen) [HR' Hlen']%Draw_shape.
  unfold canvas. rewrite HR', Hlen'. done.
Qed.

Lemma loopBody_canvas (g : gif.GIF) (bounds : Rectangle) (i : Z)
    (img img' : RGBA.t) :
  canvas bounds img →
  loopBody g bounds i img = Some img' → canvas bounds img'.
Proof.
  intros Hc. unfold loopBody, drawFrame. cbn zeta.
  repeat case_match; intros Hfin; simplify_option_eq;
    eauto using canvas_Draw.
Qed.

(** ** The loop *)

Lemma forLoop_ext (g g' : gif.GIF) (bounds : Rectangle) (n : nat) :
  ∀ (i : Z) (img : RGBA.t),
    (∀ j c, i <= j < i + Z.of_nat n →
            loopBody g bounds j c = loopBody g' bounds j c) →
    forLoop g bounds n i img = forLoop g' bounds n i img.
Proof.
  induction n as [|n IH]; intros i img H; [done|].
  cbn [forLoop]. rewrite H by lia.
  destruct (loopBody g' bounds i img) as [img'|]; [cbn|done].
  apply IH. intros j c Hj. apply H. lia.
Qed.

Lemma forLoop_S (g : gif.GIF) (bounds : Rectangle) (n : nat) (i : Z)
    (img : RGBA.t) :
  forLoop g bounds (S n) i img =
    (img' ← loopBody g bounds i img; forLoop g bounds n (i + 1) img').
Proof. reflexivity. Qed.

Lemma forLoop_snoc (g : gif.GIF) (bounds : Rectangle) (n : nat) :
  ∀ (i : Z) (img : RGBA.t),
    forLoop g bounds (S n) i img =
      (img' ← forLoop g bounds n i img;
       loopBody g bounds (i + Z.of_nat n) img').
Proof.
  induction n as [|n IH]; intros i img.
  - cbn. rewrite Z.add_0_r. destruct (loopBody g bounds i img); done.
  - rewrite forLoop_S, (forLoop_S g bounds n i img).
    destruct (loopBody g bounds i img) as [img'|]; [|done].
    change (forLoop g bounds (S n) (i + 1) img' =
            (c ← forLoop g bounds n (i + 1) img';
             loopBody g bounds (i + Z.of_nat (S n)) c)).
    rewrite IH. replace (i + 1 + Z.of_nat n) with (i + Z.of_nat (S n)) by lia.
    done.
Qed.

Lemma forLoop_canvas (g : gif.GIF) (bounds : Rectangle) (n : nat) :
  ∀ (i : Z) (img img' : RGBA.t),
    canvas bounds img →
    forLoop g bounds n i img = Some img' → canvas bounds img'.
Proof.
  induction n as [|n IH]; intros i img img' Hc.
  - cbn. by intros [= <-].
  - cbn [forLoop]. destruct (loopBody g bounds i img) as [c|] eqn:Hl; [cbn|done].
    apply IH. eapply loopBody_canvas; eauto.
Qed.

(** Well-formed frames never make the loop panic. *)
Lemma forLoop_wellFormed (g : gif.GIF) (bounds : Rectangle) (n : nat) :
  ∀ (i : Z) (img : RGBA.t),
    canvas bounds img →
    Dx bounds <= 1000000000 → Dy bounds <= 1000000000 →
    (∀ j, i <= j < i + Z.of_nat n →
          ∃ fj, index (gif.Image g) j = Some fj ∧ wellFormed fj = true) →
    is_Some (forLoop g bounds n i img).
Proof.
  induction n as [|n IH]; intros i img Hc Hx Hy H; [by eexists|].
  cbn [forLoop]. destruct (H i ltac:(lia)) as (fi & Hfi & Hwf).
  rewrite (loopBody_wellFormed _ _ _ _ _ Hc Hx Hy Hfi Hwf). cbn.
  apply IH; try done.
  - by apply canvas_pointwise.
  - intros j Hj. apply H. lia.
Qed.

Lemma disposalAt_lookup (g : gif.GIF) (i : Z) :
  0 <= i → disposalAt g i = default x00 (gif.Disposal g !! Z.to_nat i).
Proof.
  intros Hi. unfold disposalAt. destruct (Z.ltb_spec i (Z.of_nat (length (gif.Disposal g)))); [done|].
  rewrite lookup_ge_None_2 by lia. done.
Qed.

Lemma loopBody_agree (g g' : gif.GIF) (bounds : Rectangle) (i : Z) (img : RGBA.t) :
  0 <= i →
  gif.Image g !! Z.to_nat i = gif.Image g' !! Z.to_nat i →
  gif.Disposal g !! Z.to_nat i = gif.Disposal g' !! Z.to_nat i →
  loopBody g bounds i img = loopBody g' bounds i img.
Proof.
  intros Hi Hf Hd. unfold loopBody, index.
  rewrite !disposalAt_lookup, Hf, Hd by done. done.
Qed.

(** The composite, given the target frame, for a positive index. *)
Lemma gifFrameToImage_pos (g : gif.GIF) (k : Z) :
  0 < k →
  gifFrameToImage g k =
    (f ← index (gif.Image g) k;
     img ← NewRGBA (Paletted.Bounds f);
     forLoop g (Paletted.Bounds f) (Z.to_nat (k + 1)) 0 img).
Proof.
  intros Hk. unfold gifFrameToImage.
  replace (k =? 0) with false by (symmetry; zbool; lia). done.
Qed.

Lemma RGBAAt_NewRGBA (bounds : Rectangle) (img : RGBA.t) (q : Point) :
  NewRGBA bounds = Some img → RGBA.RGBAAt img q = color.Transparent.
Proof.
  unfold NewRGBA. case_match; [done|]. intros [= <-].
  unfold RGBA.RGBAAt. cbn [RGBA.Pix RGBA.Rect]. case_match; [done|].
  destruct (replicate _ _ !! _) as [c|] eqn:Hc; [|done].
  apply lookup_replicate in Hc as [-> _]. done.
Qed.

Lemma overFrame_empty (f : Paletted.t) (q : Point) :
  overFrame f q color.Transparent =
    if PtIn q (Paletted.Rect f) then colorAt f q else color.Transparent.
Proof. unfold overFrame. rewrite pixelRGBA_over_empty. done. Qed.

(** ** Frame 0 *)

(** C3. Compositing at target index 0 is frame 0 drawn alone, source-over,
    onto a freshly allocated empty transparent canvas of frame 0's own
    bounds. The disposal list plays no part: any other list gives the same
    raster. For a well-formed frame the raster holds, at every point of the
    frame's bounds, the frame's own colour. *)
Theorem first_frame_drawn_alone (g : gif.GIF) (f0 : Paletted.t) :
  gif.Image g !! 0%nat = Some f0 →
  gifFrameToImage g 0 =
    (img ← NewRGBA (Paletted.Bounds f0);
     drawFrame img f0 (Paletted.Bounds f0))
  ∧ (∀ d, gifFrameToImage (gif.mk (gif.Image g) d) 0 = gifFrameToImage g 0)
  ∧ (wellFormed f0 = true →
     ∃ img, gifFrameToImage g 0 = Some img ∧
            RGBA.Rect img = Paletted.Bounds f0 ∧
            ∀ q, PtIn q (Paletted.Bounds f0) = true →
                 RGBA.RGBAAt img q = colorAt f0 q).
Proof.
  intros H0.
  assert (Hg : ∀ d, gifFrameToImage (gif.mk (gif.Image g) d) 0 =
                 (img ← NewRGBA (Paletted.Bounds f0);
                  drawFrame img f0 (Paletted.Bounds f0))).
  { intros d. unfold gifFrameToImage, index.
    change (0 <? 0) with false. change (Z.to_nat 0) with 0%nat.
    cbn [gif.Image]. rewrite H0. done. }
  assert (Hg0 : gifFrameToImage g 0 =
                 (img ← NewRGBA (Paletted.Bounds f0);
                  drawFrame img f0 (Paletted.Bounds f0))).
  { destruct g as [fs ds]. apply (Hg ds). }
  split; [done|]. split.
  - intros d. rewrite Hg, Hg0. done.
  - intros Hwf. rewrite Hg0. pose proof (wellFormed_size _ Hwf) as [Hx Hy].
    destruct (NewRGBA_is_Some (Paletted.Bounds f0)) as [fresh Hfresh];
      [unfold Paletted.Bounds; lia..|].
    rewrite Hfresh. cbn. pose proof (canvas_NewRGBA _ _ Hfresh) as Hc.
    rewrite (drawFrame_wellFormed _ _ _ Hc Hwf).
    eexists. split; [done|]. split; [apply Hc|].
    intros q Hq. rewrite (RGBAAt_pointwise _ _ _ _ Hc), Hq.
    rewrite (RGBAAt_NewRGBA _ _ _ Hfresh), overFrame_empty.
    unfold Paletted.Bounds in Hq. rewrite Hq. done.
Qed.

Lemma first_frame_drawn_alone_witness :
  gif.Image Samples.scenario !! 0%nat = Some (Samples.dot x00) ∧
  wellFormed (Samples.dot x00) = true ∧
  ∃ img, gifFrameToImage Samples.scenario 0 = Some img ∧
         RGBA.Rect img = Samples.unit ∧
         ∀ q, PtIn q Samples.unit = true →
              RGBA.RGBAAt img q = colorAt (Samples.dot x00) q.
Proof.
  split; [reflexivity|]. split; [reflexivity|].
  exact (proj2 (proj2 (first_frame_drawn_alone Samples.scenario (Samples.dot x00)
                         eq_refl)) eq_refl).
Defined.

(** ** Independence of later frames *)

(** Animations that agree up to index [k] have the same composite at
    [k]. *)
Lemma gifFrameToImage_agree (g g' : gif.GIF) (k : Z) :
  take (Z.to_nat (k + 1)) (gif.Image g) = take (Z.to_nat (k + 1)) (gif.Image g') →
  take (Z.to_nat (k + 1)) (gif.Disposal g) =
    take (Z.to_nat (k + 1)) (gif.Disposal g') →
  gifFrameToImage g k = gifFrameToImage g' k.
Proof.
  intros Hf Hd.
  assert (Hlook : ∀ j, 0 <= j <= k →
            gif.Image g !! Z.to_nat j = gif.Image g' !! Z.to_nat j ∧
            gif.Disposal g !! Z.to_nat j = gif.Disposal g' !! Z.to_nat j).
  { intros j Hj. split.
    - rewrite <- (lookup_take_lt (gif.Image g) (Z.to_nat (k + 1))) by lia.
      rewrite <- (lookup_take_lt (gif.Image g') (Z.to_nat (k + 1))) by lia.
      by rewrite Hf.
    - rewrite <- (lookup_take_lt (gif.Disposal g) (Z.to_nat (k + 1))) by lia.
      rewrite <- (lookup_take_lt (gif.Disposal g') (Z.to_nat (k + 1))) by lia.
      by rewrite Hd. }
  unfold gifFrameToImage, index.
  destruct (Z.ltb_spec k 0); [done|].
  rewrite <- (proj1 (Hlook k ltac:(lia))).
  destruct (gif.Image g !! Z.to_nat k) as [f|]; [cbn|done].
  destruct (NewRGBA (Paletted.Bounds f)) as [img|]; [cbn|done].
  destruct (k =? 0); [done|].
  apply forLoop_ext. intros j c Hj.
  destruct (Hlook j ltac:(lia)). apply loopBody_agree; [lia|done..].
Qed.

(** C8. The composite at index [k] depends only on frames and disposal
    entries [0..k]: two animations that agree on their first [k+1] frames
    and first [k+1] disposal entries have the same composite at [k]. In
    particular, appending frames, and disposal codes that land at indices
    above [k], leaves the composite at a valid index [k] as it was. *)
Theorem composite_depends_on_prefix (g g' : gif.GIF) (k : Z) :
  take (Z.to_nat (k + 1)) (gif.Image g) = take (Z.to_nat (k + 1)) (gif.Image g') →
  take (Z.to_nat (k + 1)) (gif.Disposal g) =
    take (Z.to_nat (k + 1)) (gif.Disposal g') →
  gifFrameToImage g k = gifFrameToImage g' k
  ∧ ∀ moreFrames moreCodes,
      0 <= k < Z.of_nat (length (gif.Image g)) →
      k < Z.of_nat (length (gif.Disposal g)) ∨ moreCodes = [] →
      gifFrameToImage (gif.mk (gif.Image g ++ moreFrames)
                              (gif.Disposal g ++ moreCodes)) k =
        gifFrameToImage g k.
Proof.
  intros Hf Hd. split; [by apply gifFrameToImage_agree|].
  intros moreFrames moreCodes Hk Hcodes. apply gifFrameToImage_agree.
  - cbn [gif.Image]. rewrite take_app_le by lia. done.
  - cbn [gif.Disposal]. destruct Hcodes as [Hlt| ->].
    + rewrite take_app_le by lia. done.
    + by rewrite app_nil_r.
Qed.

Lemma composite_depends_on_prefix_witness :
  take 2 (gif.Image Samples.scenario) = take 2 (gif.Image Samples.scenario') ∧
  take 2 (gif.Disposal Samples.scenario) =
    take 2 (gif.Disposal Samples.scenario') ∧
  gifFrameToImage Samples.scenario 1 = gifFrameToImage Samples.scenario' 1.
Proof.
  split; [reflexivity|]. split; [reflexivity|].
  exact (proj1 (composite_depends_on_prefix Samples.scenario Samples.scenario' 1
                  eq_refl eq_refl)).
Defined.

(** ** The disposal codes, one iteration at a time *)





(** ** Missing disposal entries *)

Lemma wellFormed_lookup (g : gif.GIF) (j : Z) :
  forallb wellFormed (gif.Image g) = true →
  0 <= j < Z.of_nat (length (gif.Image g)) →
  ∃ fj, index (gif.Image g) j = Some fj ∧ wellFormed fj = true.
Proof.
  intros Hall Hj. rewrite forallb_forall in Hall.
  destruct (lookup_lt_is_Some_2 (gif.Image g) (Z.to_nat j) ltac:(lia)) as [fj Hfj].
  exists fj. split.
  - apply index_Some. split; [lia|done].
  - apply Hall, list_elem_of_In, list_elem_of_lookup. eauto.
Qed.

(** Well-formed frames and a valid index: the compositor returns a raster. *)
Lemma gifFrameToImage_wellFormed (g : gif.GIF) (k : Z) :
  forallb wellFormed (gif.Image g) = true →
  0 <= k < Z.of_nat (length (gif.Image g)) →
  ∃ f img, index (gif.Image g) k = Some f ∧
           gifFrameToImage g k = Some img ∧
           canvas (Paletted.Bounds f) img.
Proof.
  intros Hall Hk. destruct (wellFormed_lookup g k Hall Hk) as (f & Hf & Hwf).
  exists f. pose proof (wellFormed_size _ Hwf) as [Hx Hy].
  destruct (NewRGBA_is_Some (Paletted.Bounds f)) as [fresh Hfresh];
    [unfold Paletted.Bounds; lia..|].
  pose proof (canvas_NewRGBA _ _ Hfresh) as Hc.
  unfold gifFrameToImage. rewrite Hf. cbn. rewrite Hfresh. cbn.
  destruct (k =? 0).
  - rewrite (drawFrame_wellFormed _ _ _ Hc Hwf). eexists. split; [done|].
    split; [done|]. by apply canvas_pointwise.
  - destruct (forLoop_wellFormed g (Paletted.Bounds f) (Z.to_nat (k + 1)) 0 fresh)
      as [img Himg]; try done; try (unfold Paletted.Bounds; lia).
    + intros j Hj. apply wellFormed_lookup; [done|lia].
    + exists img. split; [done|]. split; [done|].
      eapply forLoop_canvas; eauto.
Qed.

(** C6. With a disposal list no longer than the frame list (the empty list
    included) and well-formed frames, compositing any valid index returns a
    raster: the lookup is bounds-checked, an index past the end of the list
    reads as code 0, which draws frame [i] and leaves it, and the composite
    is the one obtained with the list padded with code None. *)
Theorem short_disposal_list_defaults (g : gif.GIF) (k : Z) :
  forallb wellFormed (gif.Image g) = true →
  0 <= k < Z.of_nat (length (gif.Image g)) →
  (length (gif.Disposal g) <= length (gif.Image g))%nat →
  is_Some (gifFrameToImage g k)
  ∧ gifFrameToImage g k = gifFrameToImage (padDisposal g) k
  ∧ ∀ i bounds img,
      Z.of_nat (length (gif.Disposal g)) <= i →
      disposalAt g i = x00 ∧
      loopBody g bounds i img =
        (fi ← index (gif.Image g) i; drawFrame img fi bounds).
Proof.
  intros Hall Hk Hlen.
  assert (Hpast : ∀ i bounds img,
            Z.of_nat (length (gif.Disposal g)) <= i →
            disposalAt g i = x00 ∧
            loopBody g bounds i img =
              (fi ← index (gif.Image g) i; drawFrame img fi bounds)).
  { intros i bounds img Hi.
    assert (Hd : disposalAt g i = x00).
    { unfold disposalAt.
      replace (i <? Z.of_nat (length (gif.Disposal g))) with false
        by (symmetry; zbool; lia). done. }
    split; [done|]. apply loopBody_plain; rewrite Hd; [done | by left]. }
  split; [|split; [|done]].
  - destruct (gifFrameToImage_wellFormed g k Hall Hk) as (f & img & _ & -> & _).
    by eexists.
  - unfold gifFrameToImage. change (gif.Image (padDisposal g)) with (gif.Image g).
    destruct (index (gif.Image g) k) as [f|]; [cbn|done].
    destruct (NewRGBA (Paletted.Bounds f)) as [c0|]; [cbn|done].
    destruct (k =? 0); [done|].
    apply forLoop_ext. intros j c Hj.
    destruct (Z.ltb_spec j (Z.of_nat (length (gif.Disposal g)))) as [Hlt|Hge].
    + apply loopBody_agree; [lia|done|]. unfold padDisposal. cbn [gif.Disposal].
      rewrite lookup_app_l by lia. done.
    + rewrite (proj2 (Hpast j (Paletted.Bounds f) c Hge)).
      assert (Hd : disposalAt (padDisposal g) j = disposalNone).
      { rewrite disposalAt_lookup by lia. unfold padDisposal. cbn [gif.Disposal].
        rewrite lookup_app_r by lia. rewrite lookup_replicate_2 by lia. done. }
      rewrite loopBody_plain; [done|..]; rewrite Hd; [done | by left].
Qed.

Lemma short_disposal_list_defaults_witness :
  gifFrameToImage Samples.short 1 = Some Samples.redCanvas ∧
  gifFrameToImage Samples.short 1 =
    gifFrameToImage (padDisposal Samples.short) 1.
Proof.
  split; [reflexivity|].
  refine (proj1 (proj2 (short_disposal_list_defaults Samples.short 1 _ _ _)));
    concrete.
Defined.

(** ** RestoreBackground across two frames *)

Lemma two_frames_loop (g : gif.GIF) (f0 f1 : Paletted.t) (fresh : RGBA.t) :
  gif.Image g = [f0; f1] →
  wellFormed f0 = true → wellFormed f1 = true →
  NewRGBA (Paletted.Bounds f1) = Some fresh →
  gifFrameToImage g 1 =
    loopBody g (Paletted.Bounds f1) 1
      (pointwise (stepPixel (disposalAt g 0) 0 f0) fresh).
Proof.
  intros Hg H0 H1 Hfresh. rewrite gifFrameToImage_pos by lia.
  rewrite Hg. change (index [f0; f1] 1) with (Some f1). cbn [mbind option_bind].
  rewrite Hfresh. cbn [mbind option_bind].
  change (Z.to_nat (1 + 1)) with 2%nat. rewrite forLoop_snoc.
  change (forLoop g (Paletted.Bounds f1) 1 0 fresh)
    with (img' ← loopBody g (Paletted.Bounds f1) 0 fresh; Some img').
  pose proof (wellFormed_size _ H1) as [Hx Hy].
  rewrite (loopBody_wellFormed g _ 0 fresh f0);
    [done | by apply canvas_NewRGBA | unfold Paletted.Bounds; lia..
    | by rewrite Hg | done].
Qed.

(** C1, as stated, fails: frame 0 is opaque red with code
    RestoreBackground, frame 1 is a transparent pixel; the composite at
    index 1 is still red, while frame 1 drawn alone is transparent. *)
Lemma background_on_frame0_counterexample :
  gif.Image Samples.stale = [Samples.dot x00; Samples.dot x02] ∧
  fullyOpaque (Samples.dot x00) = true ∧
  disposalAt Samples.stale 0 = disposalBackground ∧
  gifFrameToImage Samples.stale 1 = Some Samples.redCanvas ∧
  (fresh ← NewRGBA (Paletted.Bounds (Samples.dot x02));
   drawFrame fresh (Samples.dot x02) (Paletted.Bounds (Samples.dot x02))) =
    Some (RGBA.mk [Samples.clear] Samples.unit) ∧
  gifFrameToImage Samples.stale 1 ≠
    (fresh ← NewRGBA (Paletted.Bounds (Samples.dot x02));
     drawFrame fresh (Samples.dot x02) (Paletted.Bounds (Samples.dot x02))).
Proof.
  cbn zeta. repeat split; try (vm_compute; reflexivity).
  vm_compute. discriminate.
Qed.

(** ** RestorePrevious across three frames *)

Lemma three_frames_loop (g : gif.GIF) (f0 f1 f2 : Paletted.t) (fresh : RGBA.t) :
  gif.Image g = [f0; f1; f2] →
  wellFormed f0 = true → wellFormed f1 = true → wellFormed f2 = true →
  NewRGBA (Paletted.Bounds f2) = Some fresh →
  gifFrameToImage g 2 =
    Some (pointwise (stepPixel (disposalAt g 2) 2 f2)
           (pointwise (stepPixel (disposalAt g 1) 1 f1)
             (pointwise (stepPixel (disposalAt g 0) 0 f0) fresh))).
Proof.
  intros Hg H0 H1 H2 Hfresh. rewrite gifFrameToImage_pos by lia.
  rewrite Hg. change (index [f0; f1; f2] 2) with (Some f2).
  cbn [mbind option_bind]. rewrite Hfresh. cbn [mbind option_bind].
  change (Z.to_nat (2 + 1)) with 3%nat.
  pose proof (wellFormed_size _ H2) as [Hx Hy].
  pose proof (canvas_NewRGBA _ _ Hfresh) as Hc.
  rewrite forLoop_S.
  rewrite (loopBody_wellFormed g _ 0 fresh f0);
    [| done | unfold Paletted.Bounds; lia.. | by rewrite Hg | done].
  cbn [mbind option_bind]. rewrite forLoop_S.
  rewrite (loopBody_wellFormed g _ (0 + 1) _ f1);
    [| by apply canvas_pointwise | unfold Paletted.Bounds; lia..
     | by rewrite Hg | done].
  cbn [mbind option_bind]. rewrite forLoop_S.
  rewrite (loopBody_wellFormed g _ (0 + 1 + 1) _ f2);
    [| by do 2 apply canvas_pointwise | unfold Paletted.Bounds; lia..
     | by rewrite Hg | done].
  done.
Qed.

Lemma stepPixel_first (d : byte) (f : Paletted.t) (q : Point) :
  stepPixel d 0 f q color.Transparent = overFrame f q color.Transparent.
Proof.
  unfold stepPixel. change (0 <? 0) with false. repeat case_match; done.
Qed.

(** An opaque pixel survives an iteration that is not a RestoreBackground
    one and whose frame is transparent there, and any RestorePrevious
    iteration past index 0. *)
Lemma stepPixel_opaque_kept (d : byte) (i : Z) (f : Paletted.t) (q : Point)
    (old : color.RGBA.t) :
  color.RGBA.A old = xff →
  d ≠ disposalBackground →
  (d = disposalPrevious ∧ 0 < i) ∨
  (PtIn q (Paletted.Rect f) = true → colorAt f q = color.Transparent) →
  stepPixel d i f q old = old.
Proof.
  intros Ha Hb Hcase. unfold stepPixel. rewrite (eqb_neq _ _ Hb).
  assert (Hthru : (PtIn q (Paletted.Rect f) = true → colorAt f q = color.Transparent) →
                  overFrame f q old = old).
  { intros Ht. unfold overFrame. destruct (PtIn q (Paletted.Rect f)); [|done].
    rewrite Ht by done. apply pixelRGBA_transparent. }
  destruct Hcase as [[-> Hi]|Ht].
  - change (Byte.eqb disposalPrevious disposalNone) with false.
    change (Byte.eqb disposalPrevious disposalPrevious) with true.
    replace (0 <? i) with true by (symmetry; zbool; lia).
    by apply pixelCopyOver_opaque.
  - repeat case_match; auto; rewrite (Hthru Ht); by apply pixelCopyOver_opaque.
Qed.

(** X24. In a 3-frame animation whose frame 1 has disposal code
    RestorePrevious and whose frame 2 does not have code RestoreBackground,
    the composite at index 2 shows frame 0's pixel at every point where
    frame 0 is opaque and frame 2 is transparent. *)
Theorem restore_previous_keeps_opaque_frame0 (g : gif.GIF)
    (f0 f1 f2 : Paletted.t) :
  gif.Image g = [f0; f1; f2] →
  wellFormed f0 = true → wellFormed f1 = true → wellFormed f2 = true →
  disposalAt g 1 = disposalPrevious →
  disposalAt g 2 ≠ disposalBackground →
  ∃ img, gifFrameToImage g 2 = Some img ∧
    ∀ q, PtIn q (Paletted.Bounds f2) = true →
         PtIn q (Paletted.Rect f0) = true →
         color.RGBA.A (colorAt f0 q) = xff →
         colorAt f2 q = color.Transparent →
         RGBA.RGBAAt img q = colorAt f0 q.
Proof.
  intros Hg H0 H1 H2 Hd1 Hd2. pose proof (wellFormed_size _ H2) as [Hx Hy].
  destruct (NewRGBA_is_Some (Paletted.Bounds f2)) as [fresh Hfresh];
    [unfold Paletted.Bounds; lia..|].
  pose proof (canvas_NewRGBA _ _ Hfresh) as Hc.
  rewrite (three_frames_loop g f0 f1 f2 fresh) by done.
  eexists. split; [done|]. intros q Hq Hq0 Ha Ht.
  rewrite (RGBAAt_pointwise (Paletted.Bounds f2))
    by (by do 2 apply canvas_pointwise).
  rewrite (RGBAAt_pointwise (Paletted.Bounds f2)) by (by apply canvas_pointwise).
  rewrite (RGBAAt_pointwise (Paletted.Bounds f2)) by done.
  rewrite Hq, (RGBAAt_NewRGBA _ _ _ Hfresh), stepPixel_first, overFrame_empty, Hq0.
  rewrite Hd1.
  rewrite (stepPixel_opaque_kept disposalPrevious 1); [|done|done|left; split; [done|lia]].
  apply stepPixel_opaque_kept; [done|done|]. right. done.
Qed.

Lemma restore_previous_keeps_opaque_frame0_witness :
  ∃ img, gifFrameToImage Samples.leak 2 = Some img ∧
    ∀ q, PtIn q (image.Rect 0 0 2 1) = true →
         PtIn q (image.Rect 0 0 2 1) = true →
         color.RGBA.A (colorAt (Samples.strip x02 x00) q) = xff →
         colorAt (Samples.strip x02 x02) q = color.Transparent →
         RGBA.RGBAAt img q = colorAt (Samples.strip x02 x00) q.
Proof.
  refine (restore_previous_keeps_opaque_frame0 Samples.leak
            (Samples.strip x02 x00) (Samples.strip x01 x02)
            (Samples.strip x02 x02) eq_refl eq_refl eq_refl eq_refl eq_refl _).
  discriminate.
Defined.

(** C2. The code where the claim fails. Frame 0 is (clear, red), frame 1
    is (blue, clear) with code RestorePrevious, frame 2 is transparent
    throughout. At (0,0) frame 2 is transparent and frame 1 does not cover
    the whole region, yet the composite at index 2 shows frame 1's blue
    there, not frame 0's pixel: line 63 puts the snapshot back with
    [draw.Over], which leaves the canvas as frame 1 drew it wherever the
    snapshot is transparent, under the comment that the previous state is
    restored. *)
Lemma restore_previous_leak_counterexample :
  gif.Image Samples.leak =
    [Samples.strip x02 x00; Samples.strip x01 x02; Samples.strip x02 x02] ∧
  disposalAt Samples.leak 1 = disposalPrevious ∧
  colorAt (Samples.strip x02 x02) (mkPoint 0 0) = color.Transparent ∧
  colorAt (Samples.strip x01 x02) (mkPoint 1 0) = color.Transparent ∧
  gifFrameToImage Samples.leak 2 =
    Some (RGBA.mk [Samples.blue; Samples.red] (image.Rect 0 0 2 1)) ∧
  ∃ img, gifFrameToImage Samples.leak 2 = Some img ∧
         RGBA.RGBAAt img (mkPoint 0 0) =
           colorAt (Samples.strip x01 x02) (mkPoint 0 0) ∧
         RGBA.RGBAAt img (mkPoint 0 0) ≠
           colorAt (Samples.strip x02 x00) (mkPoint 0 0).
Proof.
  repeat split; try (vm_compute; reflexivity).
  eexists. split; [vm_compute; reflexivity|].
  split; [vm_compute; reflexivity|]. vm_compute. discriminate.
Qed.

(** ** Canvases of GIF palettes hold no partial alpha *)

Lemma RGBA_eqb_eq (c d : color.RGBA.t) : color.RGBA.eqb c d = true ↔ c = d.
Proof.
  destruct c as [r g b a], d as [r' g' b' a']. unfold color.RGBA.eqb.
  cbn [color.RGBA.R color.RGBA.G color.RGBA.B color.RGBA.A].
  rewrite !andb_true_iff. split.
  - intros [[[Hr Hg] Hb] Ha]. apply Byte.byte_dec_bl in Hr, Hg, Hb, Ha.
    congruence.
  - intros [= -> -> -> ->]. rewrite !Byte.byte_dec_lb; done.
Qed.

Lemma binary_spec (c : color.RGBA.t) :
  binary c = true ↔ c = color.Transparent ∨ color.RGBA.A c = xff.
Proof.
  unfold binary. rewrite orb_true_iff, RGBA_eqb_eq. split.
  - intros [?|H]; [by left|right]. by apply Byte.byte_dec_bl.
  - intros [?|H]; [by left|right]. by apply Byte.byte_dec_lb.
Qed.

Lemma index_elem_of {A : Type} (l : list A) (i : Z) (x : A) :
  index l i = Some x → x ∈ l.
Proof. intros [_ H]%index_Some. eapply list_elem_of_lookup_2. done. Qed.

Lemma colorAt_binary (f : Paletted.t) (q : Point) :
  binaryPalette f = true → binary (colorAt f q) = true.
Proof.
  unfold binaryPalette. rewrite forallb_forall. intros Hall.
  unfold colorAt, Paletted.RGBA64At.
  destruct (Paletted.Palette f) as [|c0 pal] eqn:Hpal; [done|].
  destruct (negb (PtIn q (Paletted.Rect f))).
  - apply Hall. cbn. by left.
  - destruct (index (Paletted.Pix f) _) as [i|]; [cbn|done].
    destruct (index (c0 :: pal) (uint32 i)) as [c|] eqn:Hc; [cbn|done].
    apply Hall, list_elem_of_In. by eapply index_elem_of.
Qed.

Lemma overFrame_binary (f : Paletted.t) (q : Point) (old : color.RGBA.t) :
  binaryPalette f = true → binary old = true →
  binary (overFrame f q old) = true.
Proof.
  intros Hf Hold. unfold overFrame. destruct (PtIn q (Paletted.Rect f)); [|done].
  pose proof (colorAt_binary f q Hf) as Hc.
  destruct (proj1 (binary_spec _) Hc) as [->|Ha].
  - by rewrite pixelRGBA_transparent.
  - by rewrite pixelRGBA_opaque.
Qed.

Lemma stepPixel_binary (d : byte) (i : Z) (f : Paletted.t) (q : Point)
    (old : color.RGBA.t) :
  binaryPalette f = true → binary old = true →
  binary (stepPixel d i f q old) = true.
Proof.
  intros Hf Hold. unfold stepPixel.
  repeat case_match; try (by apply overFrame_binary).
  destruct (proj1 (binary_spec _) Hold) as [->|Ha].
  - rewrite pixelCopyOver_transparent. by apply overFrame_binary.
  - by rewrite pixelCopyOver_opaque.
Qed.

Lemma pointwise_binary (img : RGBA.t) F :
  (∀ q old, binary old = true → binary (F q old) = true) →
  Forall (λ c, binary c = true) (RGBA.Pix img) →
  Forall (λ c, binary c = true) (RGBA.Pix (pointwise F img)).
Proof.
  intros HF Hall. apply Forall_lookup. intros k c. cbn [pointwise RGBA.Pix].
  rewrite list_lookup_imap. destruct (RGBA.Pix img !! k) as [old|] eqn:Hk; [|done].
  intros [= <-]. apply HF. exact (Forall_lookup_1 _ _ _ _ Hall Hk).
Qed.

Lemma loopBody_index (g : gif.GIF) (bounds : Rectangle) (i : Z)
    (img img' : RGBA.t) :
  loopBody g bounds i img = Some img' → is_Some (index (gif.Image g) i).
Proof.
  unfold loopBody. cbn zeta.
  destruct (index (gif.Image g) i); [by eexists|].
  repeat case_match; intros; simplify_option_eq.
Qed.

Lemma forLoop_binary (g : gif.GIF) (bounds : Rectangle) (n : nat) :
  ∀ (i : Z) (img img' : RGBA.t),
    canvas bounds img →
    Dx bounds <= 1000000000 → Dy bounds <= 1000000000 →
    forallb binaryPalette (gif.Image g) = true →
    Forall (λ c, binary c = true) (RGBA.Pix img) →
    forLoop g bounds n i img = Some img' →
    Forall (λ c, binary c = true) (RGBA.Pix img').
Proof.
  induction n as [|n IH]; intros i img img' Hc Hx Hy Hpal Hall.
  - cbn. by intros [= <-].
  - rewrite forLoop_S.
    destruct (loopBody g bounds i img) as [c1|] eqn:Hl; [cbn|done].
    destruct (loopBody_index _ _ _ _ _ Hl) as [fi Hfi].
    pose proof (loopBody_Some _ _ _ _ _ _ Hc Hx Hy Hfi Hl) as ->.
    apply IH; try done; [by apply canvas_pointwise|].
    apply pointwise_binary; [|done]. intros q old Hold.
    apply stepPixel_binary; [|done].
    rewrite forallb_forall in Hpal. by eapply Hpal, list_elem_of_In, index_elem_of.
Qed.

(** With palettes of opaque and fully transparent colours only, every
    pixel of every composite is opaque or fully transparent: the two cases
    of a RestorePrevious iteration are then the only ones. *)
Lemma composite_pixels_binary (g : gif.GIF) (k : Z) (img : RGBA.t) :
  forallb wellFormed (gif.Image g) = true →
  forallb binaryPalette (gif.Image g) = true →
  gifFrameToImage g k = Some img →
  ∀ q, binary (RGBA.RGBAAt img q) = true.
Proof.
  intros Hwf Hpal Hg.
  assert (Hall : Forall (λ c, binary c = true) (RGBA.Pix img)).
  { revert Hg. unfold gifFrameToImage.
    destruct (index (gif.Image g) k) as [f|] eqn:Hf; [cbn|done].
    destruct (NewRGBA (Paletted.Bounds f)) as [fresh|] eqn:Hfresh; [cbn|done].
    pose proof (canvas_NewRGBA _ _ Hfresh) as Hc.
    assert (Hf' : f ∈ gif.Image g) by (by eapply index_elem_of).
    rewrite !forallb_forall in Hwf, Hpal.
    pose proof (wellFormed_size f (Hwf f (proj1 (list_elem_of_In _ _) Hf')))
      as [Hx Hy].
    assert (Hfr : Forall (λ c, binary c = true) (RGBA.Pix fresh)).
    { unfold NewRGBA in Hfresh. case_match; [done|]. injection Hfresh as <-.
      cbn. apply Forall_replicate. done. }
    destruct (k =? 0).
    - intros Hd. rewrite (drawFrame_Some _ _ _ _ Hc Hd).
      apply pointwise_binary; [|done]. intros q old Hold.
      apply overFrame_binary; [|done]. by apply Hpal, list_elem_of_In.
    - apply (forLoop_binary g (Paletted.Bounds f)); try done;
        try (unfold Paletted.Bounds; lia).
      by apply forallb_forall. }
  intros q. unfold RGBA.RGBAAt. case_match; [done|].
  destruct (RGBA.Pix img !! _) as [c|] eqn:Hc; [cbn|done].
  exact (Forall_lookup_1 _ _ _ _ Hall Hc).
Qed.

(** ** RestorePrevious, one iteration *)

(** C4. At a loop index [i > 0] whose disposal code is RestorePrevious the
    canvas is first copied in full into a temporary raster, frame [i] is
    drawn over the live canvas, source-over, and the snapshot is then
    drawn back over it, source-over again: where the snapshot is opaque its
    pixel returns, where it is transparent frame [i]'s pixel shows. At
    index 0 the code is a plain draw of frame 0. *)
Theorem restore_previous_iteration (g : gif.GIF) (bounds : Rectangle)
    (i : Z) (img : RGBA.t) (fi : Paletted.t) :
  canvas bounds img →
  index (gif.Image g) i = Some fi →
  disposalAt g i = disposalPrevious →
  (0 < i →
     (temp ← NewRGBA bounds;
      draw.Draw temp bounds (OfRGBA img) (Min bounds) draw.Over) = Some img
     ∧ loopBody g bounds i img =
         (drawn ← drawFrame img fi bounds;
          draw.Draw drawn bounds (OfRGBA img) (Min bounds) draw.Over)
     ∧ ∀ img',
         loopBody g bounds i img = Some img' →
         ∀ q, PtIn q bounds = true →
           (RGBA.RGBAAt img q = color.Transparent →
            RGBA.RGBAAt img' q =
              if PtIn q (Paletted.Rect fi) then colorAt fi q
              else color.Transparent) ∧
           (color.RGBA.A (RGBA.RGBAAt img q) = xff →
            RGBA.RGBAAt img' q = RGBA.RGBAAt img q))
  ∧ (i <= 0 → loopBody g bounds i img = drawFrame img fi bounds).
Proof.
  intros Hc Hfi Hd. split.
  - intros Hi. split; [by apply snapshot_copy|].
    assert (Hl : loopBody g bounds i img =
              (drawn ← drawFrame img fi bounds;
               draw.Draw drawn bounds (OfRGBA img) (Min bounds) draw.Over)).
    { rewrite loopBody_previous, Hfi by done. done. }
    split; [done|]. intros img'. rewrite Hl.
    destruct (drawFrame img fi bounds) as [drawn|] eqn:Hdrawn; [cbn|done].
    pose proof (drawFrame_Some _ _ _ _ Hc Hdrawn) as ->.
    rewrite (Draw_canvas_over bounds) by (done || by apply canvas_pointwise).
    intros [= <-] q Hq.
    rewrite (RGBAAt_pointwise bounds) by (by apply canvas_pointwise).
    rewrite (RGBAAt_pointwise bounds), Hq by done. split.
    + intros ->. rewrite pixelCopyOver_transparent. apply overFrame_empty.
    + intros Ha. by apply pixelCopyOver_opaque.
  - intros Hi. rewrite loopBody_plain, Hfi; [done | by rewrite Hd | by right].
Qed.

Lemma restore_previous_iteration_witness :
  loopBody Samples.previous (image.Rect 0 0 2 1) 1 Samples.previousCanvas =
    Some (RGBA.mk [Samples.blue; Samples.red] (image.Rect 0 0 2 1)) ∧
  loopBody Samples.previous (image.Rect 0 0 2 1) 1 Samples.previousCanvas =
    (drawn ← drawFrame Samples.previousCanvas (Samples.strip x01 x01)
                       (image.Rect 0 0 2 1);
     draw.Draw drawn (image.Rect 0 0 2 1) (OfRGBA Samples.previousCanvas)
               (Min (image.Rect 0 0 2 1)) draw.Over).
Proof.
  split; [reflexivity|].
  refine (proj1 (proj2 (proj1 (restore_previous_iteration Samples.previous
            (image.Rect 0 0 2 1) 1 Samples.previousCanvas
            (Samples.strip x01 x01) _ eq_refl eq_refl) _))); concrete.
Defined.

(** ** The heap version computes the same raster and writes nowhere else *)

Lemma leaves_refl (h : Store.heap) (n : nat) (c : RGBA.t) :
  Store.rgba h !! n = Some c → leaves h h n c.
Proof. unfold leaves. auto. Qed.

Lemma leaves_trans (h1 h2 h3 : Store.heap) (n : nat) (c2 c3 : RGBA.t) :
  leaves h1 h2 n c2 → leaves h2 h3 n c3 → leaves h1 h3 n c3.
Proof.
  intros (Hp & _ & Ht & Hl) (Hp' & Hn' & Ht' & Hl'). unfold leaves.
  rewrite Hp', Hp, Ht', Ht. repeat split; try done. lia.
Qed.

(** A draw writes the destination raster and nothing else. *)
Lemma Store_Draw (h : Store.heap) (dst : nat) (d : RGBA.t) (r : Rectangle)
    (src : Store.ref) (s : Image) (sp : Point) (op : draw.Op) :
  Store.rgba h !! dst = Some d →
  Store.load src h = Some (s, h) →
  match draw.Draw d r s sp op with
  | Some d' =>
      ∃ h', Store.Draw dst r src sp op h = Some (tt, h') ∧
            Store.paletted h' = Store.paletted h ∧
            Store.rgba h' = <[dst := d']> (Store.rgba h)
  | None => Store.Draw dst r src sp op h = None
  end.
Proof.
  intros Hd Hs. unfold Store.Draw. rewrite Hd, Hs. cbn.
  destruct (draw.Draw d r s sp op) as [d'|]; cbn; [|done]. eauto.
Qed.

Lemma leaves_insert (h h' : Store.heap) (n : nat) (c c' : RGBA.t) :
  Store.rgba h !! n = Some c →
  Store.paletted h' = Store.paletted h →
  Store.rgba h' = <[n := c']> (Store.rgba h) →
  leaves h h' n c'.
Proof.
  intros Hn Hp Hr. unfold leaves. rewrite Hp, Hr.
  apply lookup_lt_Some in Hn as Hlt.
  rewrite list_lookup_insert_eq, take_insert_ge, length_insert by lia. done.
Qed.

Lemma Store_disposalAt (g : Store.GIF) (gp : gif.GIF) (i : Z) :
  gif.Disposal gp = Store.Disposal g → Store.disposalAt g i = disposalAt gp i.
Proof. intros Hd. unfold Store.disposalAt, disposalAt. rewrite Hd. done. Qed.

Lemma resolves_index (h : Store.heap) (g : Store.GIF) (gp : gif.GIF) (i : Z) :
  Store.resolves h g gp →
  match index (gif.Image gp) i with
  | Some f => ∃ p, index (Store.Image g) i = Some p ∧
                   Store.paletted h !! p = Some f
  | None => index (Store.Image g) i = None
  end.
Proof.
  intros [Hf _]. unfold index. destruct (i <? 0); [done|].
  destruct (gif.Image gp !! Z.to_nat i) as [f|] eqn:Hi.
  - destruct (Forall2_lookup_r _ _ _ _ _ Hf Hi) as (p & Hp & Hpf). eauto.
  - apply lookup_ge_None in Hi. apply lookup_ge_None.
    rewrite (Forall2_length _ _ _ Hf). done.
Qed.

Lemma Store_drawFrame (h : Store.heap) (n p : nat) (c : RGBA.t)
    (f : Paletted.t) (bounds : Rectangle) :
  Store.rgba h !! n = Some c →
  Store.paletted h !! p = Some f →
  match drawFrame c f bounds with
  | Some c' =>
      ∃ h', Store.drawFrame n p bounds h = Some (tt, h') ∧
            Store.paletted h' = Store.paletted h ∧
            Store.rgba h' = <[n := c']> (Store.rgba h)
  | None => Store.drawFrame n p bounds h = None
  end.
Proof.
  intros Hn Hp. apply Store_Draw; [done|]. unfold Store.load. rewrite Hp. done.
Qed.

(** One iteration on the heap is the pure iteration on the canvas at
    [n]. *)
Lemma Store_loopBody (h : Store.heap) (g : Store.GIF) (gp : gif.GIF)
    (bounds : Rectangle) (i : Z) (n : nat) (c : RGBA.t) :
  Store.resolves h g gp →
  Store.rgba h !! n = Some c →
  follows (Store.loopBody g bounds i n h) (loopBody gp bounds i c) h n.
Proof.
  intros Hres Hn. pose proof (resolves_index h g gp i Hres) as Hidx.
  destruct (index (gif.Image gp) i) as [f|] eqn:Hf; cycle 1.
  { assert (Hpure : loopBody gp bounds i c = None).
    { destruct (loopBody gp bounds i c) eqn:E; [exfalso|done].
      revert E. unfold loopBody. cbn zeta. rewrite Hf.
      repeat case_match; intros; simplify_option_eq. }
    rewrite Hpure. unfold follows, Store.loopBody. cbn zeta. rewrite Hidx.
    unfold Store.bind, Store.lift. repeat case_match; done. }
  destruct Hidx as (p & Hidx & Hp).
  unfold loopBody, Store.loopBody. cbn zeta.
  rewrite Hf, Hidx, (Store_disposalAt g gp) by apply Hres.
  change (Store.bind (Store.lift (Some p)) (λ fi, Store.drawFrame n fi bounds) h)
    with (Store.drawFrame n p bounds h).
  cbn [mbind option_bind].
  assert (Hdf : ∀ h1 c1,
            Store.rgba h1 !! n = Some c1 →
            Store.paletted h1 = Store.paletted h →
            match drawFrame c1 f bounds with
            | Some c' => ∃ h', Store.drawFrame n p bounds h1 = Some (tt, h') ∧
                               Store.paletted h' = Store.paletted h1 ∧
                               Store.rgba h' = <[n := c']> (Store.rgba h1)
            | None => Store.drawFrame n p bounds h1 = None
            end).
  { intros h1 c1 H1 Hp1. apply Store_drawFrame; [done|]. by rewrite Hp1. }
  assert (Hplain : follows (Store.drawFrame n p bounds h)
                     (drawFrame c f bounds) h n).
  { specialize (Hdf h c Hn eq_refl). unfold follows.
    destruct (drawFrame c f bounds); [|done].
    destruct Hdf as (h' & ? & ? & ?). exists tt, h'. split; [done|].
    by eapply leaves_insert. }
  apply lookup_lt_Some in Hn as Hlt.
  destruct (Byte.eqb (disposalAt gp i) disposalNone); [done|].
  destruct (Byte.eqb (disposalAt gp i) disposalBackground).
  { unfold Store.bind, Store.lift.
    pose proof (Store_Draw h n c bounds (Store.ToUniform image.Transparent)
                  (OfUniform image.Transparent) ZP draw.Src Hn eq_refl) as Hclr.
    destruct (draw.Draw c bounds (OfUniform Transparent) ZP draw.Src) as [c1|];
      [|by rewrite Hclr].
    destruct Hclr as (h1 & -> & Hp1 & Hr1). cbn [mbind option_bind].
    assert (H1 : Store.rgba h1 !! n = Some c1)
      by (rewrite Hr1; by apply list_lookup_insert_eq).
    specialize (Hdf h1 c1 H1 Hp1). unfold follows.
    destruct (drawFrame c1 f bounds) as [c2|]; [|done].
    destruct Hdf as (h2 & -> & Hp2 & Hr2). eexists _, _. split; [done|].
    eapply leaves_trans; by eapply leaves_insert. }
  destruct (Byte.eqb (disposalAt gp i) disposalPrevious); [|done].
  destruct (0 <? i); [|done].
  unfold Store.bind, Store.lift, Store.NewRGBA.
  destruct (NewRGBA bounds) as [t0|]; cbn [mbind option_bind]; [|done].
  set (tp := length (Store.rgba h)).
  set (h1 := Store.mkHeap (Store.paletted h) (Store.rgba h ++ [t0])).
  assert (Hn1 : Store.rgba h1 !! n = Some c)
    by (unfold h1; cbn; by rewrite lookup_app_l).
  assert (Ht1 : Store.rgba h1 !! tp = Some t0)
    by (unfold h1; cbn; by apply list_lookup_middle).
  pose proof (Store_Draw h1 tp t0 bounds (Store.ToRGBA n) (OfRGBA c)
                (Min bounds) draw.Over Ht1) as Hsnap.
  unfold Store.load in Hsnap. rewrite Hn1 in Hsnap. specialize (Hsnap eq_refl).
  destruct (draw.Draw t0 bounds (OfRGBA c) (Min bounds) draw.Over) as [t1|];
    [|by rewrite Hsnap].
  destruct Hsnap as (h2 & -> & Hp2 & Hr2). cbn [mbind option_bind].
  assert (Hn2 : Store.rgba h2 !! n = Some c)
    by (rewrite Hr2, list_lookup_insert_ne by (unfold tp; lia); done).
  assert (Hlen1 : length (Store.rgba h1) = S tp)
    by (unfold h1; cbn; rewrite length_app; cbn; unfold tp; lia).
  assert (Ht2 : Store.rgba h2 !! tp = Some t1)
    by (rewrite Hr2; apply list_lookup_insert_eq; lia).
  specialize (Hdf h2 c Hn2 Hp2).
  destruct (drawFrame c f bounds) as [c1|]; [|by rewrite Hdf].
  destruct Hdf as (h3 & -> & Hp3 & Hr3). cbn [mbind option_bind].
  assert (Hn3 : Store.rgba h3 !! n = Some c1).
  { rewrite Hr3. apply list_lookup_insert_eq.
    rewrite Hr2, length_insert. lia. }
  assert (Ht3 : Store.rgba h3 !! tp = Some t1)
    by (rewrite Hr3, list_lookup_insert_ne by (unfold tp; lia); done).
  pose proof (Store_Draw h3 n c1 bounds (Store.ToRGBA tp) (OfRGBA t1)
                (Min bounds) draw.Over Hn3) as Hback.
  unfold Store.load in Hback. rewrite Ht3 in Hback. specialize (Hback eq_refl).
  unfold follows.
  destruct (draw.Draw c1 bounds (OfRGBA t1) (Min bounds) draw.Over) as [c2|];
    [|done].
  destruct Hback as (h4 & -> & Hp4 & Hr4). eexists _, _. split; [done|].
  unfold leaves. rewrite Hp4, Hp3, Hp2. split; [done|].
  rewrite Hr4, Hr3, Hr2. unfold h1. cbn [Store.rgba Store.paletted].
  rewrite list_lookup_insert_eq, !length_insert, length_app
    by (rewrite !length_insert, length_app; lia).
  rewrite !take_insert_ge, take_app_le by (unfold tp; lia).
  repeat split; try done. lia.
Qed.

Lemma resolves_paletted (h h' : Store.heap) (g : Store.GIF) (gp : gif.GIF) :
  Store.paletted h' = Store.paletted h →
  Store.resolves h g gp → Store.resolves h' g gp.
Proof. unfold Store.resolves. intros ->. done. Qed.

Lemma Store_forLoop (g : Store.GIF) (gp : gif.GIF) (bounds : Rectangle)
    (n : nat) (k : nat) :
  ∀ (h : Store.heap) (i : Z) (c : RGBA.t),
    Store.resolves h g gp →
    Store.rgba h !! n = Some c →
    follows (Store.forLoop g bounds k i n h) (forLoop gp bounds k i c) h n.
Proof.
  induction k as [|k IH]; intros h i c Hres Hn.
  - cbn. exists tt, h. split; [done|]. by apply leaves_refl.
  - cbn [forLoop Store.forLoop]. unfold Store.bind.
    pose proof (Store_loopBody h g gp bounds i n c Hres Hn) as Hstep.
    unfold follows in Hstep.
    destruct (loopBody gp bounds i c) as [c1|]; cbn [mbind option_bind];
      [|by rewrite Hstep].
    destruct Hstep as ([] & h1 & -> & Hl1).
    pose proof Hl1 as (Hp1 & Hn1 & _).
    specialize (IH h1 (i + 1) c1 (resolves_paletted _ _ _ _ Hp1 Hres) Hn1).
    unfold follows in *.
    destruct (forLoop gp bounds k (i + 1) c1) as [c2|]; [|done].
    destruct IH as (a & h2 & -> & Hl2). exists a, h2. split; [done|].
    by eapply leaves_trans.
Qed.

(** The heap compositor returns a fresh address holding exactly the raster
    the pure compositor computes, and panics exactly when it does. *)
Lemma Store_gifFrameToImage (h : Store.heap) (g : Store.GIF) (gp : gif.GIF)
    (k : Z) :
  Store.resolves h g gp →
  match gifFrameToImage gp k with
  | Some c =>
      ∃ h', Store.gifFrameToImage g k h = Some (length (Store.rgba h), h') ∧
            leaves h h' (length (Store.rgba h)) c
  | None => Store.gifFrameToImage g k h = None
  end.
Proof.
  intros Hres. pose proof (resolves_index h g gp k Hres) as Hidx.
  unfold gifFrameToImage, Store.gifFrameToImage.
  unfold Store.bind, Store.lift, Store.BoundsAt, Store.NewRGBA, Store.ret.
  destruct (index (gif.Image gp) k) as [f|];
    [destruct Hidx as (p & -> & Hp) | rewrite Hidx; done].
  rewrite Hp. cbn [mbind option_bind].
  destruct (NewRGBA (Paletted.Bounds f)) as [fresh|]; cbn [mbind option_bind];
    [|done].
  set (n := length (Store.rgba h)).
  set (h1 := Store.mkHeap (Store.paletted h) (Store.rgba h ++ [fresh])).
  assert (Hn1 : Store.rgba h1 !! n = Some fresh)
    by (unfold h1; cbn; by apply list_lookup_middle).
  assert (Hl1 : leaves h h1 n fresh).
  { unfold leaves, h1. cbn [Store.rgba Store.paletted].
    rewrite take_app_le, length_app by (unfold n; lia).
    repeat split; try done. lia. }
  assert (Hres1 : Store.resolves h1 g gp) by (by apply (resolves_paletted h)).
  destruct (k =? 0).
  - pose proof (Store_drawFrame h1 n p fresh f (Paletted.Bounds f) Hn1 Hp) as Hd.
    destruct (drawFrame fresh f (Paletted.Bounds f)) as [c|]; [|by rewrite Hd].
    destruct Hd as (h2 & -> & Hp2 & Hr2). exists h2. split; [done|].
    eapply leaves_trans; [done|]. by eapply leaves_insert.
  - pose proof (Store_forLoop g gp (Paletted.Bounds f) n (Z.to_nat (k + 1))
                  h1 0 fresh Hres1 Hn1) as Hloop.
    unfold follows in Hloop.
    destruct (forLoop gp (Paletted.Bounds f) (Z.to_nat (k + 1)) 0 fresh) as [c|];
      [|by rewrite Hloop].
    destruct Hloop as (a & h2 & -> & Hl2). exists h2. split; [done|].
    by eapply leaves_trans.
Qed.

(** C9. The compositor is a function of the animation and the index, and
    it only reads the animation: a run returns a freshly allocated raster
    holding the pure composite; the frames in the heap and every raster
    that existed before the run are left as they were; and a second run,
    on the heap the first one left behind, returns another fresh raster
    with bit-identical contents, the first result untouched. *)
Theorem compositor_deterministic_read_only (h h' : Store.heap) (g : Store.GIF)
    (gp : gif.GIF) (k : Z) (img : nat) :
  Store.resolves h g gp →
  Store.gifFrameToImage g k h = Some (img, h') →
  img = length (Store.rgba h)
  ∧ Store.rgba h' !! img = gifFrameToImage gp k
  ∧ Store.paletted h' = Store.paletted h
  ∧ take (length (Store.rgba h)) (Store.rgba h') = Store.rgba h
  ∧ ∃ img2 h'',
      Store.gifFrameToImage g k h' = Some (img2, h'') ∧
      img2 ≠ img ∧
      Store.rgba h'' !! img2 = Store.rgba h' !! img ∧
      Store.rgba h'' !! img = Store.rgba h' !! img ∧
      Store.paletted h'' = Store.paletted h.
Proof.
  intros Hres Hrun. pose proof (Store_gifFrameToImage h g gp k Hres) as H1.
  destruct (gifFrameToImage gp k) as [c|] eqn:Hpure; [|congruence].
  destruct H1 as (h1 & Hrun1 & Hp & Hn & Ht & Hlen).
  rewrite Hrun in Hrun1. injection Hrun1 as -> <-.
  rewrite firstn_all in Ht.
  split; [done|]. split; [by rewrite Hn|]. split; [done|]. split; [done|].
  pose proof (Store_gifFrameToImage h' g gp k
                (resolves_paletted _ _ _ _ Hp Hres)) as H2.
  rewrite Hpure in H2. destruct H2 as (h2 & Hrun2 & Hp2 & Hn2 & Ht2 & Hlen2).
  apply lookup_lt_Some in Hn as Hlt.
  exists (length (Store.rgba h')), h2. split; [done|]. split; [lia|].
  split; [by rewrite Hn2, Hn|]. split; [|by rewrite Hp2].
  rewrite firstn_all in Ht2.
  rewrite <- (lookup_take_lt (Store.rgba h2) (length (Store.rgba h'))) by lia.
  by rewrite Ht2.
Qed.

Lemma compositor_deterministic_read_only_witness :
  Store.resolves Store.scenarioHeap Store.scenario Samples.scenario' ∧
  ∃ img h',
    Store.gifFrameToImage Store.scenario 2 Store.scenarioHeap = Some (img, h') ∧
    Store.paletted h' = Store.paletted Store.scenarioHeap ∧
    take 1 (Store.rgba h') = Store.rgba Store.scenarioHeap.
Proof.
  assert (Hres : Store.resolves Store.scenarioHeap Store.scenario
                   Samples.scenario').
  { split; [|reflexivity]. repeat constructor. }
  split; [exact Hres|].
  eexists _, _. split; [vm_compute; reflexivity|].
  pose proof (compositor_deterministic_read_only Store.scenarioHeap _
                Store.scenario Samples.scenario' 2 _ Hres
                ltac:(vm_compute; reflexivity)) as (_ & _ & Hp & Ht & _).
  split; [exact Hp | exact Ht].
Defined.

(** * Further properties of the compositor and of [main] *)

(** ** File names: [filepath.Ext], [filepath.Base] *)

Lemma IsPathSeparator_true (c : byte) :
  filepath.IsPathSeparator c = true ↔ c = filepath.Separator.
Proof.
  unfold filepath.IsPathSeparator. split.
  - apply Byte.byte_dec_bl.
  - apply Byte.byte_dec_lb.
Qed.

(** What the loop of [Ext] returns when entered at [n]: nothing, or the
    suffix that starts at the last dot before [n], with neither a dot nor
    a separator between that dot and [n]. *)
Lemma extLoop_spec (path : list byte) (n : nat) :
  (n <= length path)%nat →
  filepath.extLoop path n = [] ∨
  ∃ i, (i < n)%nat ∧ path !! i = Some "."%byte ∧
       filepath.extLoop path n = drop i path ∧
       ∀ j c, (i < j < n)%nat → path !! j = Some c →
              c ≠ "."%byte ∧ c ≠ filepath.Separator.
Proof.
  induction n as [|n IH]; intros Hn; [by left|].
  cbn [filepath.extLoop].
  destruct (path !! n) as [c|] eqn:Hc; [|by left].
  destruct (filepath.IsPathSeparator c) eqn:Hsep; [by left|].
  destruct (Byte.eqb c ".") eqn:Hdot.
  - apply Byte.byte_dec_bl in Hdot. subst c. right. exists n.
    split; [lia|]. split; [done|]. split; [done|]. intros j c Hj. lia.
  - destruct IH as [IH|(i & Hi & Hdoti & Heq & Hbetween)]; [lia|by left|].
    right. exists i. split; [lia|]. split; [done|]. split; [done|].
    intros j c' Hj Hc'. destruct (decide (j = n)) as [->|Hne].
    + rewrite Hc in Hc'. injection Hc' as <-. split.
      * intros ->. by rewrite Byte.byte_dec_lb in Hdot.
      * intros Heq'. apply IsPathSeparator_true in Heq'. congruence.
    + eapply Hbetween; [|done]. lia.
Qed.

Lemma Ext_suffix (path : list byte) :
  ∃ i, (i <= length path)%nat ∧ filepath.Ext path = drop i path.
Proof.
  unfold filepath.Ext.
  destruct (extLoop_spec path (length path) ltac:(lia))
    as [->|(i & Hi & _ & -> & _)].
  - exists (length path). split; [lia|]. by rewrite drop_all.
  - exists i. split; [lia|done].
Qed.

Lemma stripLoop_spec (path : list byte) (n : nat) :
  (n <= length path)%nat →
  ∃ m, (m <= n)%nat ∧ filepath.stripLoop path n = take m path ∧
       (∀ j c, (m <= j < n)%nat → path !! j = Some c → c = filepath.Separator) ∧
       (m = 0%nat ∨ ∃ c, path !! (m - 1)%nat = Some c ∧ c ≠ filepath.Separator).
Proof.
  induction n as [|n IH]; intros Hn.
  { exists 0%nat. repeat split; try done; [lia | by left]. }
  cbn [filepath.stripLoop].
  destruct (lookup_lt_is_Some_2 path n ltac:(lia)) as [c Hc]. rewrite Hc.
  destruct (filepath.IsPathSeparator c) eqn:Hsep.
  - apply IsPathSeparator_true in Hsep. subst c.
    destruct IH as (m & Hm & Heq & Hall & Hlast); [lia|].
    exists m. split; [lia|]. split; [done|]. split; [|done].
    intros j c Hj Hjc. destruct (decide (j = n)) as [->|Hne]; [congruence|].
    eapply Hall; [|done]. lia.
  - exists (S n). split; [lia|]. split; [done|]. split; [intros; lia|].
    right. exists c. replace (S n - 1)%nat with n by lia. split; [done|].
    intros ->. by rewrite (proj2 (IsPathSeparator_true _)) in Hsep.
Qed.

Lemma lastLoop_spec (path : list byte) (n : nat) :
  (n <= length path)%nat →
  ∃ k, (k <= n)%nat ∧ filepath.lastLoop path n = drop k path ∧
       (∀ j c, (k <= j < n)%nat → path !! j = Some c → c ≠ filepath.Separator) ∧
       (k = 0%nat ∨ path !! (k - 1)%nat = Some filepath.Separator).
Proof.
  induction n as [|n IH]; intros Hn.
  { exists 0%nat. repeat split; try done; [intros; lia | by left]. }
  cbn [filepath.lastLoop].
  destruct (lookup_lt_is_Some_2 path n ltac:(lia)) as [c Hc]. rewrite Hc.
  destruct (filepath.IsPathSeparator c) eqn:Hsep.
  - apply IsPathSeparator_true in Hsep. subst c.
    exists (S n). split; [lia|]. split; [done|]. split; [intros; lia|].
    right. replace (S n - 1)%nat with n by lia. done.
  - destruct IH as (k & Hk & Heq & Hall & Hprev); [lia|].
    exists k. split; [lia|]. split; [done|]. split; [|done].
    intros j c' Hj Hjc. destruct (decide (j = n)) as [->|Hne].
    + rewrite Hc in Hjc. injection Hjc as <-. intros ->.
      by rewrite (proj2 (IsPathSeparator_true _)) in Hsep.
    + eapply Hall; [|done]. lia.
Qed.

(** [Base] is never empty; it is the lone separator exactly for a path made
    of separators only, and holds no separator otherwise. *)
Lemma Base_spec (path : list byte) :
  filepath.Base path ≠ [] ∧
  ((path ≠ [] ∧ Forall (λ c, c = filepath.Separator) path ∧
    filepath.Base path = [filepath.Separator]) ∨
   ((path = [] ∨ Exists (λ c, c ≠ filepath.Separator) path) ∧
    Forall (λ c, c ≠ filepath.Separator) (filepath.Base path))).
Proof.
  unfold filepath.Base. case_bool_decide as Hempty.
  { split; [done|]. right. split; [by left|]. repeat constructor. done. }
  cbn zeta. unfold filepath.VolumeName. cbn [length drop].
  destruct (stripLoop_spec path (length path) ltac:(lia))
    as (m & Hm & -> & Hseps & Hlast).
  set (p' := take m path).
  assert (Hlen : length p' = m) by (unfold p'; rewrite length_take; lia).
  change (drop 0 p') with p'.
  destruct (lastLoop_spec p' (length p') ltac:(lia))
    as (k & Hk & -> & Hnosep & Hprev).
  destruct Hlast as [->|(c & Hc & Hcsep)].
  - (* separators only *)
    assert (Hp' : p' = []) by done. clearbody p'. subst p'.
    rewrite drop_nil. cbn. split; [done|]. left.
    split; [done|]. split; [|done]. apply Forall_lookup. intros j c Hj.
    eapply Hseps; [|done]. apply lookup_lt_Some in Hj. lia.
  - assert (Hm1 : (1 <= m)%nat).
    { destruct m; [|lia]. cbn in Hc. apply Hseps in Hc; [done|].
      apply lookup_lt_Some in Hc. lia. }
    assert (Hc' : p' !! (m - 1)%nat = Some c).
    { unfold p'. rewrite lookup_take_lt by lia. done. }
    assert (Hkm : (k < m)%nat).
    { destruct Hprev as [->|Hprev]; [lia|].
      destruct (decide (k = m)) as [->|]; [congruence|lia]. }
    assert (Hne : drop k p' ≠ []).
    { intros Hnil. apply (f_equal length) in Hnil.
      rewrite length_drop in Hnil. cbn in Hnil. lia. }
    rewrite bool_decide_eq_false_2 by done. split; [done|]. right. split.
    + right. apply Exists_exists. exists c. split; [|done].
      eapply list_elem_of_lookup_2. done.
    + apply Forall_lookup. intros j c' Hj. rewrite lookup_drop in Hj.
      eapply Hnosep; [|done]. apply lookup_lt_Some in Hj. lia.
Qed.

(** ** File names: the stem and the name of a frame's file *)

(** The slice of line 132 never panics, and cuts [Base] into the stem and
    the extension. *)
Lemma baseFileName_spec (inputFile : list byte) :
  ∃ stem, baseFileName inputFile = Some stem ∧
          stem ++ filepath.Ext (filepath.Base inputFile) =
            filepath.Base inputFile.
Proof.
  unfold baseFileName, sliceTo. cbn zeta.
  destruct (Ext_suffix (filepath.Base inputFile)) as (i & Hi & ->).
  rewrite length_drop.
  replace ((_ <? 0) || _) with false by (symmetry; zbool; lia).
  eexists. split; [done|].
  replace (Z.to_nat _) with i by lia. apply take_drop.
Qed.

Lemma digits_no_separator (d : Decimal.uint) :
  Forall (λ c, c ≠ filepath.Separator) (fmt.digits d).
Proof. induction d; cbn; constructor; done. Qed.

Lemma d03_no_separator (i : Z) :
  Forall (λ c, c ≠ filepath.Separator) (fmt.d03 i).
Proof.
  unfold fmt.d03. cbn zeta.
  assert (∀ k, Forall (λ c, c ≠ filepath.Separator)
                 (replicate k "0"%byte ++ fmt.decimal (Z.abs_N i))).
  { intros k. apply Forall_app. split.
    - apply Forall_replicate. done.
    - apply digits_no_separator. }
  destruct (i <? 0); [constructor|]; done.
Qed.

Lemma undigits_digits (d : Decimal.uint) : fmt.undigits (fmt.digits d) = Some d.
Proof. induction d; cbn; [done|rewrite IHd; done..]. Qed.

Lemma undigits_zeros (k : nat) (l : list byte) (d : Decimal.uint) :
  fmt.undigits l = Some d →
  fmt.undigits (replicate k "0"%byte ++ l) = Some (Nat.iter k Decimal.D0 d).
Proof. intros Hl. induction k as [|k IH]; cbn; [done|]. rewrite IH. done. Qed.

Lemma of_uint_zeros (k : nat) (d : Decimal.uint) :
  N.of_uint (Nat.iter k Decimal.D0 d) = N.of_uint d.
Proof. induction k as [|k IH]; [done|]. cbn [Nat.iter]. rewrite <- IH. done. Qed.

(** The index can be read back from what [%03d] prints. *)
Lemma atoi_d03 (i : Z) : 0 <= i → fmt.atoi (fmt.d03 i) = Some (Z.to_N i).
Proof.
  intros Hi. unfold fmt.atoi, fmt.d03. cbn zeta.
  replace (i <? 0) with false by (symmetry; zbool; lia).
  unfold fmt.decimal.
  rewrite (undigits_zeros _ _ _ (undigits_digits _)). cbn.
  rewrite of_uint_zeros, DecimalN.Unsigned.of_to. f_equal. lia.
Qed.

Lemma d03_width_small (i : Z) : 0 <= i < 1000 → length (fmt.d03 i) = 3%nat.
Proof.
  intros Hi.
  assert (Hall : forallb (λ k, Nat.eqb (length (fmt.d03 (Z.of_nat k))) 3)
                         (seq 0 1000) = true) by (vm_compute; reflexivity).
  rewrite forallb_forall in Hall. specialize (Hall (Z.to_nat i)).
  rewrite Z2Nat.id in Hall by lia. apply Nat.eqb_eq, Hall, in_seq. lia.
Qed.

Lemma short_digits_small (d : Decimal.uint) :
  (length (fmt.digits d) <= 2)%nat → (N.of_uint d < 100)%N.
Proof.
  intros Hlen.
  do 3 (try destruct d as [|d|d|d|d|d|d|d|d|d|d]);
    cbn in Hlen; try lia; vm_compute; reflexivity.
Qed.

Lemma three_digits_small (d : Decimal.uint) :
  (length (fmt.digits d) <= 3)%nat → (N.of_uint d < 1000)%N.
Proof.
  intros Hlen.
  do 4 (try destruct d as [|d|d|d|d|d|d|d|d|d|d]);
    cbn in Hlen; try lia; vm_compute; reflexivity.
Qed.

Lemma d03_plain_large (i : Z) : 100 <= i → fmt.d03 i = fmt.decimal (Z.to_N i).
Proof.
  intros Hi. unfold fmt.d03. cbn zeta.
  replace (i <? 0) with false by (symmetry; zbool; lia).
  replace (Z.abs_N i) with (Z.to_N i) by lia.
  assert (Hlen : (3 <= length (fmt.decimal (Z.to_N i)))%nat).
  { destruct (decide (length (fmt.decimal (Z.to_N i)) <= 2)%nat) as [Hs|]; [|lia].
    apply short_digits_small in Hs. rewrite DecimalN.Unsigned.of_to in Hs. lia. }
  replace (3 - length (fmt.decimal (Z.to_N i)))%nat with 0%nat by lia. done.
Qed.

(** X1. What [%03d] prints for a frame index: the index can be read back
    from it; up to 999 it is exactly three bytes long; from 1000 on it is
    the plain decimal, with no padding. *)
Theorem frame_index_field (i : Z) :
  0 <= i →
  fmt.atoi (fmt.d03 i) = Some (Z.to_N i)
  ∧ (i < 1000 → length (fmt.d03 i) = 3%nat)
  ∧ (1000 <= i → fmt.d03 i = fmt.decimal (Z.to_N i) ∧
                 (4 <= length (fmt.d03 i))%nat).
Proof.
  intros Hi. split; [by apply atoi_d03|]. split.
  - intros Hlt. apply d03_width_small. lia.
  - intros Hge. split; [apply d03_plain_large; lia|].
    rewrite d03_plain_large by lia.
    destruct (decide (4 <= length (fmt.decimal (Z.to_N i)))%nat) as [|Hs]; [done|].
    exfalso.
    pose proof (three_digits_small (N.to_uint (Z.to_N i))
                  ltac:(unfold fmt.decimal in Hs; lia)) as Hall.
    rewrite DecimalN.Unsigned.of_to in Hall. lia.
Qed.

Lemma frame_index_field_witness :
  fmt.atoi (fmt.d03 7) = Some 7%N ∧ length (fmt.d03 7) = 3%nat.
Proof.
  pose proof (frame_index_field 7 ltac:(lia)) as (Hr & Hw & _).
  split; [exact Hr | apply Hw; lia].
Defined.
(** X2. Two frames of one run never share a file name: with the same stem
    and extension, equal names mean equal indices. *)
Theorem frame_names_distinct (stem ext : list byte) (i j : Z) :
  0 <= i → 0 <= j →
  outFileName stem i ext = outFileName stem j ext → i = j.
Proof.
  intros Hi Hj. unfold outFileName. intros Heq.
  apply app_inv_head, app_inv_head, app_inv_tail in Heq.
  apply (f_equal fmt.atoi) in Heq. rewrite !atoi_d03 in Heq by done.
  injection Heq as Heq. lia.
Qed.

Lemma frame_names_distinct_witness :
  outFileName ["b"%byte] 12 (extOf FormatPNG) =
    outFileName ["b"%byte] 12 (extOf FormatPNG) ∧ 12 = 12.
Proof.
  split; [reflexivity|].
  apply (frame_names_distinct ["b"%byte] (extOf FormatPNG) 12 12);
    [lia | lia | reflexivity].
Defined.

(** X3. [filepath.Ext] returns a suffix of its argument, so the slice of
    line 132 is always in range; the suffix is empty or starts at a dot and
    holds no other dot and no separator. *)
Theorem Ext_is_last_dot_suffix (path : list byte) :
  (∃ stem, stem ++ filepath.Ext path = path)
  ∧ (filepath.Ext path = [] ∨
     ∃ rest, filepath.Ext path = "."%byte :: rest ∧
             Forall (λ c, c ≠ "."%byte ∧ c ≠ filepath.Separator) rest).
Proof.
  split.
  - destruct (Ext_suffix path) as (i & _ & ->). exists (take i path).
    apply take_drop.
  - unfold filepath.Ext.
    destruct (extLoop_spec path (length path) ltac:(lia))
      as [->|(i & Hi & Hdot & -> & Hbetween)]; [by left|].
    right. exists (drop (S i) path). split.
    + by apply drop_S.
    + apply Forall_lookup. intros j c Hj. rewrite lookup_drop in Hj.
      eapply Hbetween; [|done]. apply lookup_lt_Some in Hj. lia.
Qed.

(** X4. [filepath.Base] never returns the empty string, and what it
    returns holds a separator only when the path is made of separators
    alone, in which case it is the lone separator. *)
Theorem Base_has_no_separator (path : list byte) :
  filepath.Base path ≠ []
  ∧ (filepath.Separator ∈ filepath.Base path →
     path ≠ [] ∧ Forall (λ c, c = filepath.Separator) path ∧
     filepath.Base path = [filepath.Separator]).
Proof.
  destruct (Base_spec path) as [Hne [Hsep|[_ Hfree]]]; split; try done.
  intros Hin. exfalso. rewrite Forall_forall in Hfree. by eapply Hfree.
Qed.

Lemma Base_has_no_separator_witness :
  filepath.Separator ∈ filepath.Base ["/"; "/"]%byte ∧
  filepath.Base ["/"; "/"]%byte = [filepath.Separator].
Proof.
  assert (Hin : filepath.Separator ∈ filepath.Base ["/"; "/"]%byte)
    by (vm_compute; constructor).
  split; [exact Hin|].
  exact (proj2 (proj2 (proj2 (Base_has_no_separator ["/"; "/"]%byte) Hin))).
Defined.

(** X5. For an input path that is not made of separators alone, the stem
    is cut without a panic and the name of every frame's file holds no
    separator: joined to the output directory it cannot name a file
    anywhere else. *)
Theorem frame_file_name_is_plain (inputFile : list byte) :
  Exists (λ c, c ≠ filepath.Separator) inputFile →
  ∃ stem, baseFileName inputFile = Some stem ∧
          stem ++ filepath.Ext (filepath.Base inputFile) =
            filepath.Base inputFile ∧
          ∀ i outputFormat,
            filepath.Separator ∉ outFileName stem i (extOf outputFormat).
Proof.
  intros Hex. destruct (baseFileName_spec inputFile) as (stem & Hstem & Hcut).
  exists stem. split; [done|]. split; [done|].
  assert (Hfree : Forall (λ c, c ≠ filepath.Separator) (filepath.Base inputFile)).
  { destruct (Base_spec inputFile) as [_ [(_ & Hall & _)|[_ Hfree]]]; [|done].
    exfalso. apply Exists_exists in Hex as (c & Hc & Hne).
    rewrite Forall_forall in Hall. by apply Hne, Hall. }
  rewrite <- Hcut in Hfree. apply Forall_app in Hfree as [Hstemfree _].
  intros i outputFormat Hin.
  assert (Hall : Forall (λ c, c ≠ filepath.Separator)
                   (outFileName stem i (extOf outputFormat))).
  { unfold outFileName. repeat (apply Forall_app; split); try done.
    - repeat constructor; done.
    - apply d03_no_separator.
    - destruct outputFormat; repeat constructor; done. }
  rewrite Forall_forall in Hall. by eapply Hall.
Qed.

Lemma frame_file_name_is_plain_witness :
  ∃ stem, baseFileName (inputFile Demo.flags) = Some stem ∧
          stem ++ filepath.Ext (filepath.Base (inputFile Demo.flags)) =
            filepath.Base (inputFile Demo.flags) ∧
          ∀ i outputFormat,
            filepath.Separator ∉ outFileName stem i (extOf outputFormat).
Proof.
  apply frame_file_name_is_plain. apply Exists_cons_hd. discriminate.
Defined.

(** ** [main]: one iteration *)

(** The three ways an iteration can go, once the frame is composited. *)
Lemma frameStep_spec {W : Type} (E : Env W) (fl : Flags)
    (outputFormat : OutputFormat) (stem : list byte) (g : gif.GIF) (i : Z)
    (w w' : W) (evs : list Event) :
  frameStep E fl outputFormat stem g i w = Some (w', evs) →
  ∃ img, gifFrameToImage g i = Some img ∧
    (evs = [CallCreate (outPath E fl outputFormat stem i) None;
            LogCreateError (outFileName stem i (extOf outputFormat))]
     ∨ ∃ f call ok,
         ((outputFormat = FormatPNG ∧ call = CallEncodePNG f img ok) ∨
          (outputFormat = FormatJPG ∧
           call = CallEncodeJPEG f img (quality fl) ok)) ∧
         ((ok = true ∧
           evs = [CallCreate (outPath E fl outputFormat stem i) (Some f); call;
                  CallCloseOutput f;
                  PrintSaved i (outFileName stem i (extOf outputFormat))]) ∨
          (ok = false ∧
           evs = [CallCreate (outPath E fl outputFormat stem i) (Some f); call;
                  LogEncodeError i; CallCloseOutput f]))).
Proof.
  unfold frameStep, outPath.
  destruct (gifFrameToImage g i) as [img|]; [cbn [mbind option_bind]|done].
  intros Hstep. exists img. split; [done|]. cbn zeta in Hstep.
  destruct (os_Create E _ w) as [[f|] w1]; [|left; by injection Hstep as _ <-].
  right. exists f.
  destruct outputFormat.
  - destruct (png_Encode E f img w1) as [ok w2].
    exists (CallEncodePNG f img ok), ok. split; [by left|].
    destruct ok; injection Hstep as _ <-; [left|right]; done.
  - destruct (jpeg_Encode E f img (quality fl) w1) as [ok w2].
    exists (CallEncodeJPEG f img (quality fl) ok), ok. split; [by right|].
    destruct ok; injection Hstep as _ <-; [left|right]; done.
Qed.

Lemma frameStep_None {W : Type} (E : Env W) (fl : Flags)
    (outputFormat : OutputFormat) (stem : list byte) (g : gif.GIF) (i : Z)
    (w : W) :
  frameStep E fl outputFormat stem g i w = None ↔ gifFrameToImage g i = None.
Proof.
  unfold frameStep. destruct (gifFrameToImage g i) as [img|]; [|done].
  cbn [mbind option_bind]. cbn zeta. split; [|done].
  destruct (os_Create E _ w) as [[f|] w1]; [|done].
  destruct outputFormat;
    [destruct (png_Encode E f img w1) as [[] ?]
    |destruct (jpeg_Encode E f img (quality fl) w1) as [[] ?]]; done.
Qed.

(** An iteration opens at most one file and closes it before it ends. *)
Lemma frameStep_bracketed {W : Type} (E : Env W) (fl : Flags)
    (outputFormat : OutputFormat) (stem : list byte) (g : gif.GIF) (i : Z)
    (w w' : W) (evs rest : list Event) :
  frameStep E fl outputFormat stem g i w = Some (w', evs) →
  bracketed None (evs ++ rest) = bracketed None rest.
Proof.
  intros (img & _ & [->|(f & call & ok & Hcall & Hevs)])%frameStep_spec; [done|].
  destruct Hcall as [[_ ->]|[_ ->]], Hevs as [[_ ->]|[_ ->]]; cbn;
    rewrite ?bool_decide_eq_true_2 by done; done.
Qed.

Lemma frameStep_created {W : Type} (E : Env W) (fl : Flags)
    (outputFormat : OutputFormat) (stem : list byte) (g : gif.GIF) (i : Z)
    (w w' : W) (evs : list Event) :
  frameStep E fl outputFormat stem g i w = Some (w', evs) →
  createdPaths evs = [outPath E fl outputFormat stem i].
Proof.
  intros (img & _ & [->|(f & call & ok & Hcall & Hevs)])%frameStep_spec; [done|].
  destruct Hcall as [[_ ->]|[_ ->]], Hevs as [[_ ->]|[_ ->]]; done.
Qed.

(** Each iteration reports exactly one outcome. *)
Lemma frameStep_outcome {W : Type} (E : Env W) (fl : Flags)
    (outputFormat : OutputFormat) (stem : list byte) (g : gif.GIF) (i : Z)
    (w w' : W) (evs : list Event) :
  frameStep E fl outputFormat stem g i w = Some (w', evs) →
  (length (savedFrames evs) + length (createErrors evs) +
   length (encodeErrors evs) = 1)%nat.
Proof.
  intros (img & _ & [->|(f & call & ok & Hcall & Hevs)])%frameStep_spec; [done|].
  destruct Hcall as [[_ ->]|[_ ->]], Hevs as [[_ ->]|[_ ->]]; done.
Qed.

Lemma frameStep_encoded {W : Type} (E : Env W) (fl : Flags)
    (outputFormat : OutputFormat) (stem : list byte) (g : gif.GIF) (i : Z)
    (w w' : W) (evs : list Event) :
  frameStep E fl outputFormat stem g i w = Some (w', evs) →
  Forall (λ img, gifFrameToImage g i = Some img) (encodedImages evs).
Proof.
  intros (img & Himg & [->|(f & call & ok & Hcall & Hevs)])%frameStep_spec;
    [constructor|].
  destruct Hcall as [[_ ->]|[_ ->]], Hevs as [[_ ->]|[_ ->]]; cbn;
    repeat constructor; done.
Qed.

Lemma frameStep_jpeg {W : Type} (E : Env W) (fl : Flags)
    (outputFormat : OutputFormat) (stem : list byte) (g : gif.GIF) (i : Z)
    (w w' : W) (evs : list Event) (f : File) (img : RGBA.t) (q : Z) (ok : bool) :
  frameStep E fl outputFormat stem g i w = Some (w', evs) →
  CallEncodeJPEG f img q ok ∈ evs →
  outputFormat = FormatJPG ∧ q = quality fl.
Proof.
  intros (img' & _ & [->|(f' & call & ok' & Hcall & Hevs)])%frameStep_spec
         Hin%list_elem_of_In.
  { cbn in Hin. intuition congruence. }
  destruct Hcall as [[-> ->]|[-> ->]], Hevs as [[_ ->]|[_ ->]];
    cbn in Hin; intuition congruence.
Qed.

(** ** [main]: the loop over the frames *)

Lemma frameLoop_S {W : Type} (E : Env W) (fl : Flags)
    (outputFormat : OutputFormat) (stem : list byte) (g : gif.GIF) (n : nat)
    (i : Z) (w : W) :
  frameLoop E fl outputFormat stem g (S n) i w =
    match frameStep E fl outputFormat stem g i w with
    | None => (false, w, [])
    | Some (w, evs) =>
        let '(done, w, rest) :=
          frameLoop E fl outputFormat stem g n (i + 1) w in
        (done, w, evs ++ rest)
    end.
Proof. reflexivity. Qed.

Lemma createdPaths_app (a b : list Event) :
  createdPaths (a ++ b) = createdPaths a ++ createdPaths b.
Proof. apply omap_app. Qed.

Lemma savedFrames_app (a b : list Event) :
  savedFrames (a ++ b) = savedFrames a ++ savedFrames b.
Proof. apply omap_app. Qed.

Lemma createErrors_app (a b : list Event) :
  createErrors (a ++ b) = createErrors a ++ createErrors b.
Proof. apply omap_app. Qed.

Lemma encodeErrors_app (a b : list Event) :
  encodeErrors (a ++ b) = encodeErrors a ++ encodeErrors b.
Proof. apply omap_app. Qed.

Lemma encodedImages_app (a b : list Event) :
  encodedImages (a ++ b) = encodedImages a ++ encodedImages b.
Proof. apply omap_app. Qed.

Lemma frameLoop_bracketed {W : Type} (E : Env W) (fl : Flags)
    (outputFormat : OutputFormat) (stem : list byte) (g : gif.GIF) (n : nat) :
  ∀ (i : Z) (w w' : W) (done : bool) (evs rest : list Event),
    frameLoop E fl outputFormat stem g n i w = (done, w', evs) →
    bracketed None (evs ++ rest) = bracketed None rest.
Proof.
  induction n as [|n IH]; intros i w w' done evs rest.
  { cbn. by intros [= _ _ <-]. }
  rewrite frameLoop_S.
  destruct (frameStep E fl outputFormat stem g i w) as [[w1 ev1]|] eqn:Hstep;
    [|by intros [= _ _ <-]].
  destruct (frameLoop E fl outputFormat stem g n (i + 1) w1)
    as [[d2 w2] ev2] eqn:Hloop.
  intros [= _ _ <-]. rewrite <- app_assoc.
  rewrite (frameStep_bracketed _ _ _ _ _ _ _ _ _ _ Hstep). by eapply IH.
Qed.

(** The loop attempts one file per frame, in frame order, and stops only
    at a panic of the compositor; each attempt reports one outcome. *)
Lemma frameLoop_created {W : Type} (E : Env W) (fl : Flags)
    (outputFormat : OutputFormat) (stem : list byte) (g : gif.GIF) (n : nat) :
  ∀ (i : Z) (w w' : W) (done : bool) (evs : list Event),
    frameLoop E fl outputFormat stem g n i w = (done, w', evs) →
    ∃ k, (k <= n)%nat ∧
         createdPaths evs =
           outPath E fl outputFormat stem <$> seqZ i (Z.of_nat k) ∧
         (length (savedFrames evs) + length (createErrors evs) +
          length (encodeErrors evs) = k)%nat ∧
         (done = true → k = n) ∧
         (done = false →
          (k < n)%nat ∧ gifFrameToImage g (i + Z.of_nat k) = None).
Proof.
  induction n as [|n IH]; intros i w w' done evs.
  { cbn. intros [= <- _ <-]. exists 0%nat. repeat split; done. }
  rewrite frameLoop_S.
  destruct (frameStep E fl outputFormat stem g i w) as [[w1 ev1]|] eqn:Hstep.
  - destruct (frameLoop E fl outputFormat stem g n (i + 1) w1)
      as [[d2 w2] ev2] eqn:Hloop.
    intros [= <- _ <-].
    destruct (IH _ _ _ _ _ Hloop) as (k & Hk & Hpaths & Hcount & Hdone & Hpanic).
    exists (S k). split; [lia|].
    rewrite createdPaths_app, savedFrames_app, createErrors_app,
      encodeErrors_app, !length_app.
    rewrite (frameStep_created _ _ _ _ _ _ _ _ _ Hstep), Hpaths.
    pose proof (frameStep_outcome _ _ _ _ _ _ _ _ _ Hstep).
    split; [|split; [lia|split]].
    + replace (Z.of_nat (S k)) with (Z.succ (Z.of_nat k)) by lia.
      rewrite (seqZ_cons i) by lia. cbn [fmap list_fmap].
      replace (Z.pred (Z.succ (Z.of_nat k))) with (Z.of_nat k) by lia.
      replace (Z.succ i) with (i + 1) by lia. done.
    + intros Hd. rewrite Hdone; done.
    + intros Hd. replace (i + Z.of_nat (S k)) with (i + 1 + Z.of_nat k) by lia.
      destruct (Hpanic Hd). split; [lia|done].
  - intros [= <- _ <-]. exists 0%nat. split; [lia|]. repeat split; try done.
    + lia.
    + rewrite Z.add_0_r. by eapply frameStep_None.
Qed.

(** Every raster handed to an encoder is the composite of a frame. *)
Lemma frameLoop_encoded {W : Type} (E : Env W) (fl : Flags)
    (outputFormat : OutputFormat) (stem : list byte) (g : gif.GIF) (n : nat) :
  ∀ (i : Z) (w w' : W) (done : bool) (evs : list Event),
    frameLoop E fl outputFormat stem g n i w = (done, w', evs) →
    Forall (λ img, ∃ j, i <= j < i + Z.of_nat n ∧
                        gifFrameToImage g j = Some img)
           (encodedImages evs).
Proof.
  induction n as [|n IH]; intros i w w' done evs.
  { cbn. intros [= _ _ <-]. constructor. }
  rewrite frameLoop_S.
  destruct (frameStep E fl outputFormat stem g i w) as [[w1 ev1]|] eqn:Hstep;
    [|intros [= _ _ <-]; constructor].
  destruct (frameLoop E fl outputFormat stem g n (i + 1) w1)
    as [[d2 w2] ev2] eqn:Hloop.
  intros [= _ _ <-]. rewrite encodedImages_app. apply Forall_app. split.
  - eapply Forall_impl; [by eapply frameStep_encoded|].
    intros img Himg. exists i. split; [lia|done].
  - eapply Forall_impl; [by eapply IH|].
    intros img (j & Hj & Himg). exists j. split; [lia|done].
Qed.

Lemma frameLoop_jpeg {W : Type} (E : Env W) (fl : Flags)
    (outputFormat : OutputFormat) (stem : list byte) (g : gif.GIF) (n : nat) :
  ∀ (i : Z) (w w' : W) (done : bool) (evs : list Event) f img q ok,
    frameLoop E fl outputFormat stem g n i w = (done, w', evs) →
    CallEncodeJPEG f img q ok ∈ evs →
    outputFormat = FormatJPG ∧ q = quality fl.
Proof.
  induction n as [|n IH]; intros i w w' done evs f img q ok.
  { cbn. intros [= _ _ <-] Hin. by apply elem_of_nil in Hin. }
  rewrite frameLoop_S.
  destruct (frameStep E fl outputFormat stem g i w) as [[w1 ev1]|] eqn:Hstep;
    [|intros [= _ _ <-] Hin; by apply elem_of_nil in Hin].
  destruct (frameLoop E fl outputFormat stem g n (i + 1) w1)
    as [[d2 w2] ev2] eqn:Hloop.
  intros [= _ _ <-] [Hin|Hin]%elem_of_app.
  - by eapply frameStep_jpeg.
  - by eapply IH.
Qed.

(** The loop reads the flags for the output directory and, with JPEG
    output, the quality; nothing else. *)
Lemma frameLoop_flags {W : Type} (E : Env W) (fl fl' : Flags)
    (outputFormat : OutputFormat) (stem : list byte) (g : gif.GIF) (n : nat) :
  outputDir fl' = outputDir fl →
  (outputFormat = FormatJPG → quality fl' = quality fl) →
  ∀ (i : Z) (w : W),
    frameLoop E fl' outputFormat stem g n i w =
    frameLoop E fl outputFormat stem g n i w.
Proof.
  intros Hdir Hq. induction n as [|n IH]; intros i w; [done|].
  rewrite !frameLoop_S.
  assert (Hstep : frameStep E fl' outputFormat stem g i w =
                  frameStep E fl outputFormat stem g i w).
  { unfold frameStep. rewrite Hdir. destruct outputFormat; [done|].
    by rewrite Hq. }
  rewrite Hstep.
  destruct (frameStep E fl outputFormat stem g i w) as [[w1 ev1]|]; [|done].
  rewrite IH. done.
Qed.


Lemma reports_app (a b : list Event) : reports (a ++ b) = reports a ++ reports b.
Proof. apply omap_app. Qed.

(** Each iteration reports on its own frame, once. *)
Lemma frameStep_reports {W : Type} (E : Env W) (fl : Flags)
    (outputFormat : OutputFormat) (stem : list byte) (g : gif.GIF) (i : Z)
    (w w' : W) (evs : list Event) :
  frameStep E fl outputFormat stem g i w = Some (w', evs) →
  ∃ ev, reports evs = [ev] ∧ reportsFrame stem (extOf outputFormat) i ev.
Proof.
  intros (img & _ & [->|(f & call & ok & Hcall & Hevs)])%frameStep_spec.
  { eexists. split; [reflexivity|]. right. by left. }
  destruct Hcall as [[_ ->]|[_ ->]], Hevs as [[_ ->]|[_ ->]];
    (eexists; split; [reflexivity|]); first [by left | by right; right].
Qed.

Lemma frameLoop_reports {W : Type} (E : Env W) (fl : Flags)
    (outputFormat : OutputFormat) (stem : list byte) (g : gif.GIF) (n : nat) :
  ∀ (i : Z) (w w' : W) (evs : list Event),
    frameLoop E fl outputFormat stem g n i w = (true, w', evs) →
    Forall2 (reportsFrame stem (extOf outputFormat))
            (seqZ i (Z.of_nat n)) (reports evs).
Proof.
  induction n as [|n IH]; intros i w w' evs.
  { cbn. intros [= _ <-]. constructor. }
  rewrite frameLoop_S.
  destruct (frameStep E fl outputFormat stem g i w) as [[w1 ev1]|] eqn:Hstep;
    [|done].
  destruct (frameLoop E fl outputFormat stem g n (i + 1) w1)
    as [[d2 w2] ev2] eqn:Hloop.
  intros [= -> _ <-].
  destruct (frameStep_reports _ _ _ _ _ _ _ _ _ Hstep) as (ev & Hev & Hrep).
  rewrite reports_app, Hev.
  replace (Z.of_nat (S n)) with (Z.succ (Z.of_nat n)) by lia.
  rewrite (seqZ_cons i) by lia.
  replace (Z.pred (Z.succ (Z.of_nat n))) with (Z.of_nat n) by lia.
  replace (Z.succ i) with (i + 1) by lia.
  constructor; [done|]. by eapply IH.
Qed.

(** ** [main]: the whole run *)

(** How a run ends: the usage message, one of the five fatal errors, or
    the loop over the frames after a setup that succeeded. *)
Lemma main_cases {W : Type} (E : Env W) (fl : Flags) (w : W) :
  main E fl w = (Returned, w, [PrintUsage]) ∨
  (∃ w' evs,
     main E fl w = (Exit1, w', evs) ∧
     (evs = [FatalUnsupportedFormat (format fl)] ∨
      evs = [FatalQuality] ∨
      evs = [CallOpen (inputFile fl) false; FatalOpen] ∨
      (∃ file, evs = [CallOpen (inputFile fl) true;
                      CallDecodeAll file false; FatalDecode]) ∨
      (∃ file, evs = [CallOpen (inputFile fl) true; CallDecodeAll file true;
                      CallMkdirAll (outputDir fl) false; FatalMkdir]))) ∨
  (∃ outputFormat file gifImg w', setsUp E fl w outputFormat file gifImg w').
Proof.
  unfold main, setsUp.
  destruct (bool_decide (inputFile fl = [])) eqn:Hin; [by left|].
  destruct (bool_decide (outputDir fl = [])) eqn:Hout; [by left|].
  apply bool_decide_eq_false in Hin, Hout. cbn [orb]. right.
  destruct (selectFormat (format fl)) as [outputFormat|];
    [|left; eexists _, _; split; [done|]; by left].
  destruct (_ && _) eqn:Hq;
    [left; eexists _, _; split; [done|]; by right; left|].
  destruct (os_Open E (inputFile fl) w) as [[file|] w1] eqn:Hopen;
    [|left; eexists _, _; split; [done|]; by right; right; left].
  destruct (gif_DecodeAll E file w1) as [[gifImg|] w2] eqn:Hdec;
    [|left; eexists _, _; split; [done|]; right; right; right; left; by eexists].
  destruct (os_MkdirAll E (outputDir fl) w2) as [[] w3] eqn:Hmk;
    [|left; eexists _, _; split; [done|]; right; right; right; right; by eexists].
  right. exists outputFormat, file, gifImg, w3.
  do 3 (split; [done|]). split; [|by exists w1, w2].
  intros ->. cbn in Hq. apply orb_false_iff in Hq as [H1 H2].
  apply Z.ltb_ge in H1, H2. lia.
Qed.

(** After a setup that succeeded [main] is the loop over the frames with
    the stem of the input's name, and closes the input at the end. *)
Lemma main_setsUp {W : Type} (E : Env W) (fl : Flags) (w w' : W)
    (outputFormat : OutputFormat) (file : File) (gifImg : gif.GIF) :
  setsUp E fl w outputFormat file gifImg w' →
  ∃ stem done w'' evs,
    baseFileName (inputFile fl) = Some stem ∧
    frameLoop E fl outputFormat stem gifImg (length (gif.Image gifImg)) 0 w'
      = (done, w'', evs) ∧
    main E fl w =
      (if done then Returned else Panicked,
       File_Close E file w'',
       setupEvents fl file ++ evs ++
       (if done then [PrintDone (Z.of_nat (length (gif.Image gifImg)))] else []) ++
       [CallCloseInput file]).
Proof.
  intros (Hin & Hout & Hfmt & Hq & w1 & w2 & Hopen & Hdec & Hmk).
  destruct (baseFileName_spec (inputFile fl)) as (stem & Hstem & _).
  destruct (frameLoop E fl outputFormat stem gifImg
              (length (gif.Image gifImg)) 0 w') as [[done w''] evs] eqn:Hloop.
  exists stem, done, w'', evs. split; [done|]. split; [done|].
  unfold main.
  rewrite (bool_decide_eq_false_2 _ Hin), (bool_decide_eq_false_2 _ Hout).
  cbn [orb]. rewrite Hfmt.
  replace (_ && _) with false.
  2:{ symmetry. destruct outputFormat; [done|]. cbn.
      specialize (Hq eq_refl). apply orb_false_iff. split; zbool; lia. }
  rewrite Hopen, Hdec, Hmk, Hstem, Hloop. by destruct done.
Qed.

(** X6. Whatever the file system, the decoder and the encoders do, every
    output file [main] creates is closed before the next one is created
    and before the run ends, also when the encoder fails, and an encoder
    only ever writes to the file just created. *)
Theorem main_closes_every_output {W : Type} (E : Env W) (fl : Flags) (w : W) :
  bracketed None (main E fl w).2 = true.
Proof.
  destruct (main_cases E fl w)
    as [->|[(w' & evs & -> & Hevs)|(fmt & file & g & w' & Hs)]]; [done|..].
  - destruct Hevs as [->|[->|[->|[[f ->]|[f ->]]]]]; done.
  - destruct (main_setsUp _ _ _ _ _ _ _ Hs)
      as (stem & done & w'' & evs & _ & Hloop & ->).
    cbn [snd setupEvents app bracketed].
    rewrite (frameLoop_bracketed _ _ _ _ _ _ _ _ _ _ _ _ Hloop).
    by destruct done.
Qed.

(** X7. When the setup succeeds and the frames are well formed, [main]
    returns normally after asking [os.Create] for one file per frame, in
    frame order, under the names of the frames; every frame is reported
    exactly once and in frame order: the reports of the run are as many as
    the frames, and the one at position [i] is that frame [i] was saved,
    that its file was not created, or that it was not encoded; the closing
    message counts the frames, not the files saved, and the input file is
    closed last. *)
Theorem main_attempts_every_frame {W : Type} (E : Env W) (fl : Flags)
    (w w' : W) (outputFormat : OutputFormat) (file : File)
    (gifImg : gif.GIF) :
  setsUp E fl w outputFormat file gifImg w' →
  forallb wellFormed (gif.Image gifImg) = true →
  ∃ stem,
    baseFileName (inputFile fl) = Some stem ∧
    (main E fl w).1.1 = Returned ∧
    createdPaths (main E fl w).2 =
      outPath E fl outputFormat stem <$>
        seqZ 0 (Z.of_nat (length (gif.Image gifImg))) ∧
    Forall2 (reportsFrame stem (extOf outputFormat))
            (seqZ 0 (Z.of_nat (length (gif.Image gifImg))))
            (reports (main E fl w).2) ∧
    (length (savedFrames (main E fl w).2) +
     length (createErrors (main E fl w).2) +
     length (encodeErrors (main E fl w).2) =
       length (gif.Image gifImg))%nat ∧
    PrintDone (Z.of_nat (length (gif.Image gifImg))) ∈ (main E fl w).2 ∧
    last (main E fl w).2 = Some (CallCloseInput file).
Proof.
  intros Hs Hwf.
  destruct (main_setsUp _ _ _ _ _ _ _ Hs)
    as (stem & done & w'' & evs & Hstem & Hloop & ->).
  exists stem. split; [done|].
  destruct (frameLoop_created _ _ _ _ _ _ _ _ _ _ _ Hloop)
    as (k & Hk & Hpaths & Hcount & Hdone & Hpanic).
  destruct done.
  - rewrite <- (Hdone eq_refl). cbn [fst snd].
    split; [done|]. split; [|split; [|split; [|split]]].
    + rewrite !createdPaths_app. cbn. by rewrite app_nil_r.
    + rewrite !reports_app. cbn. rewrite app_nil_r.
      rewrite (Hdone eq_refl). by eapply frameLoop_reports.
    + rewrite !savedFrames_app, !createErrors_app, !encodeErrors_app,
        !length_app. cbn. lia.
    + rewrite !elem_of_app. right. right. left. constructor.
    + rewrite !app_assoc. apply last_snoc.
  - destruct (Hpanic eq_refl) as [Hlt Hnone].
    destruct (gifFrameToImage_wellFormed gifImg (Z.of_nat k) Hwf ltac:(lia))
      as (f & img & _ & Himg & _).
    rewrite Z.add_0_l in Hnone. congruence.
Qed.

Lemma main_attempts_every_frame_witness :
  ∃ stem,
    baseFileName (inputFile Demo.flags) = Some stem ∧
    (main Demo.env Demo.flags 0%nat).1.1 = Returned ∧
    createdPaths (main Demo.env Demo.flags 0%nat).2 =
      outPath Demo.env Demo.flags FormatPNG stem <$>
        seqZ 0 (Z.of_nat (length (gif.Image Samples.scenario))) ∧
    Forall2 (reportsFrame stem (extOf FormatPNG))
            (seqZ 0 (Z.of_nat (length (gif.Image Samples.scenario))))
            (reports (main Demo.env Demo.flags 0%nat).2) ∧
    (length (savedFrames (main Demo.env Demo.flags 0%nat).2) +
     length (createErrors (main Demo.env Demo.flags 0%nat).2) +
     length (encodeErrors (main Demo.env Demo.flags 0%nat).2) =
       length (gif.Image Samples.scenario))%nat ∧
    PrintDone (Z.of_nat (length (gif.Image Samples.scenario)))
      ∈ (main Demo.env Demo.flags 0%nat).2 ∧
    last (main Demo.env Demo.flags 0%nat).2 = Some (CallCloseInput 3%nat).
Proof.
  apply (main_attempts_every_frame Demo.env Demo.flags 0%nat 0%nat FormatPNG
           3%nat Samples.scenario).
  - unfold setsUp. repeat split; try done. by exists 0%nat, 0%nat.
  - vm_compute. reflexivity.
Defined.

(** X8. Every raster [main] hands to an encoder is the composite
    [gifFrameToImage] returns for one of the frames of the decoded
    animation; nothing else is ever encoded. *)
Theorem main_encodes_composites {W : Type} (E : Env W) (fl : Flags)
    (w w' : W) (outputFormat : OutputFormat) (file : File)
    (gifImg : gif.GIF) :
  setsUp E fl w outputFormat file gifImg w' →
  Forall (λ img, ∃ j, 0 <= j < Z.of_nat (length (gif.Image gifImg)) ∧
                      gifFrameToImage gifImg j = Some img)
         (encodedImages (main E fl w).2).
Proof.
  intros Hs.
  destruct (main_setsUp _ _ _ _ _ _ _ Hs)
    as (stem & done & w'' & evs & _ & Hloop & ->).
  cbn [snd]. rewrite !encodedImages_app.
  repeat (apply Forall_app; split); try (by destruct done; cbn; constructor).
  eapply Forall_impl; [by eapply frameLoop_encoded|].
  intros img (j & Hj & Himg). exists j. split; [lia|done].
Qed.

Lemma main_encodes_composites_witness :
  Forall (λ img, ∃ j, 0 <= j < Z.of_nat (length (gif.Image Samples.scenario)) ∧
                      gifFrameToImage Samples.scenario j = Some img)
         (encodedImages (main Demo.env Demo.flags 0%nat).2).
Proof.
  apply (main_encodes_composites Demo.env Demo.flags 0%nat 0%nat FormatPNG
           3%nat Samples.scenario).
  unfold setsUp. repeat split; try done. by exists 0%nat, 0%nat.
Defined.

(** X9. With PNG output the quality flag plays no part: it is neither
    validated nor passed on, and the whole run is the same for any
    value. *)
Theorem main_png_ignores_quality {W : Type} (E : Env W) (fl : Flags)
    (q : Z) (w : W) :
  selectFormat (format fl) = Some FormatPNG →
  main E (mkFlags (inputFile fl) (outputDir fl) (format fl) q) w = main E fl w.
Proof.
  intros Hfmt. unfold main. cbn [inputFile outputDir format quality].
  rewrite Hfmt. cbn [andb].
  repeat case_match; try done; simplify_eq.
  all: match goal with
       | H1 : frameLoop _ _ _ _ _ _ _ _ = _,
         H2 : frameLoop _ _ _ _ _ _ _ _ = _ |- _ =>
           rewrite (frameLoop_flags _ fl) in H1 by done; congruence
       end.
Qed.

Lemma main_png_ignores_quality_witness :
  main Demo.env
       (mkFlags (inputFile Demo.flags) (outputDir Demo.flags)
                (format Demo.flags) (-7)) 0%nat =
  main Demo.env Demo.flags 0%nat.
Proof.
  apply (main_png_ignores_quality Demo.env Demo.flags (-7) 0%nat).
  reflexivity.
Defined.

(** X10. The JPEG encoder is only called when the format flag selects
    JPEG, and then with the quality given on the command line, which lies
    between 1 and 100. *)
Theorem main_jpeg_quality {W : Type} (E : Env W) (fl : Flags) (w : W)
    (f : File) (img : RGBA.t) (q : Z) (ok : bool) :
  CallEncodeJPEG f img q ok ∈ (main E fl w).2 →
  selectFormat (format fl) = Some FormatJPG ∧ q = quality fl ∧ 1 <= q <= 100.
Proof.
  destruct (main_cases E fl w)
    as [->|[(w' & evs & -> & Hevs)|(fmt & file & g & w' & Hs)]].
  - intros Hin%list_elem_of_In. cbn in Hin. intuition congruence.
  - intros Hin%list_elem_of_In.
    destruct Hevs as [->|[->|[->|[[f' ->]|[f' ->]]]]];
      cbn in Hin; intuition congruence.
  - destruct (main_setsUp _ _ _ _ _ _ _ Hs)
      as (stem & done & w'' & evs & _ & Hloop & ->).
    cbn [snd]. rewrite !elem_of_app.
    intros [Hin|[Hin|[Hin|Hin]]].
    + apply list_elem_of_In in Hin. cbn in Hin. intuition congruence.
    + destruct (frameLoop_jpeg _ _ _ _ _ _ _ _ _ _ _ _ _ _ _ Hloop Hin)
        as [-> ->].
      destruct Hs as (_ & _ & Hfmt & Hq & _). auto.
    + apply list_elem_of_In in Hin. destruct done; cbn in Hin;
        intuition congruence.
    + apply list_elem_of_In in Hin. cbn in Hin. intuition congruence.
Qed.

Lemma main_jpeg_quality_witness :
  selectFormat (format Demo.jpg) = Some FormatJPG ∧
  90 = quality Demo.jpg ∧ 1 <= 90 <= 100.
Proof.
  apply (main_jpeg_quality Demo.env Demo.jpg 0%nat 10%nat
           (RGBA.mk [Samples.red] Samples.unit) 90 true).
  apply list_elem_of_In. vm_compute. do 4 right. left. reflexivity.
Defined.

(** X11. A run that ends in [log.Fatal] has created no output file and
    encoded nothing, prints no closing message, and leaves the input file
    open when it had opened it: the deferred close does not run. *)
Theorem main_fatal_creates_nothing {W : Type} (E : Env W) (fl : Flags) (w : W) :
  (main E fl w).1.1 = Exit1 →
  createdPaths (main E fl w).2 = [] ∧
  encodedImages (main E fl w).2 = [] ∧
  savedFrames (main E fl w).2 = [] ∧
  ∀ ev, ev ∈ (main E fl w).2 →
        match ev with
        | CallCloseInput _ | PrintDone _ | PrintUsage => False
        | _ => True
        end.
Proof.
  destruct (main_cases E fl w)
    as [->|[(w' & evs & -> & Hevs)|(fmt & file & g & w' & Hs)]]; [done|..].
  - intros _.
    destruct Hevs as [->|[->|[->|[[f' ->]|[f' ->]]]]];
      (do 3 (split; [done|]));
      intros ev Hin%list_elem_of_In; cbn in Hin;
      repeat destruct Hin as [<-|Hin]; done.
  - destruct (main_setsUp _ _ _ _ _ _ _ Hs)
      as (stem & done & w'' & evs & _ & Hloop & ->).
    by destruct done.
Qed.

Lemma main_fatal_creates_nothing_witness :
  createdPaths (main Demo.undecodable Demo.flags 0%nat).2 = [] ∧
  encodedImages (main Demo.undecodable Demo.flags 0%nat).2 = [] ∧
  savedFrames (main Demo.undecodable Demo.flags 0%nat).2 = [] ∧
  ∀ ev, ev ∈ (main Demo.undecodable Demo.flags 0%nat).2 →
        match ev with
        | CallCloseInput _ | PrintDone _ | PrintUsage => False
        | _ => True
        end.
Proof.
  apply (main_fatal_creates_nothing Demo.undecodable Demo.flags 0%nat).
  reflexivity.
Defined.



(** X13. The formats [jpeg] and [jpg] are one: the whole run, file names
    with their [.jpg] extension included, is the same for both. *)
Theorem main_jpeg_is_jpg {W : Type} (E : Env W) (fl : Flags) (w : W) :
  format fl = ["j";"p";"e";"g"]%byte →
  main E fl w =
  main E (mkFlags (inputFile fl) (outputDir fl) ["j";"p";"g"]%byte (quality fl)) w.
Proof.
  intros Hfmt. unfold main. cbn [inputFile outputDir format quality].
  rewrite Hfmt. cbn [selectFormat]. 
  change (selectFormat ["j";"p";"e";"g"]%byte) with (Some FormatJPG).
  change (selectFormat ["j";"p";"g"]%byte) with (Some FormatJPG).
  cbn match.
  repeat case_match; try done; simplify_eq.
  all: match goal with
       | H1 : frameLoop _ _ _ _ _ _ _ _ = _,
         H2 : frameLoop _ _ _ _ _ _ _ _ = _ |- _ =>
           rewrite (frameLoop_flags _ fl) in H2 by done; congruence
       end.
Qed.

Lemma main_jpeg_is_jpg_witness :
  main Demo.env
       (mkFlags (inputFile Demo.flags) (outputDir Demo.flags)
                ["j";"p";"e";"g"]%byte 90) 0%nat =
  main Demo.env
       (mkFlags (inputFile Demo.flags) (outputDir Demo.flags)
                ["j";"p";"g"]%byte 90) 0%nat.
Proof.
  apply (main_jpeg_is_jpg Demo.env
           (mkFlags (inputFile Demo.flags) (outputDir Demo.flags)
                    ["j";"p";"e";"g"]%byte 90) 0%nat).
  reflexivity.
Defined.

(** ** The compositor as a whole *)

(** On an empty canvas the first iteration is a plain draw of frame 0,
    whatever its disposal code. *)
Lemma loopBody_first (g : gif.GIF) (bounds : Rectangle) (f0 : Paletted.t)
    (fresh : RGBA.t) :
  index (gif.Image g) 0 = Some f0 →
  NewRGBA bounds = Some fresh →
  Dx bounds <= 1000000000 → Dy bounds <= 1000000000 →
  loopBody g bounds 0 fresh = drawFrame fresh f0 bounds.
Proof.
  intros H0 Hfresh Hx Hy.
  destruct (decide (disposalAt g 0 = disposalBackground)) as [Hd|Hd].
  - rewrite loopBody_background; [|by apply canvas_NewRGBA|done..].
    rewrite H0, Hfresh. done.
  - rewrite loopBody_plain; [|done|right; lia]. rewrite H0. done.
Qed.

(** The composite as a loop, frame 0 included. *)
Lemma first_frame_loop (g : gif.GIF) (k : Z)
    (f : Paletted.t) :
  index (gif.Image g) k = Some f →
  Dx (Paletted.Rect f) <= 1000000000 → Dy (Paletted.Rect f) <= 1000000000 →
  gifFrameToImage g k =
    (fresh ← NewRGBA (Paletted.Bounds f);
     forLoop g (Paletted.Bounds f) (Z.to_nat (k + 1)) 0 fresh).
Proof.
  intros Hf Hx Hy. pose proof (proj1 (index_Some _ _ _) Hf) as [Hk _].
  destruct (decide (k = 0)) as [->|Hne].
  - unfold gifFrameToImage. rewrite Hf. cbn [mbind option_bind].
    change (0 =? 0) with true. cbv iota.
    destruct (NewRGBA (Paletted.Bounds f)) as [fresh|] eqn:Hfresh; [cbn|done].
    change (Z.to_nat (0 + 1)) with 1%nat. rewrite forLoop_S.
    rewrite (loopBody_first g _ f fresh) by done.
    destruct (drawFrame fresh f (Paletted.Bounds f)); done.
  - rewrite gifFrameToImage_pos by lia. rewrite Hf. done.
Qed.

(** X14. The shortcut for frame 0 (lines 36-39) is what the loop would
    have done: for every index the composite is the loop over frames
    [0..k] on a fresh canvas of the target's bounds. *)
Theorem first_frame_shortcut_is_the_loop (g : gif.GIF) (k : Z)
    (f : Paletted.t) :
  index (gif.Image g) k = Some f →
  Dx (Paletted.Rect f) <= 1000000000 → Dy (Paletted.Rect f) <= 1000000000 →
  gifFrameToImage g k =
    (fresh ← NewRGBA (Paletted.Bounds f);
     forLoop g (Paletted.Bounds f) (Z.to_nat (k + 1)) 0 fresh).
Proof. apply first_frame_loop. Qed.

Lemma first_frame_shortcut_is_the_loop_witness :
  gifFrameToImage Samples.stale 0 =
    (fresh ← NewRGBA (Paletted.Bounds (Samples.dot x00));
     forLoop Samples.stale (Paletted.Bounds (Samples.dot x00))
       (Z.to_nat (0 + 1)) 0 fresh).
Proof.
  apply (first_frame_shortcut_is_the_loop Samples.stale 0 (Samples.dot x00));
    [reflexivity | vm_compute; congruence | vm_compute; congruence].
Defined.

(** One more frame of the same rectangle is one more iteration. *)
Lemma gifFrameToImage_step (g : gif.GIF) (k : Z)
    (fp fk : Paletted.t) :
  1 <= k →
  index (gif.Image g) (k - 1) = Some fp →
  index (gif.Image g) k = Some fk →
  Paletted.Rect fp = Paletted.Rect fk →
  Dx (Paletted.Rect fk) <= 1000000000 → Dy (Paletted.Rect fk) <= 1000000000 →
  gifFrameToImage g k =
    (prev ← gifFrameToImage g (k - 1);
     loopBody g (Paletted.Bounds fk) k prev).
Proof.
  intros Hk Hp Hf Hrect Hx Hy.
  rewrite (first_frame_loop g k fk), (first_frame_loop g (k - 1) fp)
    by (done || by rewrite Hrect).
  unfold Paletted.Bounds. rewrite Hrect.
  destruct (NewRGBA (Paletted.Rect fk)) as [fresh|]; [cbn|done].
  replace (Z.to_nat (k + 1)) with (S (Z.to_nat k)) by lia.
  rewrite forLoop_snoc.
  replace (k - 1 + 1) with k by lia.
  replace (0 + Z.of_nat (Z.to_nat k)) with k by lia. done.
Qed.

(** X15. Composites can be computed one from the other: when frames
    [k-1] and [k] have the same rectangle, the composite at [k] is one
    more iteration of the loop on the composite at [k-1]; [main] recomputes
    it from frame 0 for every frame. *)
Theorem composite_extends_previous (g : gif.GIF) (k : Z)
    (fp fk : Paletted.t) :
  1 <= k →
  index (gif.Image g) (k - 1) = Some fp →
  index (gif.Image g) k = Some fk →
  Paletted.Rect fp = Paletted.Rect fk →
  Dx (Paletted.Rect fk) <= 1000000000 → Dy (Paletted.Rect fk) <= 1000000000 →
  gifFrameToImage g k =
    (prev ← gifFrameToImage g (k - 1);
     loopBody g (Paletted.Bounds fk) k prev).
Proof. apply gifFrameToImage_step. Qed.

Lemma composite_extends_previous_witness :
  gifFrameToImage Samples.leak 2 =
    (prev ← gifFrameToImage Samples.leak (2 - 1);
     loopBody Samples.leak (Paletted.Bounds (Samples.strip x02 x02)) 2 prev).
Proof.
  apply (composite_extends_previous Samples.leak 2
           (Samples.strip x01 x02) (Samples.strip x02 x02));
    [lia | reflexivity | reflexivity | reflexivity
    | vm_compute; congruence | vm_compute; congruence].
Defined.

(** A successful run returns a canvas of the target frame's bounds. *)
Lemma gifFrameToImage_canvas (g : gif.GIF) (k : Z) (f : Paletted.t)
    (img : RGBA.t) :
  index (gif.Image g) k = Some f →
  gifFrameToImage g k = Some img → canvas (Paletted.Bounds f) img.
Proof.
  intros Hf. unfold gifFrameToImage. rewrite Hf. cbn [mbind option_bind].
  destruct (NewRGBA (Paletted.Bounds f)) as [fresh|] eqn:Hfresh; [cbn|done].
  pose proof (canvas_NewRGBA _ _ Hfresh) as Hc.
  destruct (k =? 0).
  - intros Hd. rewrite (drawFrame_Some _ _ _ _ Hc Hd). by apply canvas_pointwise.
  - by apply forLoop_canvas.
Qed.

(** Two canvases of the same bounds rewritten by functions that agree
    whatever the old pixel. *)
Lemma pointwise_agree (bounds : Rectangle) (img img' : RGBA.t) F G :
  canvas bounds img → canvas bounds img' →
  (∀ q old old', PtIn q bounds = true → F q old = G q old') →
  pointwise F img = pointwise G img'.
Proof.
  intros Hc Hc' H. unfold pointwise.
  pose proof Hc as (HR & _ & _ & Hlen). pose proof Hc' as (HR' & _ & _ & Hlen').
  rewrite HR, HR'. f_equal. apply list_eq. intros i.
  rewrite !list_lookup_imap.
  destruct (RGBA.Pix img !! i) as [c|] eqn:Hi,
           (RGBA.Pix img' !! i) as [c'|] eqn:Hi'; cbn.
  - f_equal. apply H. pose proof (canvas_lookup_in _ _ _ _ Hc Hi) as Hin.
    by rewrite HR in Hin.
  - apply lookup_lt_Some in Hi. apply lookup_ge_None in Hi'. lia.
  - apply lookup_lt_Some in Hi'. apply lookup_ge_None in Hi. lia.
  - done.
Qed.

(** The canvas before the last iteration, for well-formed frames. *)
Lemma composite_last_step (g : gif.GIF) (k : Z) (fk : Paletted.t) :
  forallb wellFormed (gif.Image g) = true →
  index (gif.Image g) k = Some fk →
  ∃ fresh prev,
    NewRGBA (Paletted.Bounds fk) = Some fresh ∧
    canvas (Paletted.Bounds fk) prev ∧
    forLoop g (Paletted.Bounds fk) (Z.to_nat k) 0 fresh = Some prev ∧
    gifFrameToImage g k =
      Some (pointwise (stepPixel (disposalAt g k) k fk) prev).
Proof.
  intros Hall Hf. pose proof (proj1 (index_Some _ _ _) Hf) as [Hk Hlk].
  assert (Hlen : 0 <= k < Z.of_nat (length (gif.Image g))).
  { apply lookup_lt_Some in Hlk. lia. }
  destruct (wellFormed_lookup g k Hall Hlen) as (f' & Hf' & Hwf).
  assert (f' = fk) as -> by congruence.
  pose proof (wellFormed_size _ Hwf) as [Hx Hy].
  destruct (NewRGBA_is_Some (Paletted.Bounds fk)) as [fresh Hfresh];
    [unfold Paletted.Bounds; lia..|].
  pose proof (canvas_NewRGBA _ _ Hfresh) as Hc.
  destruct (forLoop_wellFormed g (Paletted.Bounds fk) (Z.to_nat k) 0 fresh)
    as [prev Hprev]; try done; try (unfold Paletted.Bounds; lia).
  { intros j Hj. apply wellFormed_lookup; [done|lia]. }
  assert (Hcp : canvas (Paletted.Bounds fk) prev) by (by eapply forLoop_canvas).
  exists fresh, prev. do 3 (split; [done|]).
  rewrite (first_frame_loop g k fk), Hfresh by (done || lia).
  cbn [mbind option_bind].
  replace (Z.to_nat (k + 1)) with (S (Z.to_nat k)) by lia.
  rewrite forLoop_snoc, Hprev. cbn [mbind option_bind].
  replace (0 + Z.of_nat (Z.to_nat k)) with k by lia.
  apply loopBody_wellFormed; try done; unfold Paletted.Bounds; lia.
Qed.

Lemma alone_unfold (f : Paletted.t) :
  gifFrameToImage (gif.mk [f] []) 0 =
    (fresh ← NewRGBA (Paletted.Bounds f);
     drawFrame fresh f (Paletted.Bounds f)).
Proof.
  unfold gifFrameToImage, index. change (0 <? 0) with false.
  change (Z.to_nat 0) with 0%nat. cbn [gif.Image].
  change ([f] !! 0%nat) with (Some f). cbn [mbind option_bind].
  destruct (NewRGBA (Paletted.Bounds f)) as [fresh|]; [|done].
  cbn [mbind option_bind]. change (0 =? 0) with true. cbv iota.
  destruct (drawFrame fresh f (Paletted.Bounds f)); done.
Qed.

(** A frame drawn alone, as a rewriting of any canvas of its bounds. *)
Lemma alone_pointwise (f : Paletted.t) (prev : RGBA.t) :
  wellFormed f = true → canvas (Paletted.Bounds f) prev →
  gifFrameToImage (gif.mk [f] []) 0 =
    Some (pointwise (λ q _, overFrame f q color.Transparent) prev).
Proof.
  intros Hwf Hc. rewrite alone_unfold, <- (pointwise_clear _ _ Hc).
  cbn [mbind option_bind].
  rewrite (drawFrame_wellFormed (Paletted.Bounds f))
    by (done || by apply canvas_pointwise).
  by rewrite pointwise_compose.
Qed.

Lemma wellFormed_index (g : gif.GIF) (k : Z) (f : Paletted.t) :
  forallb wellFormed (gif.Image g) = true →
  index (gif.Image g) k = Some f → wellFormed f = true.
Proof.
  intros Hall Hf. rewrite forallb_forall in Hall.
  by eapply Hall, list_elem_of_In, index_elem_of.
Qed.

(** X16. RestoreBackground on the target frame, at any index: the
    composite is the target frame drawn alone, the same raster a one-frame
    animation gives; nothing of the frames before it is left. *)
Theorem background_target_drawn_alone (g : gif.GIF) (k : Z)
    (fk : Paletted.t) :
  forallb wellFormed (gif.Image g) = true →
  index (gif.Image g) k = Some fk →
  disposalAt g k = disposalBackground →
  gifFrameToImage g k = gifFrameToImage (gif.mk [fk] []) 0.
Proof.
  intros Hall Hf Hd.
  destruct (composite_last_step g k fk Hall Hf)
    as (fresh & prev & Hfresh & Hcp & _ & ->).
  rewrite (alone_pointwise fk prev) by (done || by eapply wellFormed_index).
  f_equal. apply (pointwise_ext (Paletted.Bounds fk)); [done|].
  intros q old Hq. unfold stepPixel. rewrite Hd. done.
Qed.

Lemma background_target_drawn_alone_witness :
  gifFrameToImage Samples.scenario 1 =
  gifFrameToImage (gif.mk [Samples.dot x01] []) 0.
Proof.
  apply (background_target_drawn_alone Samples.scenario 1 (Samples.dot x01));
    reflexivity.
Defined.

(** X17. A fully opaque target frame whose disposal code is not
    RestorePrevious hides every frame before it: the composite is the
    target frame drawn alone. *)
Theorem opaque_target_hides_earlier_frames (g : gif.GIF) (k : Z)
    (fk : Paletted.t) :
  forallb wellFormed (gif.Image g) = true →
  index (gif.Image g) k = Some fk →
  fullyOpaque fk = true →
  disposalAt g k ≠ disposalPrevious →
  gifFrameToImage g k = gifFrameToImage (gif.mk [fk] []) 0.
Proof.
  intros Hall Hf Hop Hd.
  destruct (composite_last_step g k fk Hall Hf)
    as (fresh & prev & Hfresh & Hcp & _ & ->).
  rewrite (alone_pointwise fk prev) by (done || by eapply wellFormed_index).
  f_equal. apply (pointwise_ext (Paletted.Bounds fk)); [done|].
  intros q old Hq. unfold Paletted.Bounds in Hq.
  assert (Ha : color.RGBA.A (colorAt fk q) = xff).
  { unfold fullyOpaque in Hop. rewrite forallb_forall in Hop.
    apply Byte.byte_dec_bl, Hop, list_elem_of_In, rectPoints_complete, Hq. }
  assert (Hover : ∀ c, overFrame fk q c = colorAt fk q).
  { intros c. unfold overFrame. rewrite Hq. by apply pixelRGBA_opaque. }
  unfold stepPixel. rewrite (eqb_neq _ _ Hd), !Hover.
  repeat case_match; done.
Qed.

Lemma opaque_target_hides_earlier_frames_witness :
  gifFrameToImage Samples.scenario 2 =
  gifFrameToImage (gif.mk [Samples.dot x00] []) 0.
Proof.
  apply (opaque_target_hides_earlier_frames Samples.scenario 2 (Samples.dot x00));
    [reflexivity | reflexivity | reflexivity | discriminate].
Defined.

(** X18. RestorePrevious on the target frame: where the composite of the
    frames before it is opaque the target frame does not show at all, and
    where that composite is transparent the target frame's own colour
    shows. Stated for frames [k-1] and [k] of one rectangle. *)
Theorem restore_previous_target_hidden (g : gif.GIF) (k : Z)
    (fp fk : Paletted.t) :
  forallb wellFormed (gif.Image g) = true →
  1 <= k →
  index (gif.Image g) (k - 1) = Some fp →
  index (gif.Image g) k = Some fk →
  Paletted.Rect fp = Paletted.Rect fk →
  disposalAt g k = disposalPrevious →
  ∃ prev img,
    gifFrameToImage g (k - 1) = Some prev ∧
    gifFrameToImage g k = Some img ∧
    ∀ q, (color.RGBA.A (RGBA.RGBAAt prev q) = xff →
          RGBA.RGBAAt img q = RGBA.RGBAAt prev q) ∧
         (PtIn q (Paletted.Rect fk) = true →
          RGBA.RGBAAt prev q = color.Transparent →
          RGBA.RGBAAt img q = colorAt fk q).
Proof.
  intros Hall Hk Hp Hf Hrect Hd.
  pose proof (wellFormed_index _ _ _ Hall Hf) as Hwf.
  pose proof (wellFormed_size _ Hwf) as [Hx Hy].
  pose proof (proj1 (index_Some _ _ _) Hp) as [_ Hlp].
  destruct (gifFrameToImage_wellFormed g (k - 1) Hall) as (f' & prev & Hf' & Hprev & Hcp).
  { apply lookup_lt_Some in Hlp. lia. }
  assert (f' = fp) as -> by congruence.
  unfold Paletted.Bounds in Hcp. rewrite Hrect in Hcp.
  exists prev, (pointwise (stepPixel (disposalAt g k) k fk) prev).
  split; [done|]. split.
  { rewrite (gifFrameToImage_step g k fp fk) by (done || lia).
    rewrite Hprev. cbn [mbind option_bind].
    apply loopBody_wellFormed; try done; unfold Paletted.Bounds; lia. }
  intros q. rewrite (RGBAAt_pointwise _ _ _ _ Hcp). split.
  - intros Ha. destruct (PtIn q (Paletted.Rect fk)) eqn:Hq.
    + apply stepPixel_opaque_kept; [done|by rewrite Hd|left; split; [done|lia]].
    + unfold RGBA.RGBAAt in *. destruct Hcp as [-> _]. rewrite Hq in *. done.
  - intros Hq Ht. rewrite Hq, Ht, Hd. unfold stepPixel.
    change (Byte.eqb disposalPrevious disposalNone) with false.
    change (Byte.eqb disposalPrevious disposalBackground) with false.
    change (Byte.eqb disposalPrevious disposalPrevious) with true.
    cbv iota. replace (0 <? k) with true by (symmetry; zbool; lia).
    rewrite pixelCopyOver_transparent, overFrame_empty, Hq. done.
Qed.

Lemma restore_previous_target_hidden_witness :
  ∃ prev img,
    gifFrameToImage Samples.previous (1 - 1) = Some prev ∧
    gifFrameToImage Samples.previous 1 = Some img ∧
    ∀ q, (color.RGBA.A (RGBA.RGBAAt prev q) = xff →
          RGBA.RGBAAt img q = RGBA.RGBAAt prev q) ∧
         (PtIn q (Paletted.Rect (Samples.strip x01 x01)) = true →
          RGBA.RGBAAt prev q = color.Transparent →
          RGBA.RGBAAt img q = colorAt (Samples.strip x01 x01) q).
Proof.
  apply (restore_previous_target_hidden Samples.previous 1
           (Samples.strip x02 x00) (Samples.strip x01 x01));
    [reflexivity | lia | reflexivity | reflexivity | reflexivity | reflexivity].
Defined.

(** X19. For well-formed frames the compositor panics exactly on an index
    outside the frame list; at a valid index it returns a raster of the
    target frame's rectangle with one pixel per point. *)
Theorem compositor_returns_iff_index_valid (g : gif.GIF) (k : Z) :
  forallb wellFormed (gif.Image g) = true →
  (is_Some (gifFrameToImage g k) ↔ 0 <= k < Z.of_nat (length (gif.Image g))) ∧
  ∀ img, gifFrameToImage g k = Some img →
         ∃ f, index (gif.Image g) k = Some f ∧ canvas (Paletted.Bounds f) img.
Proof.
  intros Hall.
  assert (Hrange : ∀ img, gifFrameToImage g k = Some img →
                          ∃ f, index (gif.Image g) k = Some f).
  { intros img. unfold gifFrameToImage.
    destruct (index (gif.Image g) k) as [f|]; [by eexists|done]. }
  split; [split|].
  - intros [img Himg]. destruct (Hrange _ Himg) as [f Hf].
    apply index_Some in Hf as [Hk Hf]. apply lookup_lt_Some in Hf. lia.
  - intros Hk.
    destruct (gifFrameToImage_wellFormed g k Hall Hk) as (f & img & _ & -> & _).
    by eexists.
  - intros img Himg. destruct (Hrange _ Himg) as [f Hf]. exists f.
    split; [done|]. by eapply gifFrameToImage_canvas.
Qed.

Lemma compositor_returns_iff_index_valid_witness :
  (is_Some (gifFrameToImage Samples.scenario 3) ↔
   0 <= 3 < Z.of_nat (length (gif.Image Samples.scenario))) ∧
  ∀ img, gifFrameToImage Samples.scenario 3 = Some img →
         ∃ f, index (gif.Image Samples.scenario) 3 = Some f ∧
              canvas (Paletted.Bounds f) img.
Proof.
  apply (compositor_returns_iff_index_valid Samples.scenario 3). reflexivity.
Defined.

(** The loop, one pixel at a time. *)
Lemma forLoop_pixel (g : gif.GIF) (bounds : Rectangle) (q : Point) (n : nat) :
  ∀ (i : Z) (img img' : RGBA.t),
    canvas bounds img →
    Dx bounds <= 1000000000 → Dy bounds <= 1000000000 →
    PtIn q bounds = true →
    forLoop g bounds n i img = Some img' →
    RGBA.RGBAAt img' q = pixelLoop g q n i (RGBA.RGBAAt img q).
Proof.
  induction n as [|n IH]; intros i img img' Hc Hx Hy Hq.
  - cbn. by intros [= <-].
  - rewrite forLoop_S.
    destruct (loopBody g bounds i img) as [c1|] eqn:Hl; [cbn|done].
    destruct (loopBody_index _ _ _ _ _ Hl) as [fi Hfi].
    pose proof (loopBody_Some _ _ _ _ _ _ Hc Hx Hy Hfi Hl) as ->.
    intros Hrest. rewrite Hfi.
    rewrite (IH _ _ _ (canvas_pointwise _ _ _ Hc) Hx Hy Hq Hrest).
    by rewrite (RGBAAt_pointwise _ _ _ _ Hc), Hq.
Qed.

(** The composite, one pixel at a time. *)
Lemma gifFrameToImage_pixel (g : gif.GIF) (k : Z) (fk : Paletted.t) :
  forallb wellFormed (gif.Image g) = true →
  index (gif.Image g) k = Some fk →
  ∃ img,
    gifFrameToImage g k = Some img ∧
    ∀ q, RGBA.RGBAAt img q =
           if PtIn q (Paletted.Rect fk)
           then pixelLoop g q (Z.to_nat (k + 1)) 0 color.Transparent
           else color.Transparent.
Proof.
  intros Hall Hf.
  pose proof (wellFormed_size _ (wellFormed_index _ _ _ Hall Hf)) as [Hx Hy].
  pose proof (proj1 (index_Some _ _ _) Hf) as [Hk Hlk].
  destruct (gifFrameToImage_wellFormed g k Hall) as (f' & img & Hf' & Himg & Hc).
  { apply lookup_lt_Some in Hlk. lia. }
  assert (f' = fk) as -> by congruence.
  exists img. split; [done|]. intros q.
  destruct (PtIn q (Paletted.Rect fk)) eqn:Hq.
  - rewrite (first_frame_loop g k fk) in Himg by (done || lia).
    destruct (NewRGBA (Paletted.Bounds fk)) as [fresh|] eqn:Hfresh; [|done].
    cbn [mbind option_bind] in Himg.
    rewrite (forLoop_pixel g (Paletted.Bounds fk) q _ _ _ _
               (canvas_NewRGBA _ _ Hfresh) ltac:(unfold Paletted.Bounds; lia)
               ltac:(unfold Paletted.Bounds; lia) Hq Himg).
    by rewrite (RGBAAt_NewRGBA _ _ _ Hfresh).
  - unfold RGBA.RGBAAt. destruct Hc as [-> _]. unfold Paletted.Bounds.
    by rewrite Hq.
Qed.

(** X20. The compositor works pixel by pixel: for well-formed frames the
    colour of the composite at a point of the target's rectangle is the
    fold, over frames [0..k], of the per-pixel step of the loop started
    from transparent; it depends on the frames only through what they hold
    at that same point. Outside the rectangle the composite reads as
    transparent. *)
Theorem composite_is_pixelwise (g : gif.GIF) (k : Z) (fk : Paletted.t) :
  forallb wellFormed (gif.Image g) = true →
  index (gif.Image g) k = Some fk →
  ∃ img,
    gifFrameToImage g k = Some img ∧
    ∀ q, RGBA.RGBAAt img q =
           if PtIn q (Paletted.Rect fk)
           then pixelLoop g q (Z.to_nat (k + 1)) 0 color.Transparent
           else color.Transparent.
Proof. apply gifFrameToImage_pixel. Qed.

Lemma composite_is_pixelwise_witness :
  ∃ img,
    gifFrameToImage Samples.leak 2 = Some img ∧
    ∀ q, RGBA.RGBAAt img q =
           if PtIn q (Paletted.Rect (Samples.strip x02 x02))
           then pixelLoop Samples.leak q (Z.to_nat (2 + 1)) 0 color.Transparent
           else color.Transparent.
Proof.
  apply (composite_is_pixelwise Samples.leak 2 (Samples.strip x02 x02));
    reflexivity.
Defined.

(** The colour of a frame at a point is transparent or one of its
    palette. *)
Lemma colorAt_cases (f : Paletted.t) (q : Point) :
  colorAt f q = color.Transparent ∨ colorAt f q ∈ Paletted.Palette f.
Proof.
  unfold colorAt, Paletted.RGBA64At.
  destruct (Paletted.Palette f) as [|c0 pal] eqn:Hpal; [by left|].
  destruct (negb (PtIn q (Paletted.Rect f))); [right; cbn; constructor|].
  destruct (index (Paletted.Pix f) _) as [i|]; [cbn|by left].
  destruct (index (c0 :: pal) (uint32 i)) as [c|] eqn:Hc; [cbn|by left].
  right. by eapply index_elem_of.
Qed.

Lemma overFrame_cases (f : Paletted.t) (q : Point) (old : color.RGBA.t) :
  binaryPalette f = true →
  overFrame f q old = old ∨ overFrame f q old ∈ Paletted.Palette f.
Proof.
  intros Hb. unfold overFrame. destruct (PtIn q (Paletted.Rect f)); [|by left].
  pose proof (colorAt_binary f q Hb) as [Ht|Ha]%binary_spec.
  - rewrite Ht, pixelRGBA_transparent. by left.
  - rewrite pixelRGBA_opaque by done.
    destruct (colorAt_cases f q) as [Ht|Hin]; [|by right].
    rewrite Ht in Ha. done.
Qed.

Lemma stepPixel_cases (d : byte) (i : Z) (f : Paletted.t) (q : Point)
    (old : color.RGBA.t) :
  binaryPalette f = true → binary old = true →
  stepPixel d i f q old = old ∨
  stepPixel d i f q old = color.Transparent ∨
  stepPixel d i f q old ∈ Paletted.Palette f.
Proof.
  intros Hb Hold. unfold stepPixel.
  pose proof (overFrame_cases f q old Hb) as Hover.
  pose proof (overFrame_cases f q color.Transparent Hb) as Hclear.
  repeat case_match; try tauto.
  apply binary_spec in Hold as [->|Ha].
  - rewrite pixelCopyOver_transparent. tauto.
  - rewrite pixelCopyOver_opaque by done. tauto.
Qed.

Lemma pixelLoop_palette (g : gif.GIF) (q : Point) (n : nat) :
  ∀ (i : Z) (c : color.RGBA.t),
    forallb binaryPalette (gif.Image g) = true →
    binary c = true →
    binary (pixelLoop g q n i c) = true ∧
    (pixelLoop g q n i c = c ∨
     pixelLoop g q n i c = color.Transparent ∨
     ∃ j fj, i <= j < i + Z.of_nat n ∧
             index (gif.Image g) j = Some fj ∧
             pixelLoop g q n i c ∈ Paletted.Palette fj).
Proof.
  induction n as [|n IH]; intros i c Hpal Hc; [by split; [|left]|].
  cbn [pixelLoop].
  destruct (index (gif.Image g) i) as [fi|] eqn:Hfi; [|by split; [|left]].
  assert (Hb : binaryPalette fi = true).
  { rewrite forallb_forall in Hpal. by eapply Hpal, list_elem_of_In, index_elem_of. }
  pose proof (stepPixel_binary (disposalAt g i) i fi q c Hb Hc) as Hc1.
  destruct (IH (i + 1) _ Hpal Hc1) as [Hbin Hcases]. split; [done|].
  destruct Hcases as [Heq|[Ht|(j & fj & Hj & Hfj & Hin)]].
  - rewrite Heq.
    destruct (stepPixel_cases (disposalAt g i) i fi q c Hb Hc) as [->|[->|Hin]];
      [by left|by right; left|].
    right. right. exists i, fi. split; [lia|done].
  - by right; left.
  - right. right. exists j, fj. split; [lia|done].
Qed.

(** X21. Compositing makes no new colour: when every palette holds only
    opaque and fully transparent colours, each pixel of a composite is
    fully transparent or a palette colour of one of the frames [0..k]. *)
Theorem composite_colours_from_palettes (g : gif.GIF) (k : Z)
    (img : RGBA.t) :
  forallb wellFormed (gif.Image g) = true →
  forallb binaryPalette (gif.Image g) = true →
  gifFrameToImage g k = Some img →
  ∀ q, RGBA.RGBAAt img q = color.Transparent ∨
       ∃ j fj, 0 <= j <= k ∧ index (gif.Image g) j = Some fj ∧
               RGBA.RGBAAt img q ∈ Paletted.Palette fj.
Proof.
  intros Hall Hpal Himg q.
  destruct (index (gif.Image g) k) as [fk|] eqn:Hf;
    [|by unfold gifFrameToImage in Himg; rewrite Hf in Himg].
  pose proof (proj1 (index_Some _ _ _) Hf) as [Hk _].
  destruct (gifFrameToImage_pixel g k fk Hall Hf) as (img' & Himg' & Hpix).
  assert (img' = img) as -> by congruence.
  rewrite Hpix. destruct (PtIn q (Paletted.Rect fk)); [|by left].
  destruct (pixelLoop_palette g q (Z.to_nat (k + 1)) 0 color.Transparent Hpal)
    as [_ [->|[->|(j & fj & Hj & Hfj & Hin)]]]; [done|by left|by left|].
  right. exists j, fj. split; [lia|done].
Qed.

Lemma composite_colours_from_palettes_witness :
  RGBA.RGBAAt (RGBA.mk [Samples.blue; Samples.red] (image.Rect 0 0 2 1))
              (mkPoint 1 0) = color.Transparent ∨
  ∃ j fj, 0 <= j <= 2 ∧ index (gif.Image Samples.leak) j = Some fj ∧
          RGBA.RGBAAt (RGBA.mk [Samples.blue; Samples.red]
                               (image.Rect 0 0 2 1)) (mkPoint 1 0)
            ∈ Paletted.Palette fj.
Proof.
  apply (composite_colours_from_palettes Samples.leak 2); reflexivity.
Defined.

(** X22. Drawing a frame whose palette holds only opaque and fully
    transparent colours a second time changes nothing. *)
Theorem drawFrame_twice (bounds : Rectangle) (img : RGBA.t)
    (f : Paletted.t) :
  canvas bounds img → wellFormed f = true → binaryPalette f = true →
  (drawn ← drawFrame img f bounds; drawFrame drawn f bounds) =
  drawFrame img f bounds.
Proof.
  intros Hc Hwf Hb. rewrite (drawFrame_wellFormed _ _ _ Hc Hwf).
  cbn [mbind option_bind].
  rewrite (drawFrame_wellFormed bounds) by (done || by apply canvas_pointwise).
  rewrite pointwise_compose. f_equal.
  apply (pointwise_ext bounds); [done|]. intros q old _.
  unfold overFrame. destruct (PtIn q (Paletted.Rect f)); [|done].
  pose proof (colorAt_binary f q Hb) as [Ht|Ha]%binary_spec.
  - by rewrite Ht, !pixelRGBA_transparent.
  - by rewrite !pixelRGBA_opaque.
Qed.

Lemma drawFrame_twice_witness :
  (drawn ← drawFrame Samples.previousCanvas (Samples.strip x01 x02)
             (image.Rect 0 0 2 1);
   drawFrame drawn (Samples.strip x01 x02) (image.Rect 0 0 2 1)) =
  drawFrame Samples.previousCanvas (Samples.strip x01 x02) (image.Rect 0 0 2 1).
Proof.
  apply (drawFrame_twice (image.Rect 0 0 2 1) Samples.previousCanvas
           (Samples.strip x01 x02)); [concrete | reflexivity | reflexivity].
Defined.

(** X23. A frame that is transparent everywhere, with a disposal code
    other than RestoreBackground and RestorePrevious, adds nothing: its
    composite is the composite of the frame before it, when the two frames
    have the same rectangle. *)
Theorem transparent_frame_adds_nothing (g : gif.GIF) (k : Z)
    (fp fk : Paletted.t) :
  1 <= k →
  index (gif.Image g) (k - 1) = Some fp →
  index (gif.Image g) k = Some fk →
  Paletted.Rect fp = Paletted.Rect fk →
  wellFormed fk = true →
  (∀ q, PtIn q (Paletted.Rect fk) = true → colorAt fk q = color.Transparent) →
  disposalAt g k ≠ disposalBackground →
  disposalAt g k ≠ disposalPrevious →
  gifFrameToImage g k = gifFrameToImage g (k - 1).
Proof.
  intros Hk Hp Hf Hrect Hwf Hclear Hb Hprev.
  pose proof (wellFormed_size _ Hwf) as [Hx Hy].
  rewrite (gifFrameToImage_step g k fp fk) by (done || lia).
  destruct (gifFrameToImage g (k - 1)) as [prev|] eqn:Hcomp; [|done].
  cbn [mbind option_bind].
  pose proof (gifFrameToImage_canvas _ _ _ _ Hp Hcomp) as Hc.
  unfold Paletted.Bounds in Hc. rewrite Hrect in Hc.
  rewrite (loopBody_wellFormed g _ k prev fk)
    by (done || unfold Paletted.Bounds; lia).
  f_equal. apply pointwise_id. intros j old Hj.
  pose proof (canvas_lookup_in _ _ _ _ Hc Hj) as Hq.
  unfold stepPixel, overFrame.
  rewrite (eqb_neq _ _ Hb), (eqb_neq _ _ Hprev), Hq, (Hclear _ Hq),
    pixelRGBA_transparent.
  by destruct (Byte.eqb (disposalAt g k) disposalNone).
Qed.

Lemma transparent_frame_adds_nothing_witness :
  gifFrameToImage Samples.leak 2 = gifFrameToImage Samples.leak (2 - 1).
Proof.
  apply (transparent_frame_adds_nothing Samples.leak 2
           (Samples.strip x01 x02) (Samples.strip x02 x02));
    [lia | reflexivity | reflexivity | reflexivity | reflexivity
    | | discriminate | discriminate].
  intros [x y] Hq. apply PtIn_spec in Hq. cbn in Hq.
  assert (Hx : x = 0 ∨ x = 1) by lia. assert (y = 0) as -> by lia.
  destruct Hx as [->| ->]; reflexivity.
Defined.

(** ** RestoreBackground on frame 0 of two *)

(** Over an opaque pixel the result is opaque. *)
Lemma pixelRGBA_alpha_opaque (d s : color.RGBA.t) :
  color.RGBA.A d = xff → color.RGBA.A (draw.pixelRGBA draw.Over d s) = xff.
Proof.
  destruct d as [dr dg db da], s as [r g b a]. cbn [color.RGBA.A]. intros ->.
  unfold draw.pixelRGBA, color.RGBA.RGBA.
  cbn [color.RGBA.R color.RGBA.G color.RGBA.B color.RGBA.A].
  destruct a; vm_compute; reflexivity.
Qed.

(** On a transparent pixel every iteration is a plain draw. *)
Lemma stepPixel_on_empty (d : byte) (i : Z) (f : Paletted.t) (q : Point) :
  stepPixel d i f q color.Transparent = overFrame f q color.Transparent.
Proof.
  unfold stepPixel. repeat case_match; try done.
  apply pixelCopyOver_transparent.
Qed.

(** What iteration 1 leaves at a point where frame 0 is opaque. *)
Lemma hides_spec (d : byte) (f0 f1 : Paletted.t) (q : Point) :
  PtIn q (Paletted.Rect f1) = true →
  color.RGBA.A (colorAt f0 q) = xff →
  stepPixel d 1 f1 q (colorAt f0 q) = overFrame f1 q color.Transparent
  ↔ hides d f0 f1 q.
Proof.
  intros Hq Ha. unfold hides, stepPixel. rewrite overFrame_empty, Hq.
  destruct (Byte.eqb d disposalBackground) eqn:Eb.
  { apply Byte.byte_dec_bl in Eb as ->.
    change (Byte.eqb disposalBackground disposalNone) with false. cbv iota.
    split; done. }
  assert (Hplain : overFrame f1 q (colorAt f0 q) = colorAt f1 q
                   ↔ color.RGBA.A (colorAt f1 q) = xff).
  { unfold overFrame. rewrite Hq. split.
    - intros Heq. rewrite <- Heq. by apply pixelRGBA_alpha_opaque.
    - apply pixelRGBA_opaque. }
  destruct (Byte.eqb d disposalPrevious) eqn:Ep.
  { apply Byte.byte_dec_bl in Ep as ->.
    change (Byte.eqb disposalPrevious disposalNone) with false.
    change (0 <? 1) with true. cbv iota.
    rewrite pixelCopyOver_opaque by done. split; done. }
  destruct (Byte.eqb d disposalNone); done.
Qed.

(** C1, as amended. In a 2-frame animation whose frame 0 is fully opaque
    and has disposal code RestoreBackground, the composite at index 1 is
    frame 1 drawn alone onto an empty transparent canvas exactly when frame
    1 hides frame 0 at every point the two frames share: frame 1 has code
    RestoreBackground, or it has code RestorePrevious and the colour of
    frame 0 there, or it has any other code and is opaque there. The code
    of frame 0 clears nothing for frame 1. *)
Theorem background_on_frame0_hidden_iff (g : gif.GIF) (f0 f1 : Paletted.t) :
  gif.Image g = [f0; f1] →
  wellFormed f0 = true → wellFormed f1 = true →
  disposalAt g 0 = disposalBackground →
  fullyOpaque f0 = true →
  gifFrameToImage g 1 =
    (fresh ← NewRGBA (Paletted.Bounds f1);
     drawFrame fresh f1 (Paletted.Bounds f1))
  ↔ ∀ q, PtIn q (Paletted.Rect f0) = true →
         PtIn q (Paletted.Rect f1) = true →
         hides (disposalAt g 1) f0 f1 q.
Proof.
  intros Hg H0 H1 Hd0 Hop. pose proof (wellFormed_size _ H1) as [Hx Hy].
  destruct (NewRGBA_is_Some (Paletted.Bounds f1)) as [fresh Hfresh];
    [unfold Paletted.Bounds; lia..|].
  pose proof (canvas_NewRGBA _ _ Hfresh) as Hc.
  set (c0 := pointwise (stepPixel (disposalAt g 0) 0 f0) fresh).
  assert (Hc0 : canvas (Paletted.Bounds f1) c0) by (by apply canvas_pointwise).
  rewrite (two_frames_loop g f0 f1 fresh) by done. fold c0.
  rewrite (loopBody_wellFormed g _ 1 c0 f1);
    [| done | unfold Paletted.Bounds; lia.. | by rewrite Hg | done].
  rewrite <- alone_unfold, (alone_pointwise f1 c0) by done.
  assert (Hat : ∀ q, PtIn q (Paletted.Rect f1) = true →
                     RGBA.RGBAAt c0 q =
                       if PtIn q (Paletted.Rect f0) then colorAt f0 q
                       else color.Transparent).
  { intros q Hq. unfold c0. rewrite (RGBAAt_pointwise _ _ _ _ Hc).
    unfold Paletted.Bounds. rewrite Hq, (RGBAAt_NewRGBA _ _ _ Hfresh).
    by rewrite stepPixel_first, overFrame_empty. }
  assert (Hopq : ∀ q, PtIn q (Paletted.Rect f0) = true →
                      color.RGBA.A (colorAt f0 q) = xff).
  { intros q Hq. unfold fullyOpaque in Hop. rewrite forallb_forall in Hop.
    apply Byte.byte_dec_bl, Hop, list_elem_of_In, rectPoints_complete, Hq. }
  split.
  - intros Heq q Hq0 Hq1. apply (inj Some) in Heq.
    apply (f_equal (λ img, RGBA.RGBAAt img q)) in Heq.
    rewrite !(RGBAAt_pointwise _ _ _ _ Hc0) in Heq.
    unfold Paletted.Bounds in Heq. rewrite Hq1, (Hat q Hq1), Hq0 in Heq.
    by apply hides_spec; [|apply Hopq|].
  - intros Hh. f_equal. apply pointwise_ext_lookup. intros k old Hk.
    pose proof (canvas_lookup_in _ _ _ _ Hc0 Hk) as Hq1.
    pose proof (RGBAAt_lookup _ _ _ _ Hc0 Hk) as Hold.
    set (q := RGBA.pointAt (RGBA.Rect c0) (Z.of_nat k)) in *.
    unfold Paletted.Bounds in Hq1. rewrite (Hat q Hq1) in Hold. subst old.
    destruct (PtIn q (Paletted.Rect f0)) eqn:Hq0.
    + apply hides_spec; [done|by apply Hopq|by apply Hh].
    + apply stepPixel_on_empty.
Qed.

Lemma background_on_frame0_hidden_iff_witness :
  gifFrameToImage Samples.covered 1 = Some (RGBA.mk [Samples.blue] Samples.unit) ∧
  gifFrameToImage Samples.covered 1 =
    (fresh ← NewRGBA (Paletted.Bounds (Samples.dot x01));
     drawFrame fresh (Samples.dot x01) (Paletted.Bounds (Samples.dot x01))).
Proof.
  split; [reflexivity|].
  apply (background_on_frame0_hidden_iff Samples.covered
           (Samples.dot x00) (Samples.dot x01));
    [reflexivity | reflexivity | reflexivity | reflexivity | reflexivity |].
  intros [x y] _ Hq. apply PtIn_spec in Hq. cbn in Hq.
  assert (x = 0) as -> by lia. assert (y = 0) as -> by lia. reflexivity.
Defined.

(** ** Coordinates and clipping *)

Lemma index_le {A : Type} (l : list A) (i t : Z) (x : A) :
  index l t = Some x → 0 <= i <= t → is_Some (index l i).
Proof.
  intros [Ht Hx]%index_Some Hi. apply lookup_lt_Some in Hx.
  destruct (lookup_lt_is_Some_2 l (Z.to_nat i) ltac:(lia)) as [y Hy].
  exists y. apply index_Some. split; [lia|done].
Qed.

(** An opaque pixel of the frame replaces what the canvas held, unless the
    iteration is a RestorePrevious one past index 0. *)
Lemma stepPixel_shows (d : byte) (i : Z) (f : Paletted.t) (q : Point)
    (old : color.RGBA.t) :
  PtIn q (Paletted.Rect f) = true →
  color.RGBA.A (colorAt f q) = xff →
  (d = disposalPrevious → i <= 0) →
  stepPixel d i f q old = colorAt f q.
Proof.
  intros Hq Ha Hd.
  assert (Hover : ∀ c, overFrame f q c = colorAt f q).
  { intros c. unfold overFrame. rewrite Hq. by apply pixelRGBA_opaque. }
  unfold stepPixel. rewrite !Hover.
  destruct (Byte.eqb d disposalNone); [done|].
  destruct (Byte.eqb d disposalBackground); [done|].
  destruct (Byte.eqb d disposalPrevious) eqn:Ep; [|done].
  apply Byte.byte_dec_bl in Ep.
  replace (0 <? i) with false by (symmetry; zbool; specialize (Hd Ep); lia).
  done.
Qed.

(** An opaque pixel stays while no later frame clears the canvas or draws
    on it. *)
Lemma pixelLoop_kept (g : gif.GIF) (q : Point) (n : nat) :
  ∀ (i : Z) (c : color.RGBA.t),
    0 < i →
    color.RGBA.A c = xff →
    (∀ j fj, i <= j < i + Z.of_nat n → index (gif.Image g) j = Some fj →
             disposalAt g j ≠ disposalBackground ∧
             (disposalAt g j = disposalPrevious ∨
              PtIn q (Paletted.Rect fj) = false ∨
              colorAt fj q = color.Transparent)) →
    pixelLoop g q n i c = c.
Proof.
  induction n as [|n IH]; intros i c Hi Ha Hkeep; [done|].
  cbn [pixelLoop]. destruct (index (gif.Image g) i) as [fi|] eqn:Hfi; [|done].
  destruct (Hkeep i fi ltac:(lia) Hfi) as [Hb Hcase].
  rewrite (stepPixel_opaque_kept _ _ _ _ _ Ha Hb).
  - apply IH; [lia|done|]. intros j fj Hj. apply Hkeep. lia.
  - destruct Hcase as [Hp|[Hout|Ht]]; [left; split; [done|lia]|right..].
    + intros Hin. congruence.
    + done.
Qed.

(** The pixel a frame puts on the canvas is the pixel of the composite
    when nothing after it changes that point. *)
Lemma pixelLoop_shows (g : gif.GIF) (q : Point) (n : nat) :
  ∀ (i : Z) (c : color.RGBA.t) (t : Z) (ft : Paletted.t),
    0 <= i → i <= t < i + Z.of_nat n →
    index (gif.Image g) t = Some ft →
    PtIn q (Paletted.Rect ft) = true →
    color.RGBA.A (colorAt ft q) = xff →
    (disposalAt g t = disposalPrevious → t <= 0) →
    (∀ j fj, t < j < i + Z.of_nat n → index (gif.Image g) j = Some fj →
             disposalAt g j ≠ disposalBackground ∧
             (disposalAt g j = disposalPrevious ∨
              PtIn q (Paletted.Rect fj) = false ∨
              colorAt fj q = color.Transparent)) →
    pixelLoop g q n i c = colorAt ft q.
Proof.
  induction n as [|n IH]; intros i c t ft Hi Ht Hft Hq Ha Hd Hkeep; [lia|].
  cbn [pixelLoop].
  destruct (index_le _ i t _ Hft ltac:(lia)) as [fi Hfi]. rewrite Hfi.
  destruct (decide (t = i)) as [->|Hne].
  - assert (fi = ft) as -> by congruence.
    rewrite (stepPixel_shows _ _ _ _ _ Hq Ha Hd).
    apply pixelLoop_kept; [lia|done|]. intros j fj Hj. apply Hkeep. lia.
  - apply (IH (i + 1) _ t ft); try done; try lia.
    intros j fj Hj. apply Hkeep. lia.
Qed.

(** C10. Every frame up to the target is drawn on the target frame's
    rectangle from that rectangle's minimum point, in one absolute
    coordinate system: the composite is the loop over frames [0..k] on a
    canvas of the target's bounds; each iteration blends, at every point
    [q] of that rectangle, the canvas pixel with the frame's pixel at the
    same [q] where the frame has one and leaves it alone where it has
    none; so an opaque pixel of frame [i] shows in the composite at its
    own position when no later frame changes that point. The composite
    has the target's rectangle, and what a frame holds outside it is not
    in the raster. *)
Theorem frames_drawn_in_target_bounds (g : gif.GIF) (k : Z) (ft : Paletted.t)
    (img : RGBA.t) :
  index (gif.Image g) k = Some ft →
  Dx (Paletted.Rect ft) <= 1000000000 → Dy (Paletted.Rect ft) <= 1000000000 →
  gifFrameToImage g k = Some img →
  canvas (Paletted.Bounds ft) img
  ∧ RGBA.Bounds img = Paletted.Bounds ft
  ∧ (∃ fresh, NewRGBA (Paletted.Bounds ft) = Some fresh ∧
              forLoop g (Paletted.Bounds ft) (Z.to_nat (k + 1)) 0 fresh = Some img)
  ∧ (∀ i cv cv',
       canvas (Paletted.Bounds ft) cv →
       loopBody g (Paletted.Bounds ft) i cv = Some cv' →
       ∃ fi, index (gif.Image g) i = Some fi ∧
             canvas (Paletted.Bounds ft) cv' ∧
             ∀ q, RGBA.RGBAAt cv' q =
                  if PtIn q (Paletted.Bounds ft)
                  then stepPixel (disposalAt g i) i fi q (RGBA.RGBAAt cv q)
                  else color.Transparent)
  ∧ (∀ q, RGBA.RGBAAt img q =
          if PtIn q (Paletted.Bounds ft)
          then pixelLoop g q (Z.to_nat (k + 1)) 0 color.Transparent
          else color.Transparent)
  ∧ (∀ i fi q,
       0 <= i <= k → index (gif.Image g) i = Some fi →
       PtIn q (Paletted.Bounds ft) = true →
       PtIn q (Paletted.Rect fi) = true →
       color.RGBA.A (colorAt fi q) = xff →
       (disposalAt g i = disposalPrevious → i <= 0) →
       (∀ j fj, i < j <= k → index (gif.Image g) j = Some fj →
                disposalAt g j ≠ disposalBackground ∧
                (disposalAt g j = disposalPrevious ∨
                 PtIn q (Paletted.Rect fj) = false ∨
                 colorAt fj q = color.Transparent)) →
       RGBA.RGBAAt img q = colorAt fi q)
  ∧ ∀ (cv cv' : RGBA.t) (f : Paletted.t),
      canvas (Paletted.Bounds ft) cv →
      drawFrame cv f (Paletted.Bounds ft) = Some cv' →
      RGBA.Bounds cv' = Paletted.Bounds ft ∧
      ∀ q, RGBA.RGBAAt cv' q =
           if PtIn q (Paletted.Bounds ft) then
             if PtIn q (Paletted.Bounds f)
             then draw.pixelRGBA draw.Over (RGBA.RGBAAt cv q) (colorAt f q)
             else RGBA.RGBAAt cv q
           else color.Transparent.
Proof.
  intros Hft Hx Hy Hg.
  pose proof (proj1 (index_Some _ _ _) Hft) as [Hk _].
  pose proof (gifFrameToImage_canvas _ _ _ _ Hft Hg) as Hc.
  pose proof Hg as Hloop. rewrite (first_frame_loop g k ft) in Hloop by done.
  destruct (NewRGBA (Paletted.Bounds ft)) as [fresh|] eqn:Hfresh; [|done].
  cbn [mbind option_bind] in Hloop.
  assert (Hpix : ∀ q, RGBA.RGBAAt img q =
            if PtIn q (Paletted.Bounds ft)
            then pixelLoop g q (Z.to_nat (k + 1)) 0 color.Transparent
            else color.Transparent).
  { intros q. destruct (PtIn q (Paletted.Bounds ft)) eqn:Hq.
    - rewrite (forLoop_pixel g (Paletted.Bounds ft) q _ _ _ _
                 (canvas_NewRGBA _ _ Hfresh) Hx Hy Hq Hloop).
      by rewrite (RGBAAt_NewRGBA _ _ _ Hfresh).
    - unfold RGBA.RGBAAt. destruct Hc as [-> _]. by rewrite Hq. }
  split; [done|]. split; [apply Hc|]. split; [by exists fresh|].
  split; [|split; [done|split]].
  - intros i cv cv' Hcv Hl.
    destruct (loopBody_index _ _ _ _ _ Hl) as [fi Hfi]. exists fi.
    pose proof (loopBody_Some _ _ _ _ _ _ Hcv Hx Hy Hfi Hl) as ->.
    split; [done|]. split; [by apply canvas_pointwise|].
    intros q. by rewrite (RGBAAt_pointwise _ _ _ _ Hcv).
  - intros i fi q Hi Hfi Hq Hqi Ha Hd Hkeep. rewrite Hpix, Hq.
    apply (pixelLoop_shows g q _ 0 _ i fi); try done; try lia.
    intros j fj Hj. apply Hkeep. lia.
  - intros cv cv' f Hcv Hd. pose proof (drawFrame_Some _ _ _ _ Hcv Hd) as ->.
    split; [apply Hcv|]. intros q.
    rewrite (RGBAAt_pointwise _ _ _ _ Hcv). done.
Qed.

Lemma frames_drawn_in_target_bounds_witness :
  gifFrameToImage Samples.mixed 1 = Some Samples.redCanvas ∧
  RGBA.Bounds Samples.redCanvas = Samples.unit ∧
  RGBA.RGBAAt Samples.redCanvas (mkPoint 0 0) =
    colorAt (Samples.strip x00 x01) (mkPoint 0 0) ∧
  RGBA.RGBAAt Samples.redCanvas (mkPoint 1 0) = color.Transparent.
Proof.
  split; [reflexivity|].
  pose proof (frames_drawn_in_target_bounds Samples.mixed 1
                (Samples.dot x02) Samples.redCanvas eq_refl
                ltac:(vm_compute; congruence) ltac:(vm_compute; congruence)
                eq_refl) as (_ & Hb & _ & _ & Hpix & Hshow & _).
  split; [exact Hb|]. split.
  - apply (Hshow 0 (Samples.strip x00 x01) (mkPoint 0 0));
      [lia | reflexivity | reflexivity | reflexivity | reflexivity
      | intros _; lia |].
    intros j fj Hj Hfj. assert (j = 1) as -> by lia.
    injection Hfj as <-. split; [discriminate|]. right. right. reflexivity.
  - exact (Hpix (mkPoint 1 0)).
Defined.
